(** * Mask R-CNN post-processing utilities: a shallow embedding

    The development follows [mrcnn/utils/utils.py] and [nms/pth_nms.py].

    Conventions of the embedding:
    - a Python / numpy floating-point number is an exact rational ([Q]);
      the exponential and the logarithm of the box parametrization need
      the reals ([R]); where the rounding of torch's [float32] decides
      what the code returns (the pixel boxes of the unmolder), the
      numbers are IEEE 754 binary32 floats ([f32]), computed with the
      operations of the Standard Library's [SpecFloat];
    - an [int32] tensor entry is a [Z] with the wrap-around written out
      ([wrap32]);
    - a raised exception is the [Err] branch of [result]; the exception
      classes keep their Python names;
    - a tensor or array of rows is a [list] of rows. *)

From Stdlib Require Import ZArith QArith Qround Qminmax Qabs Reals Psatz.
From Stdlib Require Import List Bool String Sorted SpecFloat.
From Equations Require Import Equations.
Import ListNotations.

Set Implicit Arguments.

Local Open Scope Q_scope.

(** ** Exceptions and the error monad *)

Inductive exn : Type :=
| TypeError
| ZeroDivisionError
| ValueError
| IndexError
| AssertionError
| NoPositiveAreaError
| Exception (msg : string).

Inductive result (A : Type) : Type :=
| Ok (a : A)
| Err (e : exn).

Arguments Ok {A} a.
Arguments Err {A} e.

Definition bind {A B : Type} (m : result A) (k : A -> result B) : result B :=
  match m with
  | Ok a => k a
  | Err e => Err e
  end.

Notation "x <- m ;; k" := (bind m (fun x => k))
  (at level 61, m at next level, right associativity).

Definition assert (b : bool) : result unit :=
  if b then Ok tt else Err AssertionError.

Fixpoint mapM {A B : Type} (f : A -> result B) (l : list A) : result (list B) :=
  match l with
  | [] => Ok []
  | a :: l' => b <- f a ;; bs <- mapM f l' ;; Ok (b :: bs)
  end.

(** ** Numbers *)

(** Python's [round] on a float: to the nearest integer, ties to even.
    It is taken here on the exact value of the expression. Where the
    code rounds a float64 product such as [h * scale], the two agree
    unless the exact product lies within a rounding error of a half: the
    results on sides are therefore stated up to one pixel. *)
Definition py_round (x : Q) : Z :=
  let f := Qfloor x in
  let r := x - inject_Z f in
  match Qcompare r (1 # 2) with
  | Lt => f
  | Gt => (f + 1)%Z
  | Eq => if Z.even f then f else (f + 1)%Z
  end.

(** Python's true division [a / b] of two numbers. *)
Definition py_div (a b : Q) : result Q :=
  if Qeq_bool b 0 then Err ZeroDivisionError else Ok (a / b).

(** Two's-complement wrap-around of a 32-bit signed integer. *)
Definition wrap32 (z : Z) : Z :=
  ((z + 2 ^ 31) mod 2 ^ 32 - 2 ^ 31)%Z.

Definition fits_int32 (z : Z) : Prop :=
  (- 2 ^ 31 <= z < 2 ^ 31)%Z.

(** Python's [int(x)] on a float: truncation toward zero. *)
Definition trunc (x : Q) : Z := Z.quot (Qnum x) (Zpos (Qden x)).

(** Python's slice bound: a negative index counts from the end, and the
    result is cut to [[0, n]]. *)
Definition slice_bound (n i : Z) : Z :=
  let i' := (if i <? 0 then i + n else i)%Z in
  Z.max 0 (Z.min n i').

(** [len(t[a:b])] for a tensor axis of length [n]. *)
Definition slice_len (n a b : Z) : Z :=
  Z.max 0 (slice_bound n b - slice_bound n a).

(** ** float32

    A [torch.float32] entry is a binary32 float: 24 bits of precision,
    [emax = 128]. The operations round to nearest, ties to even. *)

Definition f32 : Type := spec_float.

(** The float32 nearest to [m * 2^e]. *)
Definition f32_dyadic (m e : Z) : f32 := binary_normalize 24 128 m e false.

(** [torch.tensor(z, dtype=torch.float32)] on an integer. *)
Definition f32_of_Z (z : Z) : f32 := f32_dyadic z 0.

Definition f32_sub : f32 -> f32 -> f32 := SFsub 24 128.
Definition f32_mul : f32 -> f32 -> f32 := SFmul 24 128.
Definition f32_div : f32 -> f32 -> f32 := SFdiv 24 128.

(** [a <= b] on floats: false as soon as one of them is a NaN. *)
Definition f32_leb : f32 -> f32 -> bool := SFleb.

(** The integer part of a finite float, rounded toward zero. *)
Definition f32_trunc (x : f32) : option Z :=
  match x with
  | S754_zero _ => Some 0%Z
  | S754_finite s m e =>
      let a := (if 0 <=? e then Zpos m * 2 ^ e else Zpos m / 2 ^ (- e))%Z in
      Some (if s then - a else a)%Z
  | S754_infinity _ | S754_nan => None
  end.

(** The conversion of a float to a signed integer of [bits] bits:
    truncation toward zero; a value outside the range, an infinity and a
    NaN give the least integer (the x86 conversion torch compiles to). *)
Definition f32_to_int (bits : Z) (x : f32) : Z :=
  match f32_trunc x with
  | Some z =>
      if ((- 2 ^ (bits - 1) <=? z) && (z <? 2 ^ (bits - 1)))%Z then z
      else (- 2 ^ (bits - 1))%Z
  | None => (- 2 ^ (bits - 1))%Z
  end.

(** [tensor.to(torch.int32)] and [tensor.to(torch.long)] on a float32
    entry. *)
Definition f32_to_int32 : f32 -> Z := f32_to_int 32.
Definition f32_to_int64 : f32 -> Z := f32_to_int 64.

(** [tensor.floor()] on a float32 entry. *)
Definition f32_floor (x : f32) : f32 :=
  match x with
  | S754_finite s m e =>
      if (0 <=? e)%Z then x
      else
        let q := (Zpos m / 2 ^ (- e))%Z in
        let r := (Zpos m mod 2 ^ (- e))%Z in
        if s then f32_of_Z (if (r =? 0)%Z then - q else - q - 1)
        else match q with
             | Z0 => S754_zero false
             | _ => f32_of_Z q
             end
  | _ => x
  end.

(** ** Boxes

    A box is a row [(y1, x1, y2, x2)]. *)

Record box (A : Type) : Type := Box { y1 : A; x1 : A; y2 : A; x2 : A }.

Arguments Box {A} y1 x1 y2 x2.

Definition box_map {A B : Type} (f : A -> B) (b : box A) : box B :=
  Box (f (y1 b)) (f (x1 b)) (f (y2 b)) (f (x2 b)).

Definition box_eq (a b : box Q) : Prop :=
  y1 a == y1 b /\ x1 a == x1 b /\ y2 a == y2 b /\ x2 a == x2 b.

(** ** Coordinate-domain conversion *)

(** [to_img_domain(boxes, window, image_shape)]: the scales are
    [image_shape[0] / (window[2] - window[0])] and
    [image_shape[1] / (window[3] - window[1])], the shift is [window[:2]];
    every row becomes [(row - shifts) * scales]. This is the formula in
    exact arithmetic; its evaluation in float32, which decides the pixel
    boxes of the unmolder, is [to_img_domain_f32]. *)
Definition to_img_domain (boxes : list (box Q)) (window : box Q)
    (image_shape : Q * Q) : list (box Q) :=
  let h_scale := fst image_shape / (y2 window - y1 window) in
  let w_scale := snd image_shape / (x2 window - x1 window) in
  let shift := (y1 window, x1 window) in
  let scales := Box h_scale w_scale h_scale w_scale in
  let shifts := Box (fst shift) (snd shift) (fst shift) (snd shift) in
  map (fun b =>
         Box ((y1 b - y1 shifts) * y1 scales)
             ((x1 b - x1 shifts) * x1 scales)
             ((y2 b - y2 shifts) * y2 scales)
             ((x2 b - x2 shifts) * x2 scales)) boxes.

(** ** Box parametrization (center / size deltas)

    The exponential and the logarithm put these two functions over the
    reals; their evaluation in float32, operation by operation, is given
    after them. A row of deltas is [(dy, dx, dh, dw)]. *)

Record delta : Type := Delta { dy : R; dx : R; dh : R; dw : R }.

(** zip of two tensors of equal leading dimension, row by row *)
Fixpoint zip_with {A B C : Type} (f : A -> B -> C) (l : list A) (m : list B)
  : list C :=
  match l, m with
  | a :: l', b :: m' => f a b :: zip_with f l' m'
  | _, _ => []
  end.

(** One row of [apply_box_deltas]. *)
Definition apply_box_deltas_row (b : box R) (d : delta) : box R :=
  (* Convert to y, x, h, w *)
  let height := (y2 b - y1 b)%R in
  let width := (x2 b - x1 b)%R in
  let center_y := (y1 b + / 2 * height)%R in
  let center_x := (x1 b + / 2 * width)%R in
  (* Apply deltas *)
  let center_y := (center_y + dy d * height)%R in
  let center_x := (center_x + dx d * width)%R in
  let height := (height * exp (dh d))%R in
  let width := (width * exp (dw d))%R in
  (* Convert back to y1, x1, y2, x2 *)
  let y1' := (center_y - / 2 * height)%R in
  let x1' := (center_x - / 2 * width)%R in
  let y2' := (y1' + height)%R in
  let x2' := (x1' + width)%R in
  Box y1' x1' y2' x2'.

(** [apply_box_deltas(boxes, deltas)] on [batch_size, N, 4] tensors. *)
Definition apply_box_deltas (boxes : list (list (box R)))
    (deltas : list (list delta)) : list (list (box R)) :=
  zip_with (zip_with apply_box_deltas_row) boxes deltas.

(** One row of [box_refinement]. *)
Definition box_refinement_row (b gt_box : box R) : delta :=
  let height := (y2 b - y1 b)%R in
  let width := (x2 b - x1 b)%R in
  let center_y := (y1 b + / 2 * height)%R in
  let center_x := (x1 b + / 2 * width)%R in
  let gt_height := (y2 gt_box - y1 gt_box)%R in
  let gt_width := (x2 gt_box - x1 gt_box)%R in
  let gt_center_y := (y1 gt_box + / 2 * gt_height)%R in
  let gt_center_x := (x1 gt_box + / 2 * gt_width)%R in
  Delta ((gt_center_y - center_y) / height)
        ((gt_center_x - center_x) / width)
        (ln (gt_height / height))
        (ln (gt_width / width)).

(** [box_refinement(box, gt_box)] on [N, 4] tensors. *)
Definition box_refinement (b gt_box : list (box R)) : list delta :=
  zip_with box_refinement_row b gt_box.

(** *** The parametrization in float32

    The two functions as torch evaluates them on float32 tensors. The
    implementations of [torch.exp] and [torch.log] are not followed:
    [exp32] and [log32] stand for them. *)



Section Float32Deltas.
Variables exp32 log32 : f32 -> f32.




End Float32Deltas.

(** ** Overlap *)

Definition box_area (b : box Q) : Q := (y2 b - y1 b) * (x2 b - x1 b).

(** The intersection area of two boxes, as [compute_iou] computes it. *)
Definition intersection (b o : box Q) : Q :=
  let iy1 := Qmax (y1 b) (y1 o) in
  let iy2 := Qmin (y2 b) (y2 o) in
  let ix1 := Qmax (x1 b) (x1 o) in
  let ix2 := Qmin (x2 b) (x2 o) in
  Qmax (ix2 - ix1) 0 * Qmax (iy2 - iy1) 0.

(** [compute_iou(box, boxes, box_area, boxes_area)]: one IoU per row of
    [boxes]; the areas come from the caller. *)
Definition compute_iou (b : box Q) (boxes : list (box Q)) (b_area : Q)
    (boxes_area : list Q) : list Q :=
  zip_with
    (fun o o_area =>
       let union := b_area + o_area - intersection b o in
       intersection b o / union)
    boxes boxes_area.

(** [compute_overlaps(boxes1, boxes2)]: the matrix is filled column by
    column, column [i] holding the IoU of [boxes2[i]] with every row of
    [boxes1]; it is kept here as the list of its columns. *)
Definition compute_overlaps (boxes1 boxes2 : list (box Q)) : list (list Q) :=
  let area1 := map box_area boxes1 in
  let area2 := map box_area boxes2 in
  zip_with (fun box2 a2 => compute_iou box2 boxes1 a2 area1) boxes2 area2.

(** Two boxes that do not overlap: one ends before the other begins, on
    one of the two axes. *)
Definition disjoint (a b : box Q) : Prop :=
  y2 a <= y1 b \/ y2 b <= y1 a \/ x2 a <= x1 b \/ x2 b <= x1 a.

(** ** Bounding boxes of instance masks *)

(** A mask array [height, width, num_instances]; [pixel m y x i] tells
    whether pixel [(y, x)] of instance [i] is set. *)
Record mask_array : Type := MaskArray {
  mask_height : nat;
  mask_width : nat;
  num_instances : nat;
  pixel : nat -> nat -> nat -> bool
}.

Fixpoint nonzero_from (i : nat) (l : list bool) : list nat :=
  match l with
  | [] => []
  | b :: l' => if b then i :: nonzero_from (S i) l' else nonzero_from (S i) l'
  end.

(** [np.where(v)[0]] and [torch.nonzero(v)[:, 0]]: the indices of the true
    entries of a vector, increasing. *)
Definition nonzero (l : list bool) : list nat := nonzero_from 0 l.

(** [np.any(m, axis=0)]: one flag per column. *)
Definition any_axis0 (m : mask_array) (i : nat) : list bool :=
  map (fun x => existsb (fun y => pixel m y x i) (seq 0 (mask_height m)))
      (seq 0 (mask_width m)).

(** [np.any(m, axis=1)]: one flag per row. *)
Definition any_axis1 (m : mask_array) (i : nat) : list bool :=
  map (fun y => existsb (fun x => pixel m y x i) (seq 0 (mask_width m)))
      (seq 0 (mask_height m)).

(** [v[[0, -1]]]: the first and the last entry of a vector. *)
Definition first_last (l : list nat) : result (nat * nat) :=
  match l with
  | [] => Err IndexError
  | a :: _ => Ok (a, last l a)
  end.

Definition extract_bbox (m : mask_array) (i : nat) : result (box Z) :=
  (* Bounding box. *)
  let horizontal_indicies := nonzero (any_axis0 m i) in
  let vertical_indicies := nonzero (any_axis1 m i) in
  if negb (List.length horizontal_indicies =? 0)%nat then
    xs <- first_last horizontal_indicies ;;
    ys <- first_last vertical_indicies ;;
    (* x2 and y2 should not be part of the box. Increment by 1. *)
    let bx2 := (Z.of_nat (snd xs) + 1)%Z in
    let by2 := (Z.of_nat (snd ys) + 1)%Z in
    Ok (box_map wrap32 (Box (Z.of_nat (fst ys)) (Z.of_nat (fst xs)) by2 bx2))
  else
    (* No mask for this instance. Set bbox to zeros *)
    Ok (box_map wrap32 (Box 0 0 0 0)%Z).

(** [extract_bboxes(mask)]: one [int32] row per instance. *)
Definition extract_bboxes (m : mask_array) : result (list (box Z)) :=
  mapM (extract_bbox m) (seq 0 (num_instances m)).

(** Pixel [(y, x)] of instance [i] lies in the array and is set. *)
Definition set_pixel (m : mask_array) (i y x : nat) : Prop :=
  (y < mask_height m)%nat /\ (x < mask_width m)%nat /\ pixel m y x i = true.

(** [b] is the tight bounding box of instance [i], upper bounds
    exclusive: every set pixel lies in [[y1, y2) x [x1, x2)] and each of
    the four sides touches a set pixel. *)
Definition tight_box (m : mask_array) (i : nat) (b : box Z) : Prop :=
  (forall y x, set_pixel m i y x ->
               (y1 b <= Z.of_nat y < y2 b)%Z /\ (x1 b <= Z.of_nat x < x2 b)%Z)
  /\ (exists y x, set_pixel m i y x /\ Z.of_nat y = y1 b)
  /\ (exists y x, set_pixel m i y x /\ Z.of_nat y = (y2 b - 1)%Z)
  /\ (exists y x, set_pixel m i y x /\ Z.of_nat x = x1 b)
  /\ (exists y x, set_pixel m i y x /\ Z.of_nat x = (x2 b - 1)%Z).

(** ** Image meta codec *)

(** A numpy array of one or two dimensions; the two-dimensional one
    carries its number of columns, which an array without rows still
    has. *)
Inductive ndarray (A : Type) : Type :=
| Arr1 (v : list A)
| Arr2 (ncols : nat) (rows : list (list A)).

Arguments Arr1 {A} v.
Arguments Arr2 {A} ncols rows.

Section MetaCodec.
Variable A : Type.

(** [compose_image_meta(image_id, image_shape, window, active_class_ids)]:
    the concatenation of the four parts as a one-dimensional array. *)
Definition compose_image_meta (image_id : A) (image_shape window
    active_class_ids : list A) : ndarray A :=
  Arr1 ([image_id] ++ image_shape ++ window ++ active_class_ids).

(** [np.stack] of one-dimensional arrays: they must be at least one and
    of one length. *)
Definition np_stack (arrays : list (ndarray A)) : result (ndarray A) :=
  vs <- mapM (fun a => match a with
                       | Arr1 v => Ok v
                       | Arr2 _ _ => Err ValueError
                       end) arrays ;;
  match vs with
  | [] => Err ValueError
  | v :: _ =>
      if forallb (fun u => (List.length u =? List.length v)%nat) vs
      then Ok (Arr2 (List.length v) vs)
      else Err ValueError
  end.

(** [meta[lo:hi]] on one row. *)
Definition slice (lo hi : nat) (row : list A) : list A :=
  firstn (hi - lo) (skipn lo row).

(** [parse_image_meta(meta)]: indexes the second axis, so [meta] is a
    batch of records. *)
Definition parse_image_meta (meta : ndarray A)
  : result (list A * list (list A) * list (list A) * list (list A)) :=
  match meta with
  | Arr1 _ => Err IndexError
  | Arr2 ncols rows =>
      if (ncols =? 0)%nat then Err IndexError else
      image_id <- mapM (fun row => match nth_error row 0 with
                                   | Some a => Ok a
                                   | None => Err IndexError
                                   end) rows ;;
      let image_shape := map (slice 1 4) rows in
      let window := map (slice 4 8) rows in
      let active_class_ids := map (skipn 8) rows in
      Ok (image_id, image_shape, window, active_class_ids)
  end.
(** The fields of one image: id, shape, window, active class ids. *)
Definition meta_record (i : A * list A * list A * list A) : ndarray A :=
  let '(image_id, image_shape, window, active_class_ids) := i in
  compose_image_meta image_id image_shape window active_class_ids.

(** Valid fields: a shape of three entries, a window of four, one flag per
    class. *)
Definition valid_meta_input (num_classes : nat)
    (i : A * list A * list A * list A) : Prop :=
  let '(_, image_shape, window, active_class_ids) := i in
  List.length image_shape = 3%nat /\ List.length window = 4%nat
  /\ List.length active_class_ids = num_classes.

(** The layout [id] + shape(3) + window(4) + active class ids. *)
Definition flat (i : A * list A * list A * list A) : list A :=
  let '(image_id, image_shape, window, active_class_ids) := i in
  [image_id] ++ image_shape ++ window ++ active_class_ids.
End MetaCodec.

(** ** Resizer

    An image is followed through [resize_image] by its shape
    [(height, width)]: [skimage.transform.resize] is taken to return an
    array of the shape it is asked for, and [np.pad] adds the paddings to
    the two sides, refusing a negative one. *)

Record resized : Type := Resized {
  r_image : Z * Z;                      (* shape of the returned image *)
  r_window : box Z;
  r_scale : Q;
  r_padding : (Z * Z) * (Z * Z);        (* (top, bottom), (left, right) *)
  r_crop : option (Z * Z * Z * Z)
}.

(** Python's truth value of an optional number: [None] and zero are
    false. *)
Definition truthy_Z (o : option Z) : bool :=
  match o with
  | Some z => negb (z =? 0)%Z
  | None => false
  end.

Definition truthy_Q (o : option Q) : bool :=
  match o with
  | Some q => negb (Qeq_bool q 0)
  | None => false
  end.

(** Arithmetic on [None] raises [TypeError]. *)
Definition number {A : Type} (o : option A) : result A :=
  match o with
  | Some a => Ok a
  | None => Err TypeError
  end.

Definition skimage_resize (image : Z * Z) (output_shape : Z * Z) : Z * Z :=
  output_shape.

Definition np_pad (image : Z * Z) (padding : (Z * Z) * (Z * Z))
  : result (Z * Z) :=
  let '((top_pad, bottom_pad), (left_pad, right_pad)) := padding in
  if ((top_pad <? 0) || (bottom_pad <? 0)
      || (left_pad <? 0) || (right_pad <? 0))%Z
  then Err ValueError
  else Ok (fst image + top_pad + bottom_pad,
           snd image + left_pad + right_pad)%Z.

Section Resizer.
(** The draws of [random.randint], as a function of the bounds. *)
Variable randint : Z -> Z -> Z.

Definition random_randint (a b : Z) : result Z :=
  if (b <? a)%Z then Err ValueError else Ok (randint a b).

(** [resize_image(image, min_dim, max_dim, min_scale, mode)]. *)
Definition resize_image (image : Z * Z) (min_dim max_dim : option Z)
    (min_scale : option Q) (mode : string) : result resized :=
  (* Default window (y1, x1, y2, x2) and default scale == 1. *)
  let '(h, w) := image in
  let window := Box 0%Z 0%Z h w in
  let scale := 1 in
  let padding := ((0, 0), (0, 0))%Z in
  let crop := None in
  if (mode =? "none")%string then
    Ok (Resized image window scale padding crop)
  else
  (* Scale? *)
  scale <- (if truthy_Z min_dim && negb (mode =? "pad64")%string then
              (* Scale up but not down *)
              md <- number min_dim ;;
              q <- py_div (inject_Z md) (inject_Z (Z.min h w)) ;;
              Ok (Qmax 1 q)
            else Ok scale) ;;
  scale <- (if truthy_Q min_scale then
              ms <- number min_scale ;; Ok (Qmax scale ms)
            else Ok scale) ;;
  scale <- (if (mode =? "pad64")%string then
              md <- number min_dim ;;
              py_div (inject_Z md) (inject_Z (Z.max h w))
            else Ok scale) ;;
  (* Does it exceed max dim? *)
  scale <- (if truthy_Z max_dim && (mode =? "square")%string then
              xd <- number max_dim ;;
              let image_max := Z.max h w in
              if (py_round (inject_Z image_max * scale) >? xd)%Z
              then py_div (inject_Z xd) (inject_Z image_max)
              else Ok scale
            else Ok scale) ;;
  (* Resize image using bilinear interpolation *)
  let image :=
    if negb (Qeq_bool scale 1) then
      skimage_resize image (py_round (inject_Z h * scale),
                            py_round (inject_Z w * scale))
    else image in
  (* Need padding or cropping? *)
  let '(h, w) := image in
  if (mode =? "square")%string then
    (* Get new height and width *)
    xd <- number max_dim ;;
    let top_pad := ((xd - h) / 2)%Z in
    let bottom_pad := (xd - h - top_pad)%Z in
    let left_pad := ((xd - w) / 2)%Z in
    let right_pad := (xd - w - left_pad)%Z in
    let padding := ((top_pad, bottom_pad), (left_pad, right_pad)) in
    image <- np_pad image padding ;;
    let window := Box top_pad left_pad (h + top_pad)%Z (w + left_pad)%Z in
    Ok (Resized image window scale padding crop)
  else if (mode =? "pad64")%string then
    (* Both sides must be divisible by 64 *)
    md <- number min_dim ;;
    _ <- assert (md mod 64 =? 0)%Z ;;
    (* Height *)
    let '(top_pad, bottom_pad) :=
      if negb (md =? h)%Z then
        let max_h := md in
        let top_pad := ((max_h - h) / 2)%Z in
        (top_pad, (max_h - h - top_pad)%Z)
      else (0, 0)%Z in
    (* Width *)
    widths <- (match max_dim with
               | Some xd =>
                   if negb (xd =? w)%Z then
                     let max_w := xd in
                     let left_pad := ((max_w - w) / 2)%Z in
                     Ok (left_pad, (max_w - w - left_pad)%Z)
                   else Ok (0, 0)%Z
               | None => Err TypeError
               end) ;;
    let '(left_pad, right_pad) := widths in
    let padding := ((top_pad, bottom_pad), (left_pad, right_pad)) in
    image <- np_pad image padding ;;
    let window := Box top_pad left_pad (h + top_pad)%Z (w + left_pad)%Z in
    Ok (Resized image window scale padding crop)
  else if (mode =? "crop")%string then
    (* Pick a random crop; the slice [image[y:y + min_dim, x:x + min_dim]]
       ends where the image ends *)
    md <- number min_dim ;;
    y <- random_randint 0 (h - md) ;;
    x <- random_randint 0 (w - md) ;;
    let crop := Some (y, x, md, md) in
    let image := (Z.min md (h - y), Z.min md (w - x)) in
    let window := Box 0%Z 0%Z md md in
    Ok (Resized image window scale padding crop)
  else
    Err (Exception (("Mode " ++ mode) ++ " not supported")%string).
End Resizer.

(** ** Unmolder *)

(** [t[i]] with an index inside [range(len(t))]. *)
Definition item {A : Type} (t : list A) (i : nat) : result A :=
  match nth_error t i with
  | Some a => Ok a
  | None => Err IndexError
  end.

(** [t[ix]] with an index tensor [ix]. *)
Definition index_select {A : Type} (t : list A) (ix : list nat)
  : result (list A) :=
  mapM (item t) ix.

(** [t[k]] with a Python integer, a negative one counting from the end. *)
Definition py_index {A : Type} (t : list A) (k : Z) : result A :=
  let n := Z.of_nat (List.length t) in
  let k' := (if k <? 0 then k + n else k)%Z in
  if (k' <? 0)%Z then Err IndexError else
  match nth_error t (Z.to_nat k') with
  | Some a => Ok a
  | None => Err IndexError
  end.

(** A row [(y1, x1, y2, x2, class_id, score)] of the float32 detections
    tensor. *)
Record detection : Type := Detection {
  d_box : box f32;
  d_class_id : f32;
  d_score : f32
}.

(** [to_img_domain(boxes, window, image_shape)] as torch evaluates it:
    [image_shape] and [window] are made float32 tensors, the scales are
    float32 quotients, and every row is [(row - shifts) * scales] in
    float32. A window of height or width 0 gives infinite or NaN
    entries, not an exception. *)
Definition to_img_domain_f32 (boxes : list (box f32)) (window : box Z)
    (image_shape : Z * Z) : list (box f32) :=
  let image_shape := (f32_of_Z (fst image_shape), f32_of_Z (snd image_shape)) in
  let window := box_map f32_of_Z window in
  (* Compute scale and shift to translate coordinates to image domain. *)
  let h_scale := f32_div (fst image_shape) (f32_sub (y2 window) (y1 window)) in
  let w_scale := f32_div (snd image_shape) (f32_sub (x2 window) (x1 window)) in
  let shift := (y1 window, x1 window) in
  let scales := Box h_scale w_scale h_scale w_scale in
  let shifts := Box (fst shift) (snd shift) (fst shift) (snd shift) in
  (* Translate bounding boxes to image domain *)
  map (fun b =>
         Box (f32_mul (f32_sub (y1 b) (y1 shifts)) (y1 scales))
             (f32_mul (f32_sub (x1 b) (x1 shifts)) (x1 scales))
             (f32_mul (f32_sub (y2 b) (y2 shifts)) (y2 scales))
             (f32_mul (f32_sub (x2 b) (x2 shifts)) (x2 scales))) boxes.

(** An entry of the [size] that [F.upsample] is given: a 0-dim integer
    tensor, which torch reads as a number, or a 0-dim float tensor. *)
Inductive size_entry : Type :=
| IntSize (n : Z)
| FloatSize (x : f32).

(** [F.upsample(input, size=size, mode='bilinear', align_corners=True)]
    on the shape [(1, 1, h, w)] of its result: the entries of [size] must
    be integers, a float tensor is refused with [TypeError]; a size that
    is not positive is refused too (torch's [RuntimeError]). *)
Definition f_upsample (size : size_entry * size_entry) : result (Z * Z) :=
  match size with
  | (IntSize h, IntSize w) =>
      if ((h <=? 0) || (w <=? 0))%Z then Err (Exception "RuntimeError")
      else Ok (h, w)
  | _ => Err TypeError
  end.

(** An axis of length [n] can be assigned to a slice of length [k]:
    equal lengths, or a single entry that is repeated. *)
Definition assignable (n k : Z) : bool := ((n =? k) || (n =? 1))%Z.

Section ZeroArea.
Variables Mask Score : Type.

(** [remove_zero_area(boxes, class_ids, masks, scores)] on the [int32]
    boxes that [unmold_boxes] hands over. *)
Definition remove_zero_area (boxes : list (box Z)) (class_ids : list Z)
    (masks : list Mask) (scores : option (list Score))
  : result (list (box Z) * list Z * list Mask * option (list Score)) :=
  let dx := map (fun b => wrap32 (y2 b - y1 b)) boxes in
  let dy := map (fun b => wrap32 (x2 b - x1 b)) boxes in
  let too_small := zip_with (fun a b => (wrap32 (a * b) <=? 0)%Z) dx dy in
  let too_short := map (fun a => (a <=? 2)%Z) dx in
  let too_thin := map (fun a => (a <=? 2)%Z) dy in
  let skip :=
    zip_with Nat.add
      (zip_with Nat.add (map Nat.b2n too_small) (map Nat.b2n too_short))
      (map Nat.b2n too_thin) in
  let positive_area := nonzero (map (fun s => (s =? 0)%nat) skip) in
  if (List.length positive_area =? 0)%nat then Err NoPositiveAreaError else
  let keep_ix := positive_area in
  if negb (List.length keep_ix =? List.length boxes)%nat then
    boxes' <- index_select boxes keep_ix ;;
    class_ids' <- index_select class_ids keep_ix ;;
    scores' <- (match scores with
                | Some sc => sc' <- index_select sc keep_ix ;; Ok (Some sc')
                | None => Ok None
                end) ;;
    masks' <- index_select masks keep_ix ;;
    Ok (boxes', class_ids', masks', scores')
  else Ok (boxes, class_ids, masks, scores).
End ZeroArea.

Section Unmolder.
(** The small mask of the network and the full-size mask. The pixels of
    the full mask (the bilinear upsampling, the threshold and the paste
    into the zeros) are not followed: [pasted] stands for them. *)
Variables Mask FullMask : Type.
Variable pasted : Mask -> box Z -> Z * Z -> FullMask.

(** [unmold_mask(mask, bbox, image_shape)], [bbox] a row of [int32]
    entries: the mask is upsampled to the size of the box and assigned to
    the slice [full_mask[y1:y2, x1:x2]], which has the size of the box
    only where the box lies in the image. *)
Definition unmold_mask (mask : Mask) (bbox : box Z) (image_shape : Z * Z)
  : result FullMask :=
  let shape := (wrap32 (y2 bbox - y1 bbox), wrap32 (x2 bbox - x1 bbox)) in
  upsampled <- f_upsample (IntSize (fst shape), IntSize (snd shape)) ;;
  (* Put the mask in the right location. *)
  _ <- (if ((fst image_shape <? 0) || (snd image_shape <? 0))%Z
        then Err (Exception "RuntimeError") else Ok tt) ;;
  let target := (slice_len (fst image_shape) (y1 bbox) (y2 bbox),
                 slice_len (snd image_shape) (x1 bbox) (x2 bbox)) in
  if assignable (fst upsampled) (fst target)
     && assignable (snd upsampled) (snd target)
  then Ok (pasted mask bbox image_shape)
  else Err (Exception "RuntimeError").

(** [unmold_masks(masks, boxes, image_shape)]. *)
Definition unmold_masks (masks : list Mask) (boxes : list (box Z))
    (image_shape : Z * Z) : result (list FullMask) :=
  let N := List.length masks in
  mapM (fun i =>
          m <- item masks i ;;
          b <- item boxes i ;;
          unmold_mask m b image_shape) (seq 0 N).

(** [unmold_boxes(boxes, class_ids, masks, image_shape, window, scores)];
    of [image_shape] only the height and the width are read. *)
Definition unmold_boxes (boxes : list (box f32)) (class_ids : list Z)
    (masks : list Mask) (image_shape : Z * Z) (window : box Z)
    (scores : option (list f32))
  : result (list (box Z) * list Z * option (list f32) * list FullMask) :=
  let image_shape2 := (fst image_shape, snd image_shape) in
  let boxes :=
    map (box_map f32_to_int32)
        (to_img_domain_f32 boxes window image_shape) in
  r <- remove_zero_area boxes class_ids masks scores ;;
  let '(boxes, class_ids, masks, scores) := r in
  full_masks <- unmold_masks masks boxes image_shape2 ;;
  Ok (boxes, class_ids, scores, full_masks).

(** [unmold_detections(detections, mrcnn_mask, image_shape, window)];
    [mrcnn_mask] holds, per detection, one mask per class. The second
    [class_ids.to(torch.long)] of [unmold_boxes] changes nothing and is
    left out. *)
Definition unmold_detections (detections : list detection)
    (mrcnn_mask : list (list Mask)) (image_shape : Z * Z) (window : box Z)
  : result (list (box Z) * list Z * option (list f32) * list FullMask) :=
  let N := List.length detections in
  (* Extract boxes, class_ids, scores, and class-specific masks *)
  let boxes := map d_box detections in
  let class_ids := map (fun d => f32_to_int64 (d_class_id d)) detections in
  let scores := map d_score detections in
  masks <- mapM (fun i =>
                   per_class <- item mrcnn_mask i ;;
                   c <- item class_ids i ;;
                   py_index per_class c) (seq 0 N) ;;
  unmold_boxes boxes class_ids masks image_shape window (Some scores).
End Unmolder.






(** The entries of [l] whose flag is set, in order. *)
Definition compress {A : Type} (flags : list bool) (l : list A) : list A :=
  map snd (filter fst (combine flags l)).

(** ** Suppression (NMS) *)

(** A row of the [dets] tensor: five columns, the last one the score. *)
Record det_row : Type := Det { c0 : Q; c1 : Q; c2 : Q; c3 : Q; c4 : Q }.

Definition zero_row : det_row := Det 0 0 0 0 0.

(** Modelled from the spec: the IoU of two rows in the kernels of the
    extension [nms._ext], which is not part of the sources. The
    intersection is the one of 4.2, on the inclusive pixel extents that the
    area convention of 4.3 fixes ([area = (x2-x1+1)*(y2-y1+1)]); the first
    four columns of a row are the box. *)
Definition kernel_iou (a b : det_row) (area_a area_b : Q) : Q :=
  let w := Qmax 0 (Qmin (c2 a) (c2 b) - Qmax (c0 a) (c0 b) + 1) in
  let h := Qmax 0 (Qmin (c3 a) (c3 b) - Qmax (c1 a) (c1 b) + 1) in
  let inter := w * h in
  inter / (area_a + area_b - inter).

Definition Qlt_bool (a b : Q) : bool := negb (Qle_bool b a).

Definition kernel_area (a : det_row) : Q :=
  (c2 a - c0 a + 1) * (c3 a - c1 a + 1).

(** Modelled from the spec: the greedy loop of 4.3 on the boxes still
    remaining, in the order given: take the first, keep it, remove the
    remaining boxes that it suppresses, repeat until none remains. *)
Equations? greedy_nms (suppresses : nat -> nat -> bool) (remaining : list nat)
  : list nat by wf (List.length remaining) lt :=
  greedy_nms suppresses [] := [];
  greedy_nms suppresses (i :: rest) :=
    i :: greedy_nms suppresses (filter (fun j => negb (suppresses i j)) rest).
Proof.
  clear greedy_nms.
  induction rest as [|j rest IH]; simpl; [lia|].
  destruct (negb (suppresses i j)); simpl; lia.
Qed.

(** Modelled from the spec: [nms.cpu_nms(keep, num_out, dets, order, areas,
    thresh)], the sequential strategy: greedy suppression over the indices
    of [order], a box being removed when its IoU with the kept one exceeds
    the threshold; the result is [keep[:num_out]]. *)
Definition cpu_nms (dets : list det_row) (order : list nat) (areas : list Q)
    (thresh : Q) : list nat :=
  greedy_nms
    (fun i j =>
       Qlt_bool thresh
         (kernel_iou (nth i dets zero_row) (nth j dets zero_row)
                     (nth i areas 0) (nth j areas 0)))
    order.

(** Modelled from the spec: [nms.gpu_nms(keep, num_out, dets, thresh)], the
    accelerated strategy: the rows are in [(x1, y1, x2, y2, score)] layout
    and are processed in the order in which they are stored, which is to
    be the score order; the indices it returns are row numbers of the
    tensor it was given. *)
Definition gpu_nms (dets : list det_row) (thresh : Q) : list nat :=
  greedy_nms
    (fun i j =>
       let a := nth i dets zero_row in
       let b := nth j dets zero_row in
       Qlt_bool thresh (kernel_iou a b (kernel_area a) (kernel_area b)))
    (seq 0 (List.length dets)).

Fixpoint insert_desc (score : nat -> Q) (i : nat) (l : list nat) : list nat :=
  match l with
  | [] => [i]
  | j :: l' => if Qle_bool (score j) (score i) then i :: l
               else j :: insert_desc score i l'
  end.

(** [scores.sort(0, descending=True)[1]]: the indices by decreasing
    score; equal scores keep their order. *)
Definition argsort_desc (scores : list Q) : list nat :=
  fold_right (insert_desc (fun i => nth i scores 0)) []
             (seq 0 (List.length scores)).

(** [dets[:, [1, 0, 3, 2, 4]]] on one row. *)
Definition swap_axes (d : det_row) : det_row :=
  Det (c1 d) (c0 d) (c3 d) (c2 d) (c4 d).

(** [pth_nms(dets, thresh)]; [is_cuda] is [dets.is_cuda]. The rows of
    [dets] are [(y1, x1, y2, x2, score)]. *)
Definition pth_nms (is_cuda : bool) (dets : list det_row) (thresh : Q)
  : result (list nat) :=
  let x1 := map c1 dets in
  let y1 := map c0 dets in
  let x2 := map c3 dets in
  let y2 := map c2 dets in
  let scores := map c4 dets in
  let areas :=
    zip_with Qmult (zip_with (fun b a => b - a + 1) x2 x1)
                   (zip_with (fun b a => b - a + 1) y2 y1) in
  let order := argsort_desc scores in
  if negb is_cuda then
    Ok (cpu_nms dets order areas thresh)
  else
    let dets_temp := map swap_axes dets in
    dets' <- index_select dets order ;;
    let keep := gpu_nms dets_temp thresh in
    index_select order keep.

(** Area of a row of [dets] as [pth_nms] computes it. *)
Definition det_area (d : det_row) : Q :=
  (c3 d - c1 d + 1) * (c2 d - c0 d + 1).

(** IoU of rows [i] and [j] of [dets], on inclusive extents. *)
Definition det_iou (dets : list det_row) (i j : nat) : Q :=
  let a := nth i dets zero_row in
  let b := nth j dets zero_row in
  kernel_iou a b (det_area a) (det_area b).

(** The accelerated strategy in the words of 4.3 of the specification:
    the boxes sorted by score and in [(x1, y1, x2, y2)] layout go to the
    kernel, and the indices it keeps are mapped back through the sort
    permutation. It is compared with [pth_nms] below. *)
Definition accelerated_nms_spec (dets : list det_row) (thresh : Q)
  : result (list nat) :=
  let order := argsort_desc (map c4 dets) in
  sorted <- index_select dets order ;;
  let keep := gpu_nms (map swap_axes sorted) thresh in
  index_select order keep.

(** ** Clipping *)

(** [tensor.clamp(min, max)] on one entry: first the lower bound, then
    the upper one. *)
Definition clamp (x lo hi : Q) : Q := Qmin (Qmax x lo) hi.

(** [clip_to_window(window, boxes)] on an [N, 4] tensor: the two
    [y] columns and the two [x] columns are clamped and put back. *)
Definition clip_to_window (window : box Q) (boxes : list (box Q))
  : list (box Q) :=
  map (fun b =>
         let y := (clamp (y1 b) (y1 window) (y2 window),
                   clamp (y2 b) (y1 window) (y2 window)) in
         let x := (clamp (x1 b) (x1 window) (x2 window),
                   clamp (x2 b) (x1 window) (x2 window)) in
         Box (fst y) (fst x) (snd y) (snd x)) boxes.

(** [clip_boxes(boxes, window)] on a [batch, N, 4] tensor. *)
Definition clip_boxes (boxes : list (list (box Q))) (window : box Q)
  : list (list (box Q)) :=
  map (map (fun b =>
              Box (clamp (y1 b) (y1 window) (y2 window))
                  (clamp (x1 b) (x1 window) (x2 window))
                  (clamp (y2 b) (y1 window) (y2 window))
                  (clamp (x2 b) (x1 window) (x2 window)))) boxes.

(** The box lies in the window. *)
Definition inside (window b : box Q) : Prop :=
  y1 window <= y1 b <= y2 window /\ y1 window <= y2 b <= y2 window
  /\ x1 window <= x1 b <= x2 window /\ x1 window <= x2 b <= x2 window.

(** ** Well-formed boxes *)

Definition positive_box (b : box R) : Prop :=
  (y1 b < y2 b)%R /\ (x1 b < x2 b)%R.

Definition ordered (b : box Q) : Prop := y1 b <= y2 b /\ x1 b <= x2 b.

(** The IoU of two boxes with their areas computed from the
    coordinates. *)
Definition iou (a b : box Q) : Q :=
  intersection a b / (box_area a + box_area b - intersection a b).

(** ** Masks resized with the image *)

(** [scipy.ndimage.zoom(mask, zoom, order=0)] on the shape: each axis is
    the rounded product of its length and its zoom factor. *)
Definition scipy_zoom (mask : Z * Z * Z) (zoom : Q * Q * Q) : Z * Z * Z :=
  let '(h, w, n) := mask in
  let '(zh, zw, zn) := zoom in
  (py_round (inject_Z h * zh), py_round (inject_Z w * zw),
   py_round (inject_Z n * zn)).

(** [resize_mask(mask, scale, padding, crop)], on the shape of the mask
    [height, width, num_instances]. *)
Definition resize_mask (mask : Z * Z * Z) (scale : Q)
    (padding : (Z * Z) * (Z * Z)) (crop : option (Z * Z * Z * Z))
  : result (Z * Z * Z) :=
  let mask := scipy_zoom mask (scale, scale, 1) in
  let '(mh, mw, n) := mask in
  match crop with
  | Some (y, x, h, w) =>
      Ok (slice_len mh y (y + h), slice_len mw x (x + w), n)
  | None =>
      hw <- np_pad (mh, mw) padding ;;
      Ok (fst hw, snd hw, n)
  end.

(** An array length: positive and below [2^31]. *)
Definition array_length (n : Z) : Prop := (0 < n < 2 ^ 31)%Z.

(** Scaled by [target / max(h, w)], the smaller side of an [h x w] image
    keeps at least one row. *)
Definition keeps_a_row (h w target : Z) : Prop :=
  (Z.max h w <= target * Z.min h w)%Z.

(** A [min_scale] of at most [2^31], when one is given. *)
Definition moderate_scale (min_scale : option Q) : Prop :=
  forall s, min_scale = Some s -> s <= inject_Z (2 ^ 31).

(** [random.randint(a, b)] returns a number of [[a, b]]. *)
Definition draws_in_range (randint : Z -> Z -> Z) : Prop :=
  forall a b, (a <= b)%Z -> (a <= randint a b <= b)%Z.

(** ** Molding *)

(** The fields of the configuration that [mold_image] and [mold_inputs]
    read. *)
Record config : Type := Config {
  IMAGE_MIN_DIM : option Z;
  IMAGE_MAX_DIM : option Z;
  IMAGE_MIN_SCALE : option Q;
  IMAGE_RESIZE_MODE : string;
  NUM_CLASSES : Z;
  MEAN_PIXEL : list Q
}.

(** numpy's broadcasting of two axes: equal lengths, or one of them 1. *)
Definition np_broadcast (n k : Z) : result Z :=
  if (n =? k)%Z then Ok n
  else if (n =? 1)%Z then Ok k
  else if (k =? 1)%Z then Ok n
  else Err ValueError.

(** [subtract_mean(images, config)] on the shape [height, width,
    channels]: the 1-D array [config.MEAN_PIXEL] is broadcast along the
    channels. *)
Definition subtract_mean (images : Z * Z * Z) (cfg : config)
  : result (Z * Z * Z) :=
  let '(h, w, c) := images in
  c' <- np_broadcast c (Z.of_nat (List.length (MEAN_PIXEL cfg))) ;;
  Ok (h, w, c').

(** [np.zeros([n], dtype=np.int32)]. *)
Definition np_zeros (n : Z) : result (list Z) :=
  if (n <? 0)%Z then Err ValueError else Ok (repeat 0%Z (Z.to_nat n)).

(** [np.stack] of arrays given by their shapes: at least one, all of one
    shape; the result has the new leading axis. *)
Definition np_stack_shapes (shapes : list (Z * Z * Z))
  : result (nat * (Z * Z * Z)) :=
  match shapes with
  | [] => Err ValueError
  | s :: _ =>
      if forallb (fun '(h, w, c) =>
                    let '(h0, w0, c0) := s in
                    (h =? h0)%Z && (w =? w0)%Z && (c =? c0)%Z) shapes
      then Ok (List.length shapes, s)
      else Err ValueError
  end.

Definition shape_list (image : Z * Z * Z) : list Z :=
  let '(h, w, c) := image in [h; w; c].

Definition box_list (b : box Z) : list Z := [y1 b; x1 b; y2 b; x2 b].

Section Molding.
Variable randint : Z -> Z -> Z.

(** [mold_image(image, config)], on the shape [height, width, channels]
    of the image. *)
Definition mold_image (image : Z * Z * Z) (cfg : config)
  : result ((Z * Z * Z) * resized) :=
  let '(h, w, c) := image in
  r <- resize_image randint (h, w) (IMAGE_MIN_DIM cfg) (IMAGE_MAX_DIM cfg)
         (IMAGE_MIN_SCALE cfg) (IMAGE_RESIZE_MODE cfg) ;;
  molded_image <- subtract_mean (fst (r_image r), snd (r_image r), c) cfg ;;
  Ok (molded_image, r).

(** [mold_inputs(images, config)]: the shape of the stacked molded
    images, the image metas and the windows. *)
Definition mold_inputs (images : list (Z * Z * Z)) (cfg : config)
  : result ((nat * (Z * Z * Z)) * ndarray Z * ndarray Z) :=
  rows <- mapM (fun image =>
                  (* Resize image to fit the model expected size *)
                  m <- mold_image image cfg ;;
                  let window := box_list (r_window (snd m)) in
                  (* Build image_meta *)
                  zeros <- np_zeros (NUM_CLASSES cfg) ;;
                  let image_meta :=
                    compose_image_meta 0%Z (shape_list image) window zeros in
                  Ok (fst m, image_meta, window)) images ;;
  (* Pack into arrays *)
  molded_images <- np_stack_shapes (map (fun r => fst (fst r)) rows) ;;
  image_metas <- np_stack (map (fun r => snd (fst r)) rows) ;;
  windows <- np_stack (map (fun r => Arr1 (snd r)) rows) ;;
  Ok (molded_images, image_metas, windows).
End Molding.

(** ** The filter of [remove_zero_area] *)

(** The flag [skip == 0] of [remove_zero_area] for one [int32] box. *)
Definition keeps (b : box Z) : bool :=
  let dx := wrap32 (y2 b - y1 b) in
  let dy := wrap32 (x2 b - x1 b) in
  (Nat.b2n (wrap32 (dx * dy) <=? 0)%Z + Nat.b2n (dx <=? 2)%Z
   + Nat.b2n (dy <=? 2)%Z =? 0)%nat.

(** ** The soft unmolder *)

Section ZeroAreaFloat.
Variables Mask Score : Type.

(** [remove_zero_area(boxes, class_ids, masks, scores)] on the float32
    boxes that [unmold_boxes_x] hands over. *)
Definition remove_zero_area_f32 (boxes : list (box f32)) (class_ids : list Z)
    (masks : list Mask) (scores : option (list Score))
  : result (list (box f32) * list Z * list Mask * option (list Score)) :=
  let dx := map (fun b => f32_sub (y2 b) (y1 b)) boxes in
  let dy := map (fun b => f32_sub (x2 b) (x1 b)) boxes in
  let too_small :=
    zip_with (fun a b => f32_leb (f32_mul a b) (f32_of_Z 0)) dx dy in
  let too_short := map (fun a => f32_leb a (f32_of_Z 2)) dx in
  let too_thin := map (fun a => f32_leb a (f32_of_Z 2)) dy in
  let skip :=
    zip_with Nat.add
      (zip_with Nat.add (map Nat.b2n too_small) (map Nat.b2n too_short))
      (map Nat.b2n too_thin) in
  let positive_area := nonzero (map (fun s => (s =? 0)%nat) skip) in
  if (List.length positive_area =? 0)%nat then Err NoPositiveAreaError else
  let keep_ix := positive_area in
  if negb (List.length keep_ix =? List.length boxes)%nat then
    boxes' <- index_select boxes keep_ix ;;
    class_ids' <- index_select class_ids keep_ix ;;
    scores' <- (match scores with
                | Some sc => sc' <- index_select sc keep_ix ;; Ok (Some sc')
                | None => Ok None
                end) ;;
    masks' <- index_select masks keep_ix ;;
    Ok (boxes', class_ids', masks', scores')
  else Ok (boxes, class_ids, masks, scores).
End ZeroAreaFloat.

Section UnmolderX.
(** The small mask of the network and the soft mask made of it; its
    pixels (the upsampling and the sigmoid) are not followed: [softened]
    stands for them. *)
Variables Mask SoftMask : Type.
Variable softened : Mask -> Z * Z -> SoftMask.

(** [unmold_mask_x(mask, bbox, image_shape)], [bbox] a row of float32
    entries: the size handed to [F.upsample] is made of the float
    tensors [bbox.floor()] gives. *)
Definition unmold_mask_x (mask : Mask) (bbox : box f32) (image_shape : Z * Z)
  : result SoftMask :=
  let floored := box_map f32_floor bbox in
  let shape := (f32_sub (y2 floored) (y1 floored),
                f32_sub (x2 floored) (x1 floored)) in
  upsampled <- f_upsample (FloatSize (fst shape), FloatSize (snd shape)) ;;
  Ok (softened mask upsampled).

(** [unmold_masks_x(masks, boxes, image_shape)]: a Python list. *)
Definition unmold_masks_x (masks : list Mask) (boxes : list (box f32))
    (image_shape : Z * Z) : result (list SoftMask) :=
  let N := List.length masks in
  mapM (fun i =>
          m <- item masks i ;;
          b <- item boxes i ;;
          unmold_mask_x m b image_shape) (seq 0 N).

(** [unmold_boxes_x(boxes, class_ids, masks, image_shape, window)]. *)
Definition unmold_boxes_x (boxes : list (box f32)) (class_ids : list Z)
    (masks : list Mask) (image_shape : Z * Z) (window : box Z)
  : result (list (box f32) * list SoftMask) :=
  let image_shape2 := (fst image_shape, snd image_shape) in
  let boxes := to_img_domain_f32 boxes window image_shape in
  r <- remove_zero_area_f32 boxes class_ids masks (@None (list f32)) ;;
  let '(boxes, _, masks, _) := r in
  full_masks <- unmold_masks_x masks boxes image_shape2 ;;
  Ok (boxes, full_masks).

(** [unmold_detections_x(detections, mrcnn_mask, image_shape, window)]. *)
Definition unmold_detections_x (detections : list detection)
    (mrcnn_mask : list (list Mask)) (image_shape : Z * Z) (window : box Z)
  : result (list (box f32) * list SoftMask) :=
  let N := List.length detections in
  let boxes := map d_box detections in
  let class_ids := map (fun d => f32_to_int64 (d_class_id d)) detections in
  masks <- mapM (fun i =>
                   per_class <- item mrcnn_mask i ;;
                   c <- item class_ids i ;;
                   py_index per_class c) (seq 0 N) ;;
  unmold_boxes_x boxes class_ids masks image_shape window.
End UnmolderX.

(** The flag [skip == 0] of [remove_zero_area] for one float32 box. *)
Definition keeps_f32 (b : box f32) : bool :=
  let dx := f32_sub (y2 b) (y1 b) in
  let dy := f32_sub (x2 b) (x1 b) in
  (Nat.b2n (f32_leb (f32_mul dx dy) (f32_of_Z 0))
   + Nat.b2n (f32_leb dx (f32_of_Z 2))
   + Nat.b2n (f32_leb dy (f32_of_Z 2)) =? 0)%nat.

(** ** Tensor utilities *)

Fixpoint insert_asc (x : Z) (l : list Z) : list Z :=
  match l with
  | [] => [x]
  | y :: l' => if (x <=? y)%Z then x :: l else y :: insert_asc x l'
  end.

(** [tensor.sort()[0]]: the values in ascending order. *)
Definition sort_asc (t : list Z) : list Z := fold_right insert_asc [] t.

(** [unique1d(tensor)] on a 1-D integer tensor. *)
Definition unique1d (tensor : list Z) : list Z :=
  if (List.length tensor =? 0)%nat || (List.length tensor =? 1)%nat
  then tensor else
  let tensor := sort_asc tensor in
  let unique_bool :=
    zip_with (fun a b => negb (a =? b)%Z) (tl tensor) (removelast tensor) in
  let first_element := [true] in
  let unique_bool := first_element ++ unique_bool in
  compress unique_bool tensor.

(** [intersect1d(tensor1, tensor2)]. *)
Definition intersect1d (tensor1 tensor2 : list Z) : list Z :=
  let aux := tensor1 ++ tensor2 in
  let aux := sort_asc aux in
  compress (zip_with Z.eqb (tl aux) (removelast aux)) (removelast aux).

(** The entries of a run that differ from the entry before them. *)
Fixpoint changes (prev : Z) (l : list Z) : list Z :=
  match l with
  | [] => []
  | y :: l' =>
      if negb (y =? prev)%Z then y :: changes y l' else changes y l'
  end.

(** The entries equal to the entry after them. *)
Fixpoint repeats (l : list Z) : list Z :=
  match l with
  | [] => []
  | x :: l' =>
      match l' with
      | [] => []
      | y :: _ => if (y =? x)%Z then x :: repeats l' else repeats l'
      end
  end.

(** ** SamePad2d *)

(** The module [SamePad2d(kernel_size, stride)], both stored as pairs. *)
Record SamePad2d : Type := SamePad2d_init {
  kernel_size : Z * Z;
  stride : Z * Z
}.

(** [F.pad(input, (left, right, top, bottom), 'constant', 0)] on the shape
    of a 4-D tensor: the first pair pads the last axis, the second pair
    the axis before it; a negative pad crops, and a negative resulting
    length is refused (torch's [RuntimeError]). *)
Definition f_pad (input : Z * Z * Z * Z) (pad : Z * Z * Z * Z)
  : result (Z * Z * Z * Z) :=
  let '(n, c, d2, d3) := input in
  let '(pad_left, pad_right, pad_top, pad_bottom) := pad in
  let d2' := (d2 + pad_top + pad_bottom)%Z in
  let d3' := (d3 + pad_left + pad_right)%Z in
  if ((d2' <? 0) || (d3' <? 0))%Z
  then Err (Exception "RuntimeError")
  else Ok (n, c, d2', d3').

(** [SamePad2d.forward(input)], on the shape [input.size()]. *)
Definition forward (self : SamePad2d) (input : Z * Z * Z * Z)
  : result (Z * Z * Z * Z) :=
  let '(n, c, d2, d3) := input in
  let in_width := d2 in
  let in_height := d3 in
  q <- py_div (inject_Z in_width) (inject_Z (snd (stride self))) ;;
  let out_width := Qceiling q in
  q <- py_div (inject_Z in_height) (inject_Z (snd (stride self))) ;;
  let out_height := Qceiling q in
  let pad_along_width :=
    ((out_width - 1) * fst (stride self)
     + fst (kernel_size self) - in_width)%Z in
  let pad_along_height :=
    ((out_height - 1) * snd (stride self)
     + snd (kernel_size self) - in_height)%Z in
  let pad_left := Qfloor (inject_Z pad_along_width / 2) in
  let pad_top := Qfloor (inject_Z pad_along_height / 2) in
  let pad_right := (pad_along_width - pad_left)%Z in
  let pad_bottom := (pad_along_height - pad_top)%Z in
  f_pad input (pad_left, pad_right, pad_top, pad_bottom).

(** ** Configuration checks *)

(** [check_config()], reading [Config.IMAGE.SHAPE]. The quotient
    [h / 2**6] is a float64; it is the exact quotient, as computed here,
    for the integers of magnitude below [2^53], and a rounding of it
    beyond. *)
Definition check_config (IMAGE_SHAPE : list Z) : result unit :=
  match firstn 2 IMAGE_SHAPE with
  | [h; w] =>
      if negb (Qeq_bool (inject_Z h / inject_Z (2 ^ 6))
                        (inject_Z (trunc (inject_Z h / inject_Z (2 ^ 6)))))
         || negb (Qeq_bool (inject_Z w / inject_Z (2 ^ 6))
                           (inject_Z (trunc (inject_Z w / inject_Z (2 ^ 6)))))
      then Err (Exception "Image size must be divisable by 2 at least 6 times to avoid fractions when downscaling and upscaling. For example, use 256, 320, 384, 448, 512, ... etc. ")
      else Ok tt
  | _ => Err ValueError
  end.

(** ** Mini masks *)

(** [minimize_masks(boxes, masks, mini_shape)], on the shapes: the result
    is the shape of [mini_masks]. *)
Definition minimize_masks (boxes : list (box Z)) (masks : mask_array)
    (mini_shape : Z * Z) : result (Z * Z * Z) :=
  let n := num_instances masks in
  mini_masks <- (if ((fst mini_shape <? 0) || (snd mini_shape <? 0))%Z
                 then Err ValueError
                 else Ok (fst mini_shape, snd mini_shape, Z.of_nat n)) ;;
  u <- mapM (fun i =>
               b <- item boxes i ;;
               let m := (slice_len (Z.of_nat (mask_height masks))
                                   (y1 b) (y2 b),
                         slice_len (Z.of_nat (mask_width masks))
                                   (x1 b) (x2 b)) in
               if (fst m * snd m =? 0)%Z
               then Err (Exception "Invalid bounding box with area of zero")
               else
                 let m := skimage_resize m mini_shape in
                 Ok tt) (seq 0 n) ;;
  Ok mini_masks.

(** ** Inputs of the examples *)

(** A source of draws for [resize_image]: always the lower bound. *)
Definition first_draw (a b : Z) : Z := a.

(** Three boxes: rows 0 and 1 overlap, row 2 is far away. *)
Definition dets_a : list det_row :=
  [Det 0 0 10 10 (5 # 10); Det 0 1 10 11 (6 # 10);
   Det 100 100 110 110 (9 # 10)].

Definition dets_b : list det_row :=
  [Det 0 0 10 10 (9 # 10); Det 0 1 10 11 (1 # 10);
   Det 100 100 110 110 (5 # 10)].



(** A float32 detection with integer corners and class id and the score
    [tenths / 10]. *)
Definition detection_of (corners : box Z) (class_id tenths : Z) : detection :=
  Detection (box_map f32_of_Z corners) (f32_of_Z class_id)
            (f32_div (f32_of_Z tenths) (f32_of_Z 10)).

(** Three raw detections in a [10 x 10] window; the second has zero
    width. *)
Definition three_detections : list detection :=
  [detection_of (Box 1 1 5 5) 0 9;
   detection_of (Box 2 3 6 3) 1 8;
   detection_of (Box 0 0 10 10) 1 7]%Z.


(** Two detections in a [148 x 148] window, of sides 37 and 148. *)
Definition quarter_detections : list detection :=
  [detection_of (Box 0 0 37 37) 0 9;
   detection_of (Box 0 0 148 148) 1 7]%Z.

(** Masks named by numbers: one per class and detection. *)
Definition three_class_masks : list (list nat) :=
  [[10; 11]; [20; 21]; [30; 31]]%nat.

Definition tag_mask (m : nat) (b : box Z) (image_shape : Z * Z)
  : nat * box Z := (m, b).

(** A configuration of the [square] mode: images of side 128, two
    classes, the mean pixel of three channels. *)
Definition square_config : config :=
  Config None (Some 128%Z) None "square" 2
         [1237 # 10; 1168 # 10; 1039 # 10].

(** One instance on a [3 x 4] canvas with the single pixel [(1, 2)]
    set. *)
Definition one_pixel_mask : mask_array :=
  MaskArray 3 4 1 (fun y x i => (y =? 1)%nat && (x =? 2)%nat).

Unset Implicit Arguments.

(** * Properties *)

(** ** Numbers *)

Lemma py_round_comp (x y : Q) : x == y -> py_round x = py_round y.
Proof.
  intros E. unfold py_round.
  rewrite (Qfloor_comp _ _ E).
  assert (H : x - inject_Z (Qfloor y) == y - inject_Z (Qfloor y))
    by (rewrite E; reflexivity).
  rewrite (Qcompare_comp _ _ H _ _ (Qeq_refl (1 # 2))). reflexivity.
Qed.

Lemma py_round_inject_Z (z : Z) : py_round (inject_Z z) = z.
Proof.
  unfold py_round. rewrite Qfloor_Z.
  assert (H : inject_Z z - inject_Z z == 0) by ring.
  rewrite (Qcompare_comp _ _ H _ _ (Qeq_refl (1 # 2))). reflexivity.
Qed.

(** Rounding does not pass an integer above. *)
Lemma py_round_le (x : Q) (n : Z) : x <= inject_Z n -> (py_round x <= n)%Z.
Proof.
  intros H. unfold py_round.
  pose proof (Qfloor_le x) as Hf.
  assert (Hn : (Qfloor x < n)%Z \/ inject_Z n <= inject_Z (Qfloor x)).
  { destruct (Z_lt_le_dec (Qfloor x) n) as [L|L]; [left; exact L|right].
    rewrite <- Zle_Qle. exact L. }
  destruct (Qcompare_spec (x - inject_Z (Qfloor x)) (1 # 2)) as [E|L|G].
  - destruct Hn as [Hn|Hn]; [destruct (Z.even (Qfloor x)); lia|lra].
  - rewrite Zle_Qle. lra.
  - destruct Hn as [Hn|Hn]; [lia|lra].
Qed.

(** The rounded value lies within a half of the number. *)
Lemma py_round_near (x : Q) :
  inject_Z (py_round x) - (1 # 2) <= x <= inject_Z (py_round x) + (1 # 2).
Proof.
  unfold py_round.
  pose proof (Qfloor_le x) as Hf. pose proof (Qlt_floor x) as Hl.
  rewrite inject_Z_plus in Hl. change (inject_Z 1) with 1 in Hl.
  destruct (Qcompare_spec (x - inject_Z (Qfloor x)) (1 # 2)) as [E|L|G].
  - destruct (Z.even (Qfloor x)).
    + lra.
    + rewrite inject_Z_plus. change (inject_Z 1) with 1. lra.
  - lra.
  - rewrite inject_Z_plus. change (inject_Z 1) with 1. lra.
Qed.

Lemma py_round_mono (x y : Q) : x <= y -> (py_round x <= py_round y)%Z.
Proof.
  intros H.
  destruct (Z_lt_le_dec (py_round y) (py_round x)) as [L|L]; [|exact L].
  exfalso.
  pose proof (py_round_near x) as Nx. pose proof (py_round_near y) as Ny.
  assert (L' : inject_Z (py_round y) + 1 <= inject_Z (py_round x)).
  { change 1 with (inject_Z 1). rewrite <- inject_Z_plus, <- Zle_Qle. lia. }
  assert (E : x == y) by lra.
  rewrite (py_round_comp x y E) in L. lia.
Qed.

Lemma py_round_nonneg (x : Q) : 0 <= x -> (0 <= py_round x)%Z.
Proof.
  intros H. rewrite <- (py_round_inject_Z 0). apply py_round_mono. exact H.
Qed.

Lemma Qmax_right (x y : Q) : x < y -> Qmax x y = y.
Proof.
  intros H. unfold Qmax, GenericMinMax.gmax.
  destruct (Qcompare_spec x y) as [E|L|G]; try reflexivity; lra.
Qed.

Lemma Qmax_left (x y : Q) : y <= x -> Qmax x y = x.
Proof.
  intros H. unfold Qmax, GenericMinMax.gmax.
  destruct (Qcompare_spec x y) as [E|L|G]; try reflexivity. lra.
Qed.

Lemma py_div_ok (a b : Q) : ~ b == 0 -> py_div a b = Ok (a / b).
Proof.
  intros H. unfold py_div.
  destruct (Qeq_bool b 0) eqn:E; [|reflexivity].
  apply Qeq_bool_eq in E. contradiction.
Qed.

Lemma inject_Z_nonzero (z : Z) : z <> 0%Z -> ~ inject_Z z == 0.
Proof.
  intros H E. unfold Qeq in E. simpl in E. lia.
Qed.

Lemma inject_Z_pos (z : Z) : (0 < z)%Z -> 0 < inject_Z z.
Proof.
  intros H. change 0 with (inject_Z 0). rewrite <- Zlt_Qlt. exact H.
Qed.

Lemma wrap32_id (z : Z) : fits_int32 z -> wrap32 z = z.
Proof.
  unfold fits_int32, wrap32. intros H.
  rewrite Z.mod_small by lia. lia.
Qed.

(** ** The error monad on lists *)

Lemma mapM_ok {A B : Type} (f : A -> result B) (g : A -> B) (l : list A) :
  (forall a, In a l -> f a = Ok (g a)) -> mapM f l = Ok (map g l).
Proof.
  induction l as [|a l IH]; intros H; simpl; [reflexivity|].
  rewrite (H a) by (left; reflexivity). simpl.
  rewrite IH by (intros; apply H; right; assumption). reflexivity.
Qed.

Lemma mapM_map_ok {A B C : Type} (f : B -> result C) (h : A -> B)
    (g : A -> C) (l : list A) :
  (forall a, In a l -> f (h a) = Ok (g a)) -> mapM f (map h l) = Ok (map g l).
Proof.
  induction l as [|a l IH]; intros H; simpl; [reflexivity|].
  rewrite (H a) by (left; reflexivity). simpl.
  rewrite IH by (intros; apply H; right; assumption). reflexivity.
Qed.

Lemma mapM_Forall2 {A B : Type} (g : A -> result B) (l : list A)
    (bs : list B) :
  Forall2 (fun a b => g a = Ok b) l bs -> mapM g l = Ok bs.
Proof.
  induction 1 as [|a b l bs E _ IH]; simpl; [reflexivity|].
  rewrite E. simpl. rewrite IH. reflexivity.
Qed.

(** A loop over [range(len(l))] that reads [l[i]] is a loop over [l]. *)
Lemma mapM_seq_lookup {A B : Type} (l : list A) (f : nat -> result B)
    (g : A -> result B) :
  (forall i a, nth_error l i = Some a -> f i = g a) ->
  mapM f (seq 0 (List.length l)) = mapM g l.
Proof.
  enough (G : forall s,
             (forall i a, nth_error l i = Some a -> f (s + i)%nat = g a) ->
             mapM f (seq s (List.length l)) = mapM g l)
    by (intros H; apply (G 0%nat); exact H).
  induction l as [|a l IH]; intros s H; simpl; [reflexivity|].
  rewrite <- (H 0%nat a eq_refl), Nat.add_0_r.
  rewrite (IH (S s)); [reflexivity|].
  intros i b Hb. rewrite <- (H (S i) b Hb). f_equal. lia.
Qed.

Lemma mapM_seq_spec {B : Type} (f : nat -> result B) (P : nat -> B -> Prop)
    (n : nat) :
  (forall i, exists b, f i = Ok b /\ P i b) ->
  forall s, exists bs,
    mapM f (seq s n) = Ok bs
    /\ List.length bs = n
    /\ forall i b, nth_error bs i = Some b -> P (s + i)%nat b.
Proof.
  intros H. induction n as [|n IH]; intros s.
  - exists []. repeat split. intros [|i] b Hb; discriminate.
  - destruct (H s) as (b0 & E0 & P0). destruct (IH (S s)) as (bs & E & L & Q).
    exists (b0 :: bs). simpl. rewrite E0. simpl. rewrite E. simpl.
    repeat split; [lia|].
    intros [|i] b Hb; simpl in Hb.
    + inversion Hb; subst. rewrite Nat.add_0_r. exact P0.
    + replace (s + S i)%nat with (S s + i)%nat by lia. apply Q, Hb.
Qed.

(** ** Geometry *)

(** C9. For a window of positive height and width, [to_img_domain] maps
    every box to [(box - [wy1, wx1, wy1, wx1]) * [sy, sx, sy, sx]] with
    [sy = image_h / (wy2 - wy1)] and [sx = image_w / (wx2 - wx1)]; with
    the window [(0, 0, 10, 10)] and a [100 x 100] image every coordinate
    of every box is multiplied by 10. *)
Theorem to_img_domain_spec (boxes : list (box Q)) (window : box Q)
    (image_h image_w : Q) :
  y1 window < y2 window -> x1 window < x2 window ->
  let scale_y := image_h / (y2 window - y1 window) in
  let scale_x := image_w / (x2 window - x1 window) in
  to_img_domain boxes window (image_h, image_w)
  = map (fun b => Box ((y1 b - y1 window) * scale_y)
                      ((x1 b - x1 window) * scale_x)
                      ((y2 b - y1 window) * scale_y)
                      ((x2 b - x1 window) * scale_x)) boxes
  /\ Forall2 box_eq
       (to_img_domain boxes (Box 0 0 10 10) (100, 100))
       (map (box_map (Qmult 10)) boxes).
Proof.
  intros _ _ scale_y scale_x. split; [reflexivity|].
  unfold to_img_domain. cbn [fst snd y1 x1 y2 x2].
  induction boxes as [|b boxes IH]; simpl; constructor; [|exact IH].
  unfold box_eq, box_map. cbn [y1 x1 y2 x2].
  repeat split; field.
Qed.

Lemma to_img_domain_spec_witness :
  to_img_domain [Box 1 2 3 4] (Box 0 0 10 10) (100, 100)
  = [Box ((1 - 0) * (100 / (10 - 0))) ((2 - 0) * (100 / (10 - 0)))
         ((3 - 0) * (100 / (10 - 0))) ((4 - 0) * (100 / (10 - 0)))]
  /\ Forall2 box_eq
       (to_img_domain [Box 1 2 3 4] (Box 0 0 10 10) (100, 100))
       [Box 10 20 30 40].
Proof.
  destruct (to_img_domain_spec [Box 1 2 3 4] (Box 0 0 10 10) 100 100)
    as [E F]; [reflexivity|reflexivity|].
  split; [exact E|exact F].
Defined.






(** ** Overlap *)

(** Case analysis on the maxima and minima of the goal. *)
Ltac cases_max x y := destruct (Q.max_spec x y) as [[? ?]|[? ?]].
Ltac cases_min x y := destruct (Q.min_spec x y) as [[? ?]|[? ?]].

(** The overlap of the intervals [[lo1, hi1]] and [[lo2, hi2]]. *)
Lemma overlap_facts (lo1 hi1 lo2 hi2 : Q) :
  0 <= Qmax (Qmin hi1 hi2 - Qmax lo1 lo2) 0
  /\ (lo1 <= hi1 -> Qmax (Qmin hi1 hi2 - Qmax lo1 lo2) 0 <= hi1 - lo1)
  /\ (lo2 <= hi2 -> Qmax (Qmin hi1 hi2 - Qmax lo1 lo2) 0 <= hi2 - lo2)
  /\ (hi1 <= lo2 \/ hi2 <= lo1 -> Qmax (Qmin hi1 hi2 - Qmax lo1 lo2) 0 == 0)
  /\ (lo1 == lo2 -> hi1 == hi2 -> lo1 <= hi1 ->
      Qmax (Qmin hi1 hi2 - Qmax lo1 lo2) 0 == hi1 - lo1).
Proof.
  cases_max (Qmin hi1 hi2 - Qmax lo1 lo2) 0;
    cases_min hi1 hi2; cases_max lo1 lo2;
    repeat split; intros; try lra.
Qed.

Lemma overlap_sym (lo1 hi1 lo2 hi2 : Q) :
  Qmax (Qmin hi1 hi2 - Qmax lo1 lo2) 0 == Qmax (Qmin hi2 hi1 - Qmax lo2 lo1) 0.
Proof.
  cases_max (Qmin hi1 hi2 - Qmax lo1 lo2) 0;
    cases_max (Qmin hi2 hi1 - Qmax lo2 lo1) 0;
    cases_min hi1 hi2; cases_min hi2 hi1;
    cases_max lo1 lo2; cases_max lo2 lo1; lra.
Qed.

Lemma intersection_sym (a b : box Q) : intersection a b == intersection b a.
Proof.
  unfold intersection. cbv zeta.
  rewrite (overlap_sym (x1 a) (x2 a) (x1 b) (x2 b)).
  rewrite (overlap_sym (y1 a) (y2 a) (y1 b) (y2 b)).
  reflexivity.
Qed.

Lemma intersection_bounds (a b : box Q) :
  y1 a <= y2 a -> x1 a <= x2 a -> y1 b <= y2 b -> x1 b <= x2 b ->
  0 <= intersection a b
  /\ intersection a b <= box_area a
  /\ intersection a b <= box_area b.
Proof.
  intros Hay Hax Hby Hbx. unfold intersection, box_area. cbv zeta.
  destruct (overlap_facts (x1 a) (x2 a) (x1 b) (x2 b)) as (X0 & Xa & Xb & _).
  destruct (overlap_facts (y1 a) (y2 a) (y1 b) (y2 b)) as (Y0 & Ya & Yb & _).
  specialize (Xa Hax). specialize (Xb Hbx).
  specialize (Ya Hay). specialize (Yb Hby).
  set (W := Qmax (Qmin (x2 a) (x2 b) - Qmax (x1 a) (x1 b)) 0) in *.
  set (H := Qmax (Qmin (y2 a) (y2 b) - Qmax (y1 a) (y1 b)) 0) in *.
  repeat split; nra.
Qed.

Lemma intersection_same (a b : box Q) :
  box_eq a b -> y1 a <= y2 a -> x1 a <= x2 a ->
  intersection a b == box_area a /\ box_area b == box_area a.
Proof.
  intros (E1 & E2 & E3 & E4) Hay Hax. unfold intersection, box_area. cbv zeta.
  destruct (overlap_facts (x1 a) (x2 a) (x1 b) (x2 b)) as (_ & _ & _ & _ & X).
  destruct (overlap_facts (y1 a) (y2 a) (y1 b) (y2 b)) as (_ & _ & _ & _ & Y).
  rewrite (X E2 E4 Hax), (Y E1 E3 Hay), <- E1, <- E2, <- E3, <- E4.
  split; ring.
Qed.

Lemma intersection_disjoint (a b : box Q) :
  disjoint a b -> intersection a b == 0.
Proof.
  intros D. unfold intersection. cbv zeta.
  destruct (overlap_facts (x1 a) (x2 a) (x1 b) (x2 b)) as (_ & _ & _ & X & _).
  destruct (overlap_facts (y1 a) (y2 a) (y1 b) (y2 b)) as (_ & _ & _ & Y & _).
  destruct D as [D|[D|[D|D]]].
  - rewrite Y by (left; exact D). ring.
  - rewrite Y by (right; exact D). ring.
  - rewrite X by (left; exact D). ring.
  - rewrite X by (right; exact D). ring.
Qed.

(** C8. For boxes [a] and [b] with [y2 >= y1] and [x2 >= x1], their areas
    passed in as computed from the coordinates and a union area that is
    not zero, [compute_iou] is symmetric, its value lies in [[0, 1]], it
    is 1 when the two boxes are the same box of positive area and 0 when
    they do not overlap. *)
Theorem compute_iou_properties (a b : box Q) :
  y1 a <= y2 a -> x1 a <= x2 a -> y1 b <= y2 b -> x1 b <= x2 b ->
  ~ box_area a + box_area b - intersection a b == 0 ->
  exists u v,
    compute_iou a [b] (box_area a) [box_area b] = [u]
    /\ compute_iou b [a] (box_area b) [box_area a] = [v]
    /\ u == v
    /\ 0 <= u <= 1
    /\ (box_eq a b -> 0 < box_area a -> u == 1)
    /\ (disjoint a b -> u == 0).
Proof.
  intros Hay Hax Hby Hbx Hun.
  destruct (intersection_bounds a b Hay Hax Hby Hbx) as (I0 & Ia & Ib).
  pose proof (intersection_sym a b) as Isym.
  eexists. eexists. split; [reflexivity|]. split; [reflexivity|].
  cbv zeta.
  set (I := intersection a b) in *.
  set (U := box_area a + box_area b - I) in *.
  assert (HU : 0 < U) by (unfold U in *; lra).
  split; [|split; [|split]].
  - rewrite <- Isym. fold I.
    assert (E : box_area b + box_area a - I == U) by (unfold U; ring).
    rewrite E. reflexivity.
  - split.
    + apply Qle_shift_div_l; [exact HU|]. lra.
    + apply Qle_shift_div_r; [exact HU|]. unfold U. lra.
  - intros Heq Hpos.
    destruct (intersection_same a b Heq Hay Hax) as [EI EB]. fold I in EI.
    assert (EU : I == U) by (unfold U; rewrite EI, EB; ring).
    rewrite EU. field. lra.
  - intros D. pose proof (intersection_disjoint a b D) as EI. fold I in EI.
    rewrite EI. field. lra.
Qed.

Lemma compute_iou_properties_witness :
  exists u v,
    compute_iou (Box 0 0 2 2) [Box 1 1 3 3] (box_area (Box 0 0 2 2))
                [box_area (Box 1 1 3 3)] = [u]
    /\ compute_iou (Box 1 1 3 3) [Box 0 0 2 2] (box_area (Box 1 1 3 3))
                   [box_area (Box 0 0 2 2)] = [v]
    /\ u == v
    /\ 0 <= u <= 1
    /\ (box_eq (Box 0 0 2 2) (Box 1 1 3 3) -> 0 < box_area (Box 0 0 2 2) ->
        u == 1)
    /\ (disjoint (Box 0 0 2 2) (Box 1 1 3 3) -> u == 0).
Proof.
  apply (compute_iou_properties (Box 0 0 2 2) (Box 1 1 3 3));
    try (intro H; discriminate H).
Defined.

(** ** Bounding boxes of instance masks *)

Lemma nonzero_from_map_seq (f : nat -> bool) (n i : nat) :
  nonzero_from i (map f (seq i n)) = filter f (seq i n).
Proof.
  revert i. induction n as [|n IH]; intros i; simpl; [reflexivity|].
  rewrite IH. reflexivity.
Qed.

Lemma nonzero_map_seq (f : nat -> bool) (n : nat) :
  nonzero (map f (seq 0 n)) = filter f (seq 0 n).
Proof. apply nonzero_from_map_seq. Qed.

Lemma last_In {A : Type} (l : list A) (d : A) : l <> [] -> In (last l d) l.
Proof.
  induction l as [|a l IH]; intros H; [contradiction|].
  destruct l as [|b l']; [left; reflexivity|].
  right. apply IH. discriminate.
Qed.

Lemma sorted_last_max (l : list nat) :
  StronglySorted lt l -> forall d k, In k l -> (k <= last l d)%nat.
Proof.
  induction 1 as [|x l S IH F]; intros d k Hk; [contradiction|].
  destruct l as [|y l'].
  - destruct Hk as [<-|[]]. simpl. lia.
  - change (last (x :: y :: l') d) with (last (y :: l') d).
    destruct Hk as [<-|Hk]; [|apply IH; exact Hk].
    rewrite Forall_forall in F.
    specialize (IH d y (or_introl eq_refl)).
    specialize (F y (or_introl eq_refl)). lia.
Qed.

Lemma seq_sorted (s n : nat) : StronglySorted lt (seq s n).
Proof.
  revert s. induction n as [|n IH]; intros s; simpl; constructor.
  - apply IH.
  - apply Forall_forall. intros k Hk. apply in_seq in Hk. lia.
Qed.

Lemma filter_sorted (f : nat -> bool) (l : list nat) :
  StronglySorted lt l -> StronglySorted lt (filter f l).
Proof.
  induction 1 as [|x l S IH F]; simpl; [constructor|].
  destruct (f x); [|exact IH].
  constructor; [exact IH|].
  apply Forall_forall. intros y Hy. apply filter_In in Hy.
  rewrite Forall_forall in F. apply F, Hy.
Qed.

(** First and last entry of the increasing list of the indices below [n]
    that satisfy [f]. *)
Lemma first_last_filter_seq (f : nat -> bool) (n : nat) :
  match filter f (seq 0 n) with
  | [] => forall k, (k < n)%nat -> f k = false
  | a :: t =>
      first_last (a :: t) = Ok (a, last (a :: t) a)
      /\ (a < n)%nat /\ f a = true
      /\ (last (a :: t) a < n)%nat /\ f (last (a :: t) a) = true
      /\ forall k, (k < n)%nat -> f k = true ->
                   (a <= k <= last (a :: t) a)%nat
  end.
Proof.
  assert (Hin : forall k, In k (filter f (seq 0 n)) <-> (k < n)%nat /\ f k = true).
  { intros k. rewrite filter_In, in_seq. intuition lia. }
  pose proof (filter_sorted f _ (seq_sorted 0 n)) as Hsort.
  destruct (filter f (seq 0 n)) as [|a l].
  - intros k Hk. destruct (f k) eqn:Fk; [|reflexivity].
    exfalso. apply (proj2 (Hin k)). split; assumption.
  - assert (Hlast : In (last (a :: l) a) (a :: l))
      by (apply last_In; discriminate).
    assert (Hmin : forall k, In k (a :: l) -> (a <= k)%nat).
    { intros k [<-|Hk]; [lia|].
      inversion Hsort as [|? ? _ F]; subst. rewrite Forall_forall in F.
      specialize (F k Hk). lia. }
    split; [reflexivity|].
    destruct (proj1 (Hin a) (or_introl eq_refl)) as [Ha Fa].
    destruct (proj1 (Hin _) Hlast) as [Hl Fl].
    repeat split; try assumption.
    + apply Hmin, Hin. split; assumption.
    + apply (sorted_last_max _ Hsort), Hin. split; assumption.
Qed.

Lemma any_axis0_true (m : mask_array) (i x : nat) :
  existsb (fun y => pixel m y x i) (seq 0 (mask_height m)) = true
  <-> exists y, (y < mask_height m)%nat /\ pixel m y x i = true.
Proof.
  rewrite existsb_exists. split; intros (y & Hy & P); exists y;
    (split; [|exact P]); [apply in_seq in Hy|apply in_seq]; lia.
Qed.

Lemma any_axis1_true (m : mask_array) (i y : nat) :
  existsb (fun x => pixel m y x i) (seq 0 (mask_width m)) = true
  <-> exists x, (x < mask_width m)%nat /\ pixel m y x i = true.
Proof.
  rewrite existsb_exists. split; intros (x & Hx & P); exists x;
    (split; [|exact P]); [apply in_seq in Hx|apply in_seq]; lia.
Qed.

Lemma extract_bbox_spec (m : mask_array) (i : nat) :
  (Z.of_nat (mask_height m) < 2 ^ 31)%Z ->
  (Z.of_nat (mask_width m) < 2 ^ 31)%Z ->
  exists b,
    extract_bbox m i = Ok b
    /\ ((exists y x, set_pixel m i y x) -> tight_box m i b)
    /\ ((forall y x, ~ set_pixel m i y x) -> b = Box 0 0 0 0)%Z.
Proof.
  intros HH HW. unfold extract_bbox, any_axis0, any_axis1.
  rewrite !nonzero_map_seq.
  set (fx := fun x => existsb (fun y => pixel m y x i) (seq 0 (mask_height m))).
  set (fy := fun y => existsb (fun x => pixel m y x i) (seq 0 (mask_width m))).
  pose proof (first_last_filter_seq fx (mask_width m)) as Hx.
  pose proof (first_last_filter_seq fy (mask_height m)) as Hy.
  destruct (filter fx (seq 0 (mask_width m))) as [|xa tx].
  - (* no column holds a set pixel *)
    exists (Box 0 0 0 0)%Z. split; [reflexivity|]. split; [|reflexivity].
    intros (y & x & Hyy & Hxx & P). exfalso.
    specialize (Hx x Hxx). unfold fx in Hx.
    assert (T : existsb (fun y => pixel m y x i) (seq 0 (mask_height m)) = true)
      by (apply any_axis0_true; exists y; split; assumption).
    congruence.
  - destruct Hx as (FLx & Hxa & Fxa & Hxb & Fxb & Bx).
    set (xb := last (xa :: tx) xa) in *.
    destruct (filter fy (seq 0 (mask_height m))) as [|ya ty].
    + (* column [xa] holds a set pixel, so some row does *)
      exfalso. unfold fx in Fxa. apply any_axis0_true in Fxa.
      destruct Fxa as (y & Hyy & P). specialize (Hy y Hyy). unfold fy in Hy.
      assert (T : existsb (fun x => pixel m y x i) (seq 0 (mask_width m)) = true)
        by (apply any_axis1_true; exists xa; split; assumption).
      congruence.
    + destruct Hy as (FLy & Hya & Fya & Hyb & Fyb & By).
      set (yb := last (ya :: ty) ya) in *.
      cbn [List.length Nat.eqb negb]. rewrite FLx, FLy. cbn [bind fst snd].
      exists (Box (Z.of_nat ya) (Z.of_nat xa)
                  (Z.of_nat yb + 1) (Z.of_nat xb + 1))%Z.
      split.
      { unfold box_map. cbn [y1 x1 y2 x2].
        rewrite !wrap32_id by (unfold fits_int32; lia). reflexivity. }
      split.
      * intros _. unfold tight_box. cbn [y1 x1 y2 x2].
        unfold fx in Fxa, Fxb. unfold fy in Fya, Fyb.
        apply any_axis0_true in Fxa, Fxb. apply any_axis1_true in Fya, Fyb.
        destruct Fxa as (pa & ? & ?), Fxb as (pb & ? & ?),
                 Fya as (qa & ? & ?), Fyb as (qb & ? & ?).
        split; [|split; [|split; [|split]]].
        -- intros y x (Hyy & Hxx & P).
           assert (Tx : fx x = true)
             by (apply any_axis0_true; exists y; split; assumption).
           assert (Ty : fy y = true)
             by (apply any_axis1_true; exists x; split; assumption).
           specialize (Bx x Hxx Tx). specialize (By y Hyy Ty). lia.
        -- exists ya, qa. unfold set_pixel. auto.
        -- exists yb, qb. unfold set_pixel. split; [auto|lia].
        -- exists pa, xa. unfold set_pixel. auto.
        -- exists pb, xb. unfold set_pixel. split; [auto|lia].
      * intros Hnone. exfalso. unfold fx in Fxa. apply any_axis0_true in Fxa.
        destruct Fxa as (y & Hyy & P). apply (Hnone y xa).
        unfold set_pixel. auto.
Qed.

(** C10. For every mask array (of a height and a width that are [int32]
    values) [extract_bboxes] returns one box per instance: the tight
    bounding box of the set pixels of that channel with exclusive upper
    bounds, and the box [(0, 0, 0, 0)] for a channel without a set pixel;
    it does not fail. *)
Theorem extract_bboxes_tight (m : mask_array) :
  (Z.of_nat (mask_height m) < 2 ^ 31)%Z ->
  (Z.of_nat (mask_width m) < 2 ^ 31)%Z ->
  exists boxes,
    extract_bboxes m = Ok boxes
    /\ List.length boxes = num_instances m
    /\ forall i b, nth_error boxes i = Some b ->
         ((exists y x, set_pixel m i y x) -> tight_box m i b)
         /\ ((forall y x, ~ set_pixel m i y x) -> b = Box 0 0 0 0)%Z.
Proof.
  intros HH HW. unfold extract_bboxes.
  destruct (mapM_seq_spec (extract_bbox m)
              (fun i b =>
                 ((exists y x, set_pixel m i y x) -> tight_box m i b)
                 /\ ((forall y x, ~ set_pixel m i y x) -> b = Box 0 0 0 0)%Z)
              (num_instances m)
              (fun i => extract_bbox_spec m i HH HW) 0%nat)
    as (boxes & E & L & Q).
  exists boxes. split; [exact E|]. split; [exact L|].
  intros i b Hb. exact (Q i b Hb).
Qed.

Lemma extract_bboxes_tight_witness :
  exists boxes,
    extract_bboxes one_pixel_mask = Ok boxes
    /\ List.length boxes = 1%nat
    /\ forall i b, nth_error boxes i = Some b ->
         ((exists y x, set_pixel one_pixel_mask i y x) ->
          tight_box one_pixel_mask i b)
         /\ ((forall y x, ~ set_pixel one_pixel_mask i y x) ->
             b = Box 0 0 0 0)%Z.
Proof.
  apply (extract_bboxes_tight one_pixel_mask); reflexivity.
Defined.

(** The box of the example: the pixel [(1, 2)] alone. *)
Example extract_bboxes_one_pixel :
  extract_bboxes one_pixel_mask = Ok [Box 1 2 2 3]%Z.
Proof. reflexivity. Qed.

(** ** Image meta codec *)

(** [parse_image_meta] indexes two axes: on the one-dimensional record
    that [compose_image_meta] returns it raises [IndexError]. *)
Lemma parse_image_meta_flat_record :
  parse_image_meta
    (compose_image_meta 7 [100; 50; 3] [14; 39; 114; 89] [1; 0; 1])%Z
  = Err IndexError.
Proof. reflexivity. Qed.

Section MetaRoundTrip.
Variable A : Type.

Lemma flat_length (num_classes : nat) (i : A * list A * list A * list A) :
  valid_meta_input num_classes i ->
  List.length (flat i) = (8 + num_classes)%nat.
Proof.
  destruct i as [[[id sh] win] act]. intros (H1 & H2 & H3).
  unfold flat. rewrite !length_app, H1, H2, H3. reflexivity.
Qed.

Lemma flat_fields (num_classes : nat) (i : A * list A * list A * list A) :
  valid_meta_input num_classes i ->
  nth_error (flat i) 0 = Some (fst (fst (fst i)))
  /\ slice 1 4 (flat i) = snd (fst (fst i))
  /\ slice 4 8 (flat i) = snd (fst i)
  /\ skipn 8 (flat i) = snd i.
Proof.
  destruct i as [[[id sh] win] act]. intros (H1 & H2 & H3).
  destruct sh as [|s0 [|s1 [|s2 [|? ?]]]]; try discriminate.
  destruct win as [|w0 [|w1 [|w2 [|w3 [|? ?]]]]]; try discriminate.
  repeat split.
Qed.

(** C4. For every non-empty batch of valid fields
    [(image_id, image_shape, window, active_class_ids)], with three
    entries of shape, four of window and [num_classes] flags, the records
    of [compose_image_meta] stack into a two-dimensional array on which
    [parse_image_meta] returns, row by row, exactly the fields; the layout
    of a record is [id] + shape(3) + window(4) + bitmap(num_classes). *)
Theorem parse_image_meta_stack_roundtrip (num_classes : nat)
    (inputs : list (A * list A * list A * list A)) :
  inputs <> [] ->
  Forall (valid_meta_input num_classes) inputs ->
  exists meta,
    np_stack (map (@meta_record A) inputs) = Ok meta
    /\ meta = Arr2 (8 + num_classes) (map (@flat A) inputs)
    /\ parse_image_meta meta
       = Ok (map (fun i => fst (fst (fst i))) inputs,
             map (fun i => snd (fst (fst i))) inputs,
             map (fun i => snd (fst i)) inputs,
             map (fun i => snd i) inputs).
Proof.
  intros Hne Hvalid. rewrite Forall_forall in Hvalid.
  exists (Arr2 (8 + num_classes) (map (@flat A) inputs)).
  split; [|split; [reflexivity|]].
  - unfold np_stack.
    rewrite (mapM_map_ok _ (@meta_record A) (@flat A)).
    2:{ intros [[[? ?] ?] ?] _. reflexivity. }
    cbn [bind].
    destruct inputs as [|i0 inputs]; [contradiction|].
    cbn [map].
    assert (Hall : forallb (fun u => (List.length u =? List.length (flat i0))%nat)
                     (flat i0 :: map (@flat A) inputs) = true).
    { apply forallb_forall. intros u Hu.
      change (flat i0 :: map (@flat A) inputs)
        with (map (@flat A) (i0 :: inputs)) in Hu.
      apply in_map_iff in Hu. destruct Hu as (i & <- & Hi).
      rewrite (flat_length num_classes i (Hvalid i Hi)).
      rewrite (flat_length num_classes i0 (Hvalid i0 (or_introl eq_refl))).
      apply Nat.eqb_refl. }
    rewrite Hall.
    rewrite (flat_length num_classes i0 (Hvalid i0 (or_introl eq_refl))).
    reflexivity.
  - unfold parse_image_meta. cbn [Nat.eqb Nat.add].
    rewrite (mapM_map_ok _ (@flat A) (fun i => fst (fst (fst i)))).
    2:{ intros i Hi.
        destruct (flat_fields num_classes i (Hvalid i Hi)) as (-> & _).
        reflexivity. }
    cbn [bind]. rewrite !map_map.
    assert (E1 : map (fun x => slice 1 4 (flat x)) inputs
                 = map (fun i => snd (fst (fst i))) inputs).
    { apply map_ext_in. intros i Hi.
      apply (flat_fields num_classes i (Hvalid i Hi)). }
    assert (E2 : map (fun x => slice 4 8 (flat x)) inputs
                 = map (fun i => snd (fst i)) inputs).
    { apply map_ext_in. intros i Hi.
      apply (flat_fields num_classes i (Hvalid i Hi)). }
    assert (E3 : map (fun x => skipn 8 (flat x)) inputs
                 = map (fun i => snd i) inputs).
    { apply map_ext_in. intros i Hi.
      apply (flat_fields num_classes i (Hvalid i Hi)). }
    rewrite E1, E2, E3. reflexivity.
Qed.
End MetaRoundTrip.

Lemma parse_image_meta_stack_roundtrip_witness :
  exists meta,
    np_stack [compose_image_meta 7 [100; 50; 3] [14; 39; 114; 89] [1; 0; 1];
              compose_image_meta 8 [64; 64; 3] [0; 0; 64; 64] [0; 0; 1]]%Z
    = Ok meta
    /\ meta = Arr2 11 [[7; 100; 50; 3; 14; 39; 114; 89; 1; 0; 1];
                       [8; 64; 64; 3; 0; 0; 64; 64; 0; 0; 1]]%Z
    /\ parse_image_meta meta
       = Ok ([7; 8], [[100; 50; 3]; [64; 64; 3]],
             [[14; 39; 114; 89]; [0; 0; 64; 64]],
             [[1; 0; 1]; [0; 0; 1]])%Z.
Proof.
  apply (parse_image_meta_stack_roundtrip Z 3
           [(7, [100; 50; 3], [14; 39; 114; 89], [1; 0; 1]);
            (8, [64; 64; 3], [0; 0; 64; 64], [0; 0; 1])]%Z).
  - discriminate.
  - repeat constructor.
Defined.

(** ** Resizer *)

Lemma scaled_side_le (a m d : Z) :
  (0 < a <= m)%Z -> (0 < d)%Z ->
  inject_Z a * (inject_Z d / inject_Z m) <= inject_Z d.
Proof.
  intros Ha Hd.
  assert (Hm : 0 < inject_Z m) by (apply inject_Z_pos; lia).
  assert (Ha' : inject_Z a <= inject_Z m) by (rewrite <- Zle_Qle; lia).
  assert (Hd' : 0 < inject_Z d) by (apply inject_Z_pos; lia).
  assert (E : inject_Z a * (inject_Z d / inject_Z m)
              == inject_Z d * (inject_Z a / inject_Z m)) by (field; lra).
  rewrite E.
  assert (H1 : inject_Z a / inject_Z m <= 1).
  { apply Qle_shift_div_r; lra. }
  nra.
Qed.

Lemma scaled_side_eq (m d : Z) :
  (0 < m)%Z -> inject_Z m * (inject_Z d / inject_Z m) == inject_Z d.
Proof.
  intros Hm. pose proof (inject_Z_pos m Hm). field. lra.
Qed.

Lemma np_pad_ok (image : Z * Z) (t b l r : Z) :
  (0 <= t)%Z -> (0 <= b)%Z -> (0 <= l)%Z -> (0 <= r)%Z ->
  np_pad image ((t, b), (l, r)) = Ok (fst image + t + b, snd image + l + r)%Z.
Proof.
  intros Ht Hb Hl Hr. unfold np_pad.
  apply Z.ltb_ge in Ht, Hb, Hl, Hr. rewrite Ht, Hb, Hl, Hr. reflexivity.
Qed.

(** The [min_scale] step never fails. *)
Lemma min_scale_step (ms : option Q) (s0 : Q) :
  (if truthy_Q ms then ms0 <- number ms;; Ok (Qmax s0 ms0) else Ok s0)
  = Ok (match ms with
        | Some m => if truthy_Q ms then Qmax s0 m else s0
        | None => s0
        end).
Proof.
  destruct ms as [m|]; simpl; [destruct (negb (Qeq_bool m 0))|]; reflexivity.
Qed.

(** Unfolding of [resize_image] in [pad64] mode up to the scale. *)
Ltac enter_pad64 :=
  unfold resize_image;
  cbn [String.eqb Ascii.eqb Bool.eqb negb andb];
  rewrite !andb_false_r; cbn [bind]; rewrite min_scale_step;
  cbn [bind number].

(** C7. In [pad64] mode with [min_dim] not a multiple of 64,
    [resize_image] returns no result for any image: it fails, and on every
    image that is not empty the failure is the assertion on [min_dim]
    ([AssertionError], the GeometryPrecondition of the specification). *)
Theorem resize_image_pad64_precondition (randint : Z -> Z -> Z) (h w md : Z)
    (xd : option Z) (ms : option Q) :
  (md mod 64 <> 0)%Z ->
  (exists e, resize_image randint (h, w) (Some md) xd ms "pad64" = Err e)
  /\ ((0 < Z.max h w)%Z ->
      resize_image randint (h, w) (Some md) xd ms "pad64"
      = Err AssertionError).
Proof.
  intros Hmod. apply Z.eqb_neq in Hmod.
  assert (G : Z.max h w <> 0%Z ->
              resize_image randint (h, w) (Some md) xd ms "pad64"
              = Err AssertionError).
  { intros Hpos. enter_pad64.
    rewrite py_div_ok by (apply inject_Z_nonzero; exact Hpos).
    cbn [bind].
    destruct (negb (Qeq_bool _ 1)); cbn [skimage_resize];
      rewrite Hmod; reflexivity. }
  split; [|intros Hpos; apply G; lia].
  destruct (Z.eq_dec (Z.max h w) 0) as [E|E].
  - exists ZeroDivisionError. enter_pad64. rewrite E. reflexivity.
  - exists AssertionError. apply G, E.
Qed.

Lemma resize_image_pad64_precondition_witness :
  resize_image first_draw (100, 50)%Z (Some 100%Z) (Some 128%Z) None "pad64"
  = Err AssertionError.
Proof.
  apply (resize_image_pad64_precondition first_draw 100 50 100
           (Some 128%Z) None); [discriminate|reflexivity].
Defined.

(** [pad64] mode with the products [h * scale] and [w * scale] taken
    exactly: the result in full. *)
Lemma resize_image_pad64_result (randint : Z -> Z -> Z) (h w md xd : Z)
    (ms : option Q) :
  (0 < h)%Z -> (0 < w)%Z -> (0 < md)%Z -> (md mod 64 = 0)%Z ->
  let scale := inject_Z md / inject_Z (Z.max h w) in
  let h' := py_round (inject_Z h * scale) in
  let w' := py_round (inject_Z w * scale) in
  (w' <= xd)%Z ->
  let top := ((md - h') / 2)%Z in
  let left := ((xd - w') / 2)%Z in
  resize_image randint (h, w) (Some md) (Some xd) ms "pad64"
  = Ok (Resized (md, xd)
                (Box top left (h' + top)%Z (w' + left)%Z)
                scale
                ((top, md - h' - top), (left, xd - w' - left))%Z
                None)
  /\ (h' <= md)%Z /\ (w' <= md)%Z
  /\ (w <= h -> h' = md)%Z /\ (h <= w -> w' = md)%Z.
Proof.
  intros Hh Hw Hmd Hmod scale h' w' Hxd top left.
  assert (Hh' : (h' <= md)%Z).
  { apply py_round_le, scaled_side_le; lia. }
  assert (Hw' : (w' <= md)%Z).
  { apply py_round_le, scaled_side_le; lia. }
  assert (Hhm : (w <= h -> h' = md)%Z).
  { intros L. unfold h', scale. rewrite Z.max_l by lia.
    rewrite (py_round_comp _ _ (scaled_side_eq h md Hh)).
    apply py_round_inject_Z. }
  assert (Hwm : (h <= w -> w' = md)%Z).
  { intros L. unfold w', scale. rewrite Z.max_r by lia.
    rewrite (py_round_comp _ _ (scaled_side_eq w md Hw)).
    apply py_round_inject_Z. }
  split; [|repeat split; assumption].
  assert (Himg : (if negb (Qeq_bool scale 1)
                  then skimage_resize (h, w)
                         (py_round (inject_Z h * scale),
                          py_round (inject_Z w * scale))
                  else (h, w)) = (h', w')).
  { destruct (Qeq_bool scale 1) eqn:E; [|reflexivity].
    apply Qeq_bool_eq in E. simpl. unfold h', w'.
    assert (E1 : inject_Z h * scale == inject_Z h) by (rewrite E; ring).
    assert (E2 : inject_Z w * scale == inject_Z w) by (rewrite E; ring).
    rewrite (py_round_comp _ _ E1), (py_round_comp _ _ E2), !py_round_inject_Z.
    reflexivity. }
  enter_pad64.
  rewrite py_div_ok by (apply inject_Z_nonzero; lia).
  cbn [bind]. fold scale. rewrite Himg.
  apply Z.eqb_eq in Hmod. rewrite Hmod. cbn [assert bind].
  assert (Htop : (if negb (md =? h')%Z
                  then (((md - h') / 2)%Z, (md - h' - (md - h') / 2)%Z)
                  else (0%Z, 0%Z)) = (top, (md - h' - top)%Z)).
  { unfold top. destruct (Z.eqb_spec md h') as [E|E]; [|reflexivity].
    simpl. rewrite E, Z.sub_diag. reflexivity. }
  assert (Hleft : (if negb (xd =? w')%Z
                   then Ok (((xd - w') / 2)%Z, (xd - w' - (xd - w') / 2)%Z)
                   else Ok (0%Z, 0%Z)) = Ok (left, (xd - w' - left)%Z)).
  { unfold left. destruct (Z.eqb_spec xd w') as [E|E]; [|reflexivity].
    simpl. rewrite E, Z.sub_diag. reflexivity. }
  rewrite Htop, Hleft. cbn [bind].
  rewrite np_pad_ok by (unfold top, left; Z.div_mod_to_equations; lia).
  cbn [bind fst snd]. do 2 f_equal.
  f_equal; lia.
Qed.

(** The rounded product lies less than one from the product. *)
Lemma py_round_within_one (x : Q) :
  inject_Z (py_round x) - 1 < x /\ x < inject_Z (py_round x) + 1.
Proof.
  unfold py_round.
  pose proof (Qfloor_le x) as Hf. pose proof (Qlt_floor x) as Hl.
  rewrite inject_Z_plus in Hl. change (inject_Z 1) with 1 in Hl.
  destruct (Qcompare_spec (x - inject_Z (Qfloor x)) (1 # 2)) as [E|L|G].
  - destruct (Z.even (Qfloor x)).
    + lra.
    + rewrite inject_Z_plus. change (inject_Z 1) with 1. lra.
  - lra.
  - rewrite inject_Z_plus. change (inject_Z 1) with 1. lra.
Qed.

(** C6. In [pad64] mode, for an image whose sides are array lengths, a
    [min_dim] that is a multiple of 64 and at most [max_dim], both array
    lengths, and a smaller side that keeps a row, [resize_image] returns
    the same result whatever [min_scale] is; the scale is
    [min_dim / max(h, w)], so that the larger side of the window is
    [min_dim] and the other side, less than one pixel from its scaled
    length, is not larger; the height is padded to [min_dim] and the
    width to [max_dim], the padding being the space around the window,
    split so that the second pad of an axis exceeds the first by at most
    one pixel. *)
Theorem resize_image_pad64 (randint : Z -> Z -> Z) (h w md xd : Z)
    (ms : option Q) :
  array_length h -> array_length w -> array_length md -> array_length xd ->
  (md <= xd)%Z -> (md mod 64 = 0)%Z -> keeps_a_row h w md ->
  exists r,
    resize_image randint (h, w) (Some md) (Some xd) ms "pad64" = Ok r
    /\ resize_image randint (h, w) (Some md) (Some xd) None "pad64" = Ok r
    /\ r_scale r == inject_Z md / inject_Z (Z.max h w)
    /\ r_image r = (md, xd)
    /\ r_crop r = None
    /\ (w <= h -> y2 (r_window r) - y1 (r_window r) = md)%Z
    /\ (h <= w -> x2 (r_window r) - x1 (r_window r) = md)%Z
    /\ (0 < y2 (r_window r) - y1 (r_window r) <= md)%Z
    /\ (0 < x2 (r_window r) - x1 (r_window r) <= md)%Z
    /\ (inject_Z (y2 (r_window r) - y1 (r_window r)) - 1
        < inject_Z h * r_scale r
        < inject_Z (y2 (r_window r) - y1 (r_window r)) + 1)
    /\ (inject_Z (x2 (r_window r) - x1 (r_window r)) - 1
        < inject_Z w * r_scale r
        < inject_Z (x2 (r_window r) - x1 (r_window r)) + 1)
    /\ (0 <= y1 (r_window r))%Z /\ (0 <= x1 (r_window r))%Z
    /\ r_padding r
       = ((y1 (r_window r), md - y2 (r_window r)),
          (x1 (r_window r), xd - x2 (r_window r)))%Z
    /\ (0 <= (md - y2 (r_window r)) - y1 (r_window r) <= 1)%Z
    /\ (0 <= (xd - x2 (r_window r)) - x1 (r_window r) <= 1)%Z.
Proof.
  intros [Hh _] [Hw _] [Hmd _] _ Hxd Hmod Hrow.
  set (scale := inject_Z md / inject_Z (Z.max h w)).
  set (h' := py_round (inject_Z h * scale)).
  set (w' := py_round (inject_Z w * scale)).
  assert (Bw : (w' <= md)%Z) by (apply py_round_le, scaled_side_le; lia).
  destruct (resize_image_pad64_result randint h w md xd ms Hh Hw Hmd Hmod)
    as (E & Lh & Lw & Eh & Ew); [fold scale w'; lia|].
  destruct (resize_image_pad64_result randint h w md xd None Hh Hw Hmd Hmod)
    as (E0 & _); [fold scale w'; lia|].
  cbv zeta in E, E0, Lh, Lw, Eh, Ew. fold scale h' w' in E, E0, Lh, Lw, Eh, Ew.
  assert (Pm : 0 < inject_Z (Z.max h w)) by (apply inject_Z_pos; lia).
  assert (Ps : 0 < scale).
  { unfold scale. apply Qlt_shift_div_l; [exact Pm|].
    pose proof (inject_Z_pos md Hmd). lra. }
  assert (One : forall a, (Z.min h w <= a)%Z ->
                          (1 <= py_round (inject_Z a * scale))%Z).
  { intros a La. rewrite <- (py_round_inject_Z 1). apply py_round_mono.
    unfold keeps_a_row in Hrow.
    assert (R : inject_Z (Z.max h w) <= inject_Z md * inject_Z a).
    { rewrite <- inject_Z_mult, <- Zle_Qle. nia. }
    unfold scale. change (inject_Z 1) with 1.
    assert (X : inject_Z a * (inject_Z md / inject_Z (Z.max h w))
                == inject_Z md * inject_Z a / inject_Z (Z.max h w))
      by (field; lra).
    rewrite X. apply Qle_shift_div_l; [exact Pm|lra]. }
  pose proof (One h ltac:(lia)) as Oh. pose proof (One w ltac:(lia)) as Ow.
  fold h' in Oh. fold w' in Ow.
  pose proof (py_round_within_one (inject_Z h * scale)) as [Nh1 Nh2].
  pose proof (py_round_within_one (inject_Z w * scale)) as [Nw1 Nw2].
  fold h' in Nh1, Nh2. fold w' in Nw1, Nw2.
  eexists. split; [exact E|]. split; [exact E0|].
  cbn [r_image r_crop r_scale r_window r_padding y1 x1 y2 x2].
  replace (h' + (md - h') / 2 - (md - h') / 2)%Z with h' by lia.
  replace (w' + (xd - w') / 2 - (xd - w') / 2)%Z with w' by lia.
  split; [reflexivity|]. split; [reflexivity|]. split; [reflexivity|].
  split; [exact Eh|]. split; [exact Ew|].
  split; [lia|]. split; [lia|].
  split; [split; assumption|]. split; [split; assumption|].
  split; [Z.div_mod_to_equations; lia|].
  split; [Z.div_mod_to_equations; lia|].
  split; [f_equal; f_equal; lia|].
  split; Z.div_mod_to_equations; lia.
Qed.

(** A [100 x 50] image with [min_dim = 64] and [max_dim = 128]. *)
Lemma resize_image_pad64_witness :
  exists r,
    resize_image first_draw (100, 50)%Z (Some 64%Z) (Some 128%Z)
                 (Some (3 # 1)) "pad64" = Ok r
    /\ resize_image first_draw (100, 50)%Z (Some 64%Z) (Some 128%Z) None
                    "pad64" = Ok r
    /\ r_scale r == inject_Z 64 / inject_Z (Z.max 100 50)
    /\ r_image r = (64, 128)%Z
    /\ r_crop r = None
    /\ (50 <= 100 -> y2 (r_window r) - y1 (r_window r) = 64)%Z
    /\ (100 <= 50 -> x2 (r_window r) - x1 (r_window r) = 64)%Z
    /\ (0 < y2 (r_window r) - y1 (r_window r) <= 64)%Z
    /\ (0 < x2 (r_window r) - x1 (r_window r) <= 64)%Z
    /\ (inject_Z (y2 (r_window r) - y1 (r_window r)) - 1
        < inject_Z 100 * r_scale r
        < inject_Z (y2 (r_window r) - y1 (r_window r)) + 1)
    /\ (inject_Z (x2 (r_window r) - x1 (r_window r)) - 1
        < inject_Z 50 * r_scale r
        < inject_Z (x2 (r_window r) - x1 (r_window r)) + 1)
    /\ (0 <= y1 (r_window r))%Z /\ (0 <= x1 (r_window r))%Z
    /\ r_padding r
       = ((y1 (r_window r), 64 - y2 (r_window r)),
          (x1 (r_window r), 128 - x2 (r_window r)))%Z
    /\ (0 <= (64 - y2 (r_window r)) - y1 (r_window r) <= 1)%Z
    /\ (0 <= (128 - x2 (r_window r)) - x1 (r_window r) <= 1)%Z.
Proof.
  apply (resize_image_pad64 first_draw 100 50 64 128 (Some (3 # 1)));
    try (split; reflexivity); try reflexivity; intro H; discriminate H.
Defined.

(** The result of that call. *)
Example resize_image_pad64_100x50 :
  resize_image first_draw (100, 50)%Z (Some 64%Z) (Some 128%Z)
               (Some (3 # 1)) "pad64"
  = Ok (Resized (64, 128)%Z (Box 0 48 64 80)%Z (64 # 100)
                ((0, 0), (48, 48))%Z None).
Proof. reflexivity. Qed.

(** ** Square mode on the [100 x 50] image *)

(** With [min_dim] left unset nothing scales the image up: the scale is
    1, not 1.28, and the window is the [100 x 50] region. *)
Lemma resize_image_square_without_min_dim :
  resize_image first_draw (100, 50)%Z None (Some 128%Z) None "square"
  = Ok (Resized (128, 128)%Z (Box 14 39 114 89)%Z 1
                ((14, 14), (39, 39))%Z None)
  /\ ~ 1 == 128 # 100.
Proof.
  split; [vm_compute; reflexivity|].
  intros H. discriminate H.
Qed.

(** C5. In [square] mode on a [100 x 50] image with
    [max_dim = 128], an integer [min_dim] of at least 64 and [min_scale]
    unset or at most 1.28, [resize_image] returns an image of shape
    [128 x 128], [scale = 1.28], the window [(0, 32, 128, 96)] of the
    [128 x 64] scaled image, whose height to width ratio is that of the
    original, and the symmetric padding [(0, 0), (32, 32)]. *)
Theorem resize_image_square_100x50 (randint : Z -> Z -> Z) (md : Z)
    (ms : option Q) :
  (64 <= md)%Z ->
  (forall s, ms = Some s -> s <= 128 # 100) ->
  exists r,
    resize_image randint (100, 50)%Z (Some md) (Some 128%Z) ms "square" = Ok r
    /\ r_image r = (128, 128)%Z
    /\ r_scale r == 128 # 100
    /\ r_window r = (Box 0 32 128 96)%Z
    /\ r_padding r = ((0, 0), (32, 32))%Z
    /\ ((y2 (r_window r) - y1 (r_window r)) * 50
        = (x2 (r_window r) - x1 (r_window r)) * 100)%Z.
Proof.
  intros Hmd Hms.
  unfold resize_image.
  cbn [String.eqb Ascii.eqb Bool.eqb negb andb].
  assert (Ht : truthy_Z (Some md) = true).
  { simpl. destruct (Z.eqb_spec md 0); [lia|reflexivity]. }
  rewrite Ht. cbn [andb bind number].
  change (Z.min 100 50) with 50%Z. change (Z.max 100 50) with 100%Z.
  rewrite py_div_ok by (apply inject_Z_nonzero; lia). cbn [bind].
  set (s0 := inject_Z md / inject_Z 50).
  assert (Hs0 : 128 # 100 <= s0).
  { unfold s0. apply Qle_shift_div_l; [reflexivity|].
    assert (inject_Z 64 <= inject_Z md) by (rewrite <- Zle_Qle; exact Hmd).
    change (inject_Z 50) with (50 # 1). change (inject_Z 64) with (64 # 1) in H.
    lra. }
  rewrite (Qmax_right 1 s0) by lra.
  rewrite min_scale_step.
  assert (Hms' : match ms with
                 | Some m => if truthy_Q ms then Qmax s0 m else s0
                 | None => s0
                 end = s0).
  { destruct ms as [m|]; [|reflexivity].
    destruct (truthy_Q (Some m)); [|reflexivity].
    apply Qmax_left. specialize (Hms m eq_refl). lra. }
  rewrite Hms'. cbn [bind truthy_Z].
  change (negb (128 =? 0)%Z && true) with true. cbn iota.
  assert (Hr : py_round (inject_Z 100 * s0) = (2 * md)%Z).
  { rewrite <- (py_round_inject_Z (2 * md)). apply py_round_comp.
    unfold s0. rewrite inject_Z_mult.
    change (inject_Z 50) with (50 # 1). change (inject_Z 100) with (100 # 1).
    change (inject_Z 2) with (2 # 1). field. }
  rewrite Hr.
  destruct (Z.eq_dec md 64) as [E|E].
  - subst md. unfold s0. eexists. split; [vm_compute; reflexivity|].
    repeat split; reflexivity.
  - assert (G : (2 * md >? 128)%Z = true) by (apply Z.gtb_lt; lia).
    rewrite G. eexists. split; [vm_compute; reflexivity|].
    repeat split; reflexivity.
Qed.

Lemma resize_image_square_100x50_witness :
  exists r,
    resize_image first_draw (100, 50)%Z (Some 128%Z) (Some 128%Z) None "square"
    = Ok r
    /\ r_image r = (128, 128)%Z
    /\ r_scale r == 128 # 100
    /\ r_window r = (Box 0 32 128 96)%Z
    /\ r_padding r = ((0, 0), (32, 32))%Z
    /\ ((y2 (r_window r) - y1 (r_window r)) * 50
        = (x2 (r_window r) - x1 (r_window r)) * 100)%Z.
Proof.
  apply (resize_image_square_100x50 first_draw 128 None).
  - intro H; discriminate H.
  - intros s H; discriminate H.
Defined.

(** ** Unmolder *)

Lemma zip_with_map {A B C D : Type} (f : B -> C -> D) (g : A -> B)
    (h : A -> C) (l : list A) :
  zip_with f (map g l) (map h l) = map (fun a => f (g a) (h a)) l.
Proof. induction l as [|a l IH]; simpl; [|rewrite IH]; reflexivity. Qed.

(** Indexing with the positions of the set flags keeps the flagged
    entries. *)
Lemma index_select_nonzero_from {A : Type} (flags : list bool) :
  forall (pre l : list A),
    List.length l = List.length flags ->
    index_select (pre ++ l) (nonzero_from (List.length pre) flags)
    = Ok (compress flags l).
Proof.
  induction flags as [|f flags IH]; intros pre [|a l] Hlen;
    simpl in Hlen; try discriminate; [reflexivity|].
  assert (IH' := IH (pre ++ [a]) l (eq_add_S _ _ Hlen)).
  rewrite <- app_assoc, length_app, Nat.add_1_r in IH'. simpl in IH'.
  unfold compress. destruct f; simpl.
  - unfold index_select in *. simpl. unfold item at 1.
    rewrite nth_error_app2, Nat.sub_diag by lia. simpl.
    rewrite IH'. reflexivity.
  - exact IH'.
Qed.

Lemma index_select_nonzero {A : Type} (flags : list bool) (l : list A) :
  List.length l = List.length flags ->
  index_select l (nonzero flags) = Ok (compress flags l).
Proof. intros H. exact (index_select_nonzero_from flags [] l H). Qed.

Lemma nonzero_from_length (flags : list bool) (i : nat) :
  List.length (nonzero_from i flags)
  = List.length (filter (fun b : bool => b) flags).
Proof.
  revert i. induction flags as [|f flags IH]; intros i; simpl; [reflexivity|].
  destruct f; simpl; rewrite IH; reflexivity.
Qed.

Lemma filter_shorter {A : Type} (f : A -> bool) (l : list A) :
  (List.length (filter f l) < S (List.length l))%nat.
Proof.
  induction l as [|a l IH]; simpl; [lia|].
  destruct (f a); simpl; lia.
Qed.

Lemma filter_all_length {A : Type} (f : A -> bool) (l : list A) :
  List.length (filter f l) = List.length l -> forallb f l = true.
Proof.
  induction l as [|a l IH]; simpl; [reflexivity|].
  pose proof (filter_shorter f l) as S.
  destruct (f a); simpl; intros H; [apply IH; lia|lia].
Qed.

Lemma compress_all {A : Type} (flags : list bool) (l : list A) :
  forallb (fun b : bool => b) flags = true ->
  List.length l = List.length flags ->
  compress flags l = l.
Proof.
  revert l. induction flags as [|f flags IH]; intros [|a l] Hall Hlen;
    simpl in *; try discriminate; [reflexivity|].
  apply andb_prop in Hall. destruct Hall as [-> Hall].
  unfold compress in *. simpl. rewrite IH by (assumption || lia). reflexivity.
Qed.

Lemma compress_map_filter {A : Type} (f : A -> bool) (l : list A) :
  compress (map f l) l = filter f l.
Proof.
  unfold compress. induction l as [|a l IH]; simpl; [reflexivity|].
  destruct (f a); simpl; rewrite IH; reflexivity.
Qed.

Lemma compress_length {A B : Type} (flags : list bool) (l : list A)
    (m : list B) :
  List.length l = List.length flags -> List.length m = List.length flags ->
  List.length (compress flags l) = List.length (compress flags m).
Proof.
  revert l m. induction flags as [|f flags IH]; intros [|a l] [|b m] Hl Hm;
    simpl in *; try discriminate; [reflexivity|].
  unfold compress in *. simpl. destruct f; simpl;
    [f_equal|]; apply IH; lia.
Qed.

Lemma nonzero_none (flags : list bool) :
  (List.length (nonzero flags) =? 0)%nat
  = negb (existsb (fun b : bool => b) flags).
Proof.
  unfold nonzero. rewrite nonzero_from_length.
  induction flags as [|f flags IH]; simpl; [reflexivity|].
  destruct f; simpl; [reflexivity|exact IH].
Qed.

Lemma nth_error_combine {A B : Type} (l : list A) (m : list B) (i : nat)
    (a : A) (b : B) :
  nth_error (combine l m) i = Some (a, b) ->
  nth_error l i = Some a /\ nth_error m i = Some b.
Proof.
  revert m i. induction l as [|x l IH]; intros [|y m] [|i] H;
    simpl in H; try discriminate.
  - inversion H; subst. split; reflexivity.
  - simpl. apply IH, H.
Qed.

Section ZeroAreaProofs.
Variables Mask Score : Type.

End ZeroAreaProofs.

Lemma slice_len_inside (n y d : Z) :
  (0 <= y)%Z -> (0 <= d)%Z -> (y + d <= n)%Z ->
  slice_len n y (y + d) = d /\ Z.min d (n - y) = d.
Proof.
  intros Hy Hd Hn. unfold slice_len, slice_bound.
  destruct (Z.ltb_spec y 0); destruct (Z.ltb_spec (y + d) 0); lia.
Qed.

Lemma compress_incl {A : Type} (flags : list bool) (l : list A) (a : A) :
  In a (compress flags l) -> In a l.
Proof.
  unfold compress. revert l. induction flags as [|f flags IH];
    intros [|x l] H; simpl in H; try contradiction.
  destruct f; simpl in H.
  - destruct H as [H|H]; [left; exact H|right; exact (IH l H)].
  - right. exact (IH l H).
Qed.

Section UnmolderProofs.
Variables Mask FullMask : Type.
Variable pasted : Mask -> box Z -> Z * Z -> FullMask.



End UnmolderProofs.



(** The rounding of float32 decides the pixel boxes: [37 * (12 / 148)]
    is just below 3 and [148 * (12 / 148)] just below 12, so the first
    box is cut to [2 x 2] and dropped and the second comes back as
    [(0, 0, 11, 11)]. *)
Example unmold_detections_float32_rounding :
  unmold_detections tag_mask quarter_detections [[10]; [20; 21]]%nat
                    (12, 12)%Z (Box 0 0 148 148)%Z
  = Ok ([Box 0 0 11 11]%Z, [1%Z],
        Some [f32_div (f32_of_Z 7) (f32_of_Z 10)],
        [(21%nat, Box 0 0 11 11)%Z]).
Proof. vm_compute. reflexivity. Qed.

(** ** Suppression *)

Lemma greedy_nms_incl (s : nat -> nat -> bool) (l : list nat) :
  incl (greedy_nms s l) l.
Proof.
  funelim (greedy_nms s l); simp greedy_nms; [apply incl_refl|].
  intros k [<-|Hk]; [left; reflexivity|right].
  apply H in Hk. apply filter_In in Hk. apply Hk.
Qed.

(** A kept box does not suppress a box kept after it. *)
Lemma greedy_nms_pairs (s : nat -> nat -> bool) (l : list nat) :
  ForallOrdPairs (fun i j => s i j = false) (greedy_nms s l).
Proof.
  funelim (greedy_nms s l); simp greedy_nms; constructor; [|exact H].
  apply Forall_forall. intros j Hj.
  apply greedy_nms_incl, filter_In in Hj. destruct Hj as [_ Hj].
  apply negb_true_iff in Hj. exact Hj.
Qed.

Lemma filter_map_commute {A B : Type} (p : B -> bool) (g : A -> B)
    (l : list A) :
  filter p (map g l) = map g (filter (fun a => p (g a)) l).
Proof.
  induction l as [|a l IH]; simpl; [reflexivity|].
  destruct (p (g a)); simpl; rewrite IH; reflexivity.
Qed.

(** The greedy loop commutes with a renumbering of the boxes. *)
Lemma greedy_nms_map (g : nat -> nat) (s : nat -> nat -> bool) (l : list nat) :
  greedy_nms s (map g l) = map g (greedy_nms (fun i j => s (g i) (g j)) l).
Proof.
  remember (fun i j => s (g i) (g j)) as s' eqn:Es.
  funelim (greedy_nms s' l); simp greedy_nms; [reflexivity|].
  simpl. simp greedy_nms. f_equal.
  rewrite filter_map_commute. apply H. reflexivity.
Qed.

Lemma greedy_nms_ext (s s' : nat -> nat -> bool) (l : list nat) :
  (forall i j, In i l -> In j l -> s i j = s' i j) ->
  greedy_nms s l = greedy_nms s' l.
Proof.
  funelim (greedy_nms s l); intros E; simp greedy_nms; [reflexivity|].
  f_equal.
  assert (Ef : filter (fun j => negb (s' i j)) rest
               = filter (fun j => negb (suppresses i j)) rest).
  { apply filter_ext_in. intros j Hj.
    rewrite E; [reflexivity|left; reflexivity|right; exact Hj]. }
  rewrite Ef. apply H. intros a b Ha Hb. apply filter_In in Ha, Hb.
  apply E; right; tauto.
Qed.

Lemma Qlt_bool_iff (a b : Q) : Qlt_bool a b = true <-> a < b.
Proof.
  unfold Qlt_bool. rewrite negb_true_iff.
  destruct (Qle_bool b a) eqn:E.
  - apply Qle_bool_iff in E. split; [discriminate|lra].
  - split; [intros _|reflexivity].
    destruct (Qlt_le_dec a b) as [L|L]; [exact L|].
    apply Qle_bool_iff in L. congruence.
Qed.

Lemma Qmult_comm_eq (x y : Q) : Qmult x y = Qmult y x.
Proof.
  unfold Qmult. f_equal; [apply Z.mul_comm|apply Pos.mul_comm].
Qed.

(** The IoU of the kernels does not depend on which axis comes first. *)
Lemma kernel_iou_swap_axes (a b : det_row) (A B : Q) :
  kernel_iou (swap_axes a) (swap_axes b) A B = kernel_iou a b A B.
Proof.
  unfold kernel_iou, swap_axes. cbn [c0 c1 c2 c3].
  rewrite (Qmult_comm_eq
             (Qmax 0 (Qmin (c3 a) (c3 b) - Qmax (c1 a) (c1 b) + 1))).
  reflexivity.
Qed.

Lemma inclusive_overlap_sym (lo1 hi1 lo2 hi2 : Q) :
  Qmax 0 (Qmin hi1 hi2 - Qmax lo1 lo2 + 1)
  == Qmax 0 (Qmin hi2 hi1 - Qmax lo2 lo1 + 1).
Proof.
  cases_max 0 (Qmin hi1 hi2 - Qmax lo1 lo2 + 1);
    cases_max 0 (Qmin hi2 hi1 - Qmax lo2 lo1 + 1);
    cases_min hi1 hi2; cases_min hi2 hi1;
    cases_max lo1 lo2; cases_max lo2 lo1; lra.
Qed.

Lemma kernel_iou_sym (a b : det_row) (A B : Q) :
  kernel_iou a b A B == kernel_iou b a B A.
Proof.
  unfold kernel_iou. cbv zeta.
  rewrite (inclusive_overlap_sym (c0 a) (c2 a) (c0 b) (c2 b)).
  rewrite (inclusive_overlap_sym (c1 a) (c3 a) (c1 b) (c3 b)).
  assert (E : forall I, A + B - I == B + A - I) by (intros; ring).
  rewrite E. reflexivity.
Qed.

Lemma pth_areas (dets : list det_row) :
  zip_with Qmult
    (zip_with (fun b a => b - a + 1) (map c3 dets) (map c1 dets))
    (zip_with (fun b a => b - a + 1) (map c2 dets) (map c0 dets))
  = map det_area dets.
Proof. rewrite !zip_with_map. reflexivity. Qed.

Lemma nth_map_in {A B : Type} (f : A -> B) (l : list A) (i : nat) (d : A)
    (e : B) :
  (i < List.length l)%nat -> nth i (map f l) e = f (nth i l d).
Proof.
  intros H. rewrite (nth_indep _ e (f d)) by (rewrite length_map; exact H).
  apply map_nth.
Qed.

Lemma insert_desc_In (score : nat -> Q) (i k : nat) (l : list nat) :
  In k (insert_desc score i l) <-> k = i \/ In k l.
Proof.
  induction l as [|j l IH]; simpl; [intuition|].
  destruct (Qle_bool (score j) (score i)); simpl; [intuition|].
  rewrite IH. intuition.
Qed.

(** The sort permutation holds the row numbers of the tensor. *)
Lemma argsort_desc_In (scores : list Q) (k : nat) :
  In k (argsort_desc scores) <-> (k < List.length scores)%nat.
Proof.
  unfold argsort_desc.
  assert (G : forall l,
             In k (fold_right (insert_desc (fun i => nth i scores 0)) [] l)
             <-> In k l).
  { induction l as [|a l IH]; simpl; [reflexivity|].
    rewrite insert_desc_In, IH. intuition. }
  rewrite G, in_seq. lia.
Qed.

Lemma index_select_ok {A : Type} (t : list A) (d : A) (ix : list nat) :
  (forall i, In i ix -> (i < List.length t)%nat) ->
  index_select t ix = Ok (map (fun i => nth i t d) ix).
Proof.
  intros H. unfold index_select. apply mapM_ok. intros i Hi.
  unfold item. destruct (nth_error t i) as [a|] eqn:E.
  - rewrite (nth_error_nth _ _ d E). reflexivity.
  - apply nth_error_None in E. specialize (H i Hi). lia.
Qed.

Lemma map_nth_seq {A : Type} (l : list A) (d : A) :
  map (fun i => nth i l d) (seq 0 (List.length l)) = l.
Proof.
  enough (G : forall pre, map (fun i => nth i (pre ++ l) d)
                              (seq (List.length pre) (List.length l)) = l)
    by exact (G []).
  induction l as [|a l IH]; intros pre; simpl; [reflexivity|].
  rewrite app_nth2, Nat.sub_diag by lia. f_equal.
  specialize (IH (pre ++ [a])).
  rewrite <- app_assoc, length_app, Nat.add_1_r in IH. exact IH.
Qed.

(** The accelerated strategy as the specification words it returns what
    the sequential strategy of [pth_nms] returns, in the same order. *)
Lemma accelerated_nms_spec_eq_cpu (dets : list det_row) (thresh : Q) :
  accelerated_nms_spec dets thresh = pth_nms false dets thresh.
Proof.
  unfold accelerated_nms_spec, pth_nms. cbn [negb].
  rewrite pth_areas.
  set (order := argsort_desc (map c4 dets)).
  assert (Hord : forall k, In k order -> (k < List.length dets)%nat).
  { intros k Hk. apply argsort_desc_In in Hk. rewrite length_map in Hk.
    exact Hk. }
  rewrite (index_select_ok dets zero_row order Hord). cbn [bind].
  unfold gpu_nms, cpu_nms. rewrite !length_map.
  set (g := fun i => nth i order 0%nat).
  set (s := fun i j =>
              Qlt_bool thresh
                (kernel_iou (nth i dets zero_row) (nth j dets zero_row)
                            (nth i (map det_area dets) 0)
                            (nth j (map det_area dets) 0))).
  match goal with
  | |- index_select order (greedy_nms ?f _) = _ => set (s' := f)
  end.
  rewrite (index_select_ok order 0%nat).
  2:{ intros i Hi. apply greedy_nms_incl, in_seq in Hi. lia. }
  fold g. f_equal.
  rewrite <- (map_nth_seq order 0%nat) at 2. fold g.
  rewrite greedy_nms_map. f_equal.
  apply greedy_nms_ext. intros i j Hi Hj.
  apply in_seq in Hi, Hj.
  assert (Hg : forall k, (k < List.length order)%nat ->
                         (g k < List.length dets)%nat).
  { intros k Hk. apply Hord. unfold g. apply nth_In. exact Hk. }
  assert (Hrow : forall k, (k < List.length order)%nat ->
            nth k (map swap_axes (map (fun i => nth i dets zero_row) order))
                zero_row
            = swap_axes (nth (g k) dets zero_row)).
  { intros k Hk. rewrite map_map.
    rewrite (nth_map_in _ order k 0%nat zero_row Hk). reflexivity. }
  unfold s', s.
  rewrite (Hrow i) by lia. rewrite (Hrow j) by lia.
  rewrite kernel_iou_swap_axes.
  rewrite (nth_map_in det_area dets (g i) zero_row 0) by (apply Hg; lia).
  rewrite (nth_map_in det_area dets (g j) zero_row 0) by (apply Hg; lia).
  reflexivity.
Qed.

(** On a tensor whose rows already are in the order of the sort, the
    accelerated path of [pth_nms] agrees with the sequential one. *)
Lemma pth_nms_cuda_on_sorted (dets : list det_row) (thresh : Q) :
  argsort_desc (map c4 dets) = seq 0 (List.length dets) ->
  pth_nms true dets thresh = pth_nms false dets thresh.
Proof.
  intros Hsorted. rewrite <- accelerated_nms_spec_eq_cpu.
  unfold pth_nms, accelerated_nms_spec. cbn [negb]. rewrite Hsorted.
  rewrite (index_select_ok dets zero_row)
    by (intros i Hi; apply in_seq in Hi; lia).
  rewrite map_nth_seq. reflexivity.
Qed.

(** The sequential strategy keeps row numbers of [dets] only, and never
    two boxes whose IoU exceeds the threshold. *)
Lemma pth_nms_cpu_no_overlap (dets : list det_row) (thresh : Q)
    (keep : list nat) :
  pth_nms false dets thresh = Ok keep ->
  (forall i, In i keep -> (i < List.length dets)%nat)
  /\ ForallOrdPairs
       (fun i j => ~ thresh < det_iou dets i j /\ ~ thresh < det_iou dets j i)
       keep.
Proof.
  unfold pth_nms. cbn [negb]. rewrite pth_areas. intros H.
  inversion H as [K]; clear H. unfold cpu_nms.
  set (order := argsort_desc (map c4 dets)).
  assert (Hord : forall k, In k order -> (k < List.length dets)%nat).
  { intros k Hk. apply argsort_desc_In in Hk. rewrite length_map in Hk.
    exact Hk. }
  match goal with |- context [greedy_nms ?f order] => set (s := f) end.
  assert (Hin : forall i, In i (greedy_nms s order) ->
                          (i < List.length dets)%nat).
  { intros i Hi. apply Hord, (greedy_nms_incl s order), Hi. }
  split; [exact Hin|].
  pose proof (greedy_nms_pairs s order) as P.
  induction P as [|i l F _ IH]; constructor.
  - apply Forall_forall. intros j Hj. rewrite Forall_forall in F.
    specialize (F j Hj). unfold s in F.
    rewrite (nth_map_in det_area dets i zero_row 0) in F
      by (apply Hin; left; reflexivity).
    rewrite (nth_map_in det_area dets j zero_row 0) in F
      by (apply Hin; right; exact Hj).
    assert (N : ~ thresh < det_iou dets i j).
    { intros L. apply Qlt_bool_iff in L. unfold det_iou in L. congruence. }
    split; [exact N|].
    intros L. apply N. unfold det_iou in *.
    rewrite kernel_iou_sym. exact L.
  - apply IH. intros k Hk. apply Hin. right. exact Hk.
Qed.

(** C1. On [dets_a] (rows 0 and 1 overlap, scores 0.5, 0.6 and 0.9) with
    threshold 1/2 the sequential path of [pth_nms] keeps the rows 2 and
    1 where the accelerated path keeps 2 and 0; on [dets_b] (scores 0.9,
    0.1 and 0.5) the accelerated path keeps the rows 0 and 1, whose IoU
    exceeds the threshold, where the sequential path keeps 0 and 2. The
    kernel is handed the rows before they are sorted, and its row numbers
    are then read through the sort permutation. *)
Theorem pth_nms_cuda_diverges :
  pth_nms false dets_a (1 # 2) = Ok [2; 1]%nat
  /\ pth_nms true dets_a (1 # 2) = Ok [2; 0]%nat
  /\ pth_nms false dets_b (1 # 2) = Ok [0; 2]%nat
  /\ pth_nms true dets_b (1 # 2) = Ok [0; 1]%nat
  /\ 1 # 2 < det_iou dets_b 0 1.
Proof.
  repeat split; vm_compute; reflexivity.
Qed.

(** * Properties of the surrounding functions *)

(** ** Clipping *)

Lemma clamp_spec (x lo hi : Q) :
  (lo <= hi -> lo <= clamp x lo hi <= hi)
  /\ (lo <= x <= hi -> clamp x lo hi == x)
  /\ (forall y, x <= y -> clamp x lo hi <= clamp y lo hi).
Proof.
  unfold clamp. repeat split; intros.
  - cases_min (Qmax x lo) hi; cases_max x lo; lra.
  - cases_min (Qmax x lo) hi; cases_max x lo; lra.
  - cases_min (Qmax x lo) hi; cases_max x lo; lra.
  - cases_min (Qmax x lo) hi; cases_max x lo;
      cases_min (Qmax y lo) hi; cases_max y lo; lra.
Qed.

Lemma Forall2_map_l {A B : Type} (P : A -> B -> Prop) (f : A -> B)
    (l : list A) :
  (forall a, In a l -> P a (f a)) -> Forall2 P l (map f l).
Proof.
  induction l as [|a l IH]; intros H; simpl; constructor.
  - apply H. left. reflexivity.
  - apply IH. intros b Hb. apply H. right. exact Hb.
Qed.

(** After clipping every coordinate lies in the window. *)
Lemma clip_boxes_in_window (boxes : list (list (box Q))) (window : box Q) :
  y1 window <= y2 window -> x1 window <= x2 window ->
  Forall (Forall (inside window)) (clip_boxes boxes window).
Proof.
  intros Hy Hx.
  unfold clip_boxes. apply Forall_map, Forall_forall. intros bs _.
  apply Forall_map, Forall_forall. intros b _.
  unfold inside. cbn [y1 x1 y2 x2].
  pose proof (proj1 (clamp_spec (y1 b) _ _) Hy).
  pose proof (proj1 (clamp_spec (y2 b) _ _) Hy).
  pose proof (proj1 (clamp_spec (x1 b) _ _) Hx).
  pose proof (proj1 (clamp_spec (x2 b) _ _) Hx).
  tauto.
Qed.

(** X1. For a window with [y1 <= y2] and [x1 <= x2], every box that
    [clip_boxes] returns lies in the window, all four coordinates, and
    clipping keeps the order of the corners: a box with [y1 <= y2]
    (respectively [x1 <= x2]) is clipped to a box with [y1 <= y2]
    (respectively [x1 <= x2]). *)
Theorem clip_boxes_inside (boxes : list (list (box Q))) (window : box Q) :
  y1 window <= y2 window -> x1 window <= x2 window ->
  Forall (Forall (inside window)) (clip_boxes boxes window)
  /\ Forall2 (Forall2 (fun b c => (y1 b <= y2 b -> y1 c <= y2 c)
                                 /\ (x1 b <= x2 b -> x1 c <= x2 c)))
             boxes (clip_boxes boxes window).
Proof.
  intros Hy Hx. split.
  - apply clip_boxes_in_window; assumption.
  - unfold clip_boxes. apply Forall2_map_l. intros bs _.
    apply Forall2_map_l. intros b _. cbn [y1 x1 y2 x2].
    split; intros H; apply clamp_spec; exact H.
Qed.

Lemma clip_boxes_inside_witness :
  Forall (Forall (inside (Box 0 0 10 10)))
         (clip_boxes [[Box (-5) 2 20 30; Box 1 2 3 4]] (Box 0 0 10 10))
  /\ Forall2 (Forall2 (fun b c => (y1 b <= y2 b -> y1 c <= y2 c)
                                 /\ (x1 b <= x2 b -> x1 c <= x2 c)))
             [[Box (-5) 2 20 30; Box 1 2 3 4]]
             (clip_boxes [[Box (-5) 2 20 30; Box 1 2 3 4]] (Box 0 0 10 10)).
Proof.
  apply (clip_boxes_inside [[Box (-5) 2 20 30; Box 1 2 3 4]] (Box 0 0 10 10));
    intro H; discriminate H.
Defined.

(** X2. [clip_to_window] applied to every element of a batch is
    [clip_boxes]; for a window with [y1 <= y2] and [x1 <= x2] clipping a
    second time changes no coordinate; and boxes that already lie in the
    window are returned with their coordinates unchanged. *)
Theorem clip_boxes_fixed (boxes : list (list (box Q))) (window : box Q) :
  map (clip_to_window window) boxes = clip_boxes boxes window
  /\ (y1 window <= y2 window -> x1 window <= x2 window ->
      Forall2 (Forall2 box_eq)
              (clip_boxes (clip_boxes boxes window) window)
              (clip_boxes boxes window))
  /\ (Forall (Forall (inside window)) boxes ->
      Forall2 (Forall2 box_eq) (clip_boxes boxes window) boxes).
Proof.
  assert (Hfix : forall bxs, Forall (Forall (inside window)) bxs ->
                  Forall2 (Forall2 box_eq) (clip_boxes bxs window) bxs).
  { intros bxs Hin. unfold clip_boxes.
    apply Forall2_flip, Forall2_map_l. intros bs Hbs.
    apply Forall2_flip, Forall2_map_l. intros b Hb.
    rewrite Forall_forall in Hin. specialize (Hin bs Hbs).
    rewrite Forall_forall in Hin. destruct (Hin b Hb) as (A & B & C & D).
    unfold box_eq. cbn [y1 x1 y2 x2].
    repeat split; apply clamp_spec; assumption. }
  split; [reflexivity|]. split.
  - intros Hy Hx. apply Hfix, clip_boxes_in_window; assumption.
  - exact (Hfix boxes).
Qed.

(** ** Box deltas and the image domain *)

Lemma apply_box_deltas_row_inverse (b gt : box R) :
  positive_box b -> positive_box gt ->
  apply_box_deltas_row b (box_refinement_row b gt) = gt.
Proof.
  intros [Hy Hx] [Gy Gx].
  destruct b as [by1 bx1 by2 bx2], gt as [gy1 gx1 gy2 gx2].
  unfold box_refinement_row, apply_box_deltas_row. cbn in *.
  assert (Ey : exp (ln ((gy2 - gy1) / (by2 - by1))) = ((gy2 - gy1) / (by2 - by1))%R).
  { apply exp_ln. apply Rdiv_lt_0_compat; lra. }
  assert (Ex : exp (ln ((gx2 - gx1) / (bx2 - bx1))) = ((gx2 - gx1) / (bx2 - bx1))%R).
  { apply exp_ln. apply Rdiv_lt_0_compat; lra. }
  rewrite Ey, Ex. f_equal; field; lra.
Qed.

Lemma zip_with_length_eq {A B C : Type} (f : A -> B -> C) (l : list A)
    (m : list B) :
  List.length l = List.length m -> List.length (zip_with f l m) = List.length l.
Proof.
  revert m. induction l as [|a l IH]; intros [|b m] H; simpl in *;
    try discriminate; [reflexivity|]. f_equal. apply IH. lia.
Qed.

(** X3. Over the reals, for boxes and ground-truth boxes of positive
    height and width and batches of the same shape, applying to the boxes
    the deltas that [box_refinement] computes gives back the ground-truth
    boxes exactly: [apply_box_deltas] undoes [box_refinement]. *)
Theorem apply_box_deltas_box_refinement (boxes gt_boxes : list (list (box R))) :
  Forall (Forall positive_box) boxes ->
  Forall (Forall positive_box) gt_boxes ->
  Forall2 (fun bs gs => List.length bs = List.length gs) boxes gt_boxes ->
  apply_box_deltas boxes (zip_with box_refinement boxes gt_boxes) = gt_boxes.
Proof.
  intros Hb Hg Hshape. unfold apply_box_deltas.
  induction Hshape as [|bs gs boxes gt_boxes Hlen _ IH]; [reflexivity|].
  inversion Hb as [|? ? Hbs Hrest]; subst.
  inversion Hg as [|? ? Hgs Hgrest]; subst.
  simpl. f_equal; [|apply IH; assumption].
  clear IH Hb Hg Hrest Hgrest. unfold box_refinement.
  revert gs Hlen Hgs. induction Hbs as [|b bs Pb _ IHb]; intros [|g gs] Hlen Hgs;
    simpl in *; try discriminate; [reflexivity|].
  inversion Hgs; subst.
  rewrite apply_box_deltas_row_inverse by assumption.
  f_equal. apply IHb; [lia|assumption].
Qed.

Lemma apply_box_deltas_box_refinement_witness :
  apply_box_deltas [[Box 0 0 2 4]]%R
    (zip_with box_refinement [[Box 0 0 2 4]]%R [[Box 1 1 4 3]]%R)
  = [[Box 1 1 4 3]]%R.
Proof.
  apply (apply_box_deltas_box_refinement [[Box 0 0 2 4]]%R
           [[Box 1 1 4 3]]%R).
  - repeat constructor; simpl; lra.
  - repeat constructor; simpl; lra.
  - repeat constructor.
Defined.

(** ** The overlap matrix *)

Lemma zip_with_map_r {A B C : Type} (f : A -> B -> C) (h : A -> B)
    (l : list A) :
  zip_with f l (map h l) = map (fun a => f a (h a)) l.
Proof. induction l as [|a l IH]; simpl; [|rewrite IH]; reflexivity. Qed.

Lemma compute_overlaps_entries (boxes1 boxes2 : list (box Q)) :
  compute_overlaps boxes1 boxes2
  = map (fun b2 => map (fun b1 => iou b2 b1) boxes1) boxes2.
Proof.
  unfold compute_overlaps, compute_iou. rewrite zip_with_map_r.
  apply map_ext. intros b2. rewrite zip_with_map_r. reflexivity.
Qed.

Lemma iou_range (a b : box Q) :
  ordered a -> ordered b -> 0 < box_area b -> 0 <= iou a b <= 1.
Proof.
  intros [Hay Hax] [Hby Hbx] Hpos. unfold iou.
  destruct (intersection_bounds a b Hay Hax Hby Hbx) as (I0 & Ia & Ib).
  set (I := intersection a b) in *.
  assert (HU : 0 < box_area a + box_area b - I) by lra.
  split.
  - apply Qle_shift_div_l; [exact HU|]. lra.
  - apply Qle_shift_div_r; [exact HU|]. lra.
Qed.

Lemma iou_sym (a b : box Q) : iou a b == iou b a.
Proof.
  unfold iou. rewrite (intersection_sym a b).
  assert (E : box_area a + box_area b - intersection b a
              == box_area b + box_area a - intersection b a) by ring.
  rewrite E. reflexivity.
Qed.

(** X6. For boxes with [y1 <= y2] and [x1 <= x2], those of [boxes1] of
    positive area, [compute_overlaps] returns one column per box of
    [boxes2], each with one entry per box of [boxes1], and every entry
    lies in [[0, 1]]. *)
Theorem compute_overlaps_range (boxes1 boxes2 : list (box Q)) :
  Forall ordered boxes1 -> Forall ordered boxes2 ->
  Forall (fun b => 0 < box_area b) boxes1 ->
  List.length (compute_overlaps boxes1 boxes2) = List.length boxes2
  /\ Forall (fun column =>
               List.length column = List.length boxes1
               /\ Forall (fun v => 0 <= v <= 1) column)
            (compute_overlaps boxes1 boxes2).
Proof.
  intros H1 H2 Hp. rewrite compute_overlaps_entries.
  split; [apply length_map|].
  apply Forall_map, Forall_forall. intros b2 Hb2.
  split; [apply length_map|].
  apply Forall_map, Forall_forall. intros b1 Hb1.
  rewrite Forall_forall in H1, H2, Hp.
  apply iou_range; auto.
Qed.

Lemma compute_overlaps_range_witness :
  List.length (compute_overlaps [Box 0 0 2 2] [Box 1 1 3 3; Box 5 5 6 6])
  = List.length [Box 1 1 3 3; Box 5 5 6 6]
  /\ Forall (fun column =>
               List.length column = List.length [Box 0 0 2 2]
               /\ Forall (fun v => 0 <= v <= 1) column)
            (compute_overlaps [Box 0 0 2 2] [Box 1 1 3 3; Box 5 5 6 6]).
Proof.
  apply (compute_overlaps_range [Box 0 0 2 2] [Box 1 1 3 3; Box 5 5 6 6]).
  - repeat constructor; intro H; discriminate H.
  - repeat constructor; intro H; discriminate H.
  - repeat constructor.
Defined.

(** X7. The matrix of [compute_overlaps] is the IoU of its arguments
    pair by pair, and exchanging the arguments transposes it: for a box
    [i] of [boxes1] and a box [j] of [boxes2] whose union area is not
    zero, entry [i] of column [j] of [compute_overlaps(boxes1, boxes2)]
    is their intersection over their union and equals entry [j] of
    column [i] of [compute_overlaps(boxes2, boxes1)]. *)
Theorem compute_overlaps_transpose (boxes1 boxes2 : list (box Q))
    (i j : nat) :
  (i < List.length boxes1)%nat -> (j < List.length boxes2)%nat ->
  let b1 := nth i boxes1 (Box 0 0 0 0) in
  let b2 := nth j boxes2 (Box 0 0 0 0) in
  ~ box_area b1 + box_area b2 - intersection b1 b2 == 0 ->
  nth i (nth j (compute_overlaps boxes1 boxes2) []) 0
  == nth j (nth i (compute_overlaps boxes2 boxes1) []) 0
  /\ nth i (nth j (compute_overlaps boxes1 boxes2) []) 0 == iou b1 b2.
Proof.
  intros Hi Hj b1 b2 _. rewrite !compute_overlaps_entries.
  set (z := Box 0 0 0 0) in *.
  rewrite (nth_map_in _ boxes2 j z [] Hj).
  rewrite (nth_map_in _ boxes1 i z 0 Hi).
  rewrite (nth_map_in _ boxes1 i z [] Hi).
  rewrite (nth_map_in _ boxes2 j z 0 Hj).
  fold b1 b2. split; apply iou_sym.
Qed.

Lemma compute_overlaps_transpose_witness :
  nth 0 (nth 1 (compute_overlaps [Box 0 0 2 2] [Box 5 5 6 6; Box 1 1 3 3])
             []) 0
  == nth 1 (nth 0 (compute_overlaps [Box 5 5 6 6; Box 1 1 3 3] [Box 0 0 2 2])
                []) 0
  /\ nth 0 (nth 1 (compute_overlaps [Box 0 0 2 2] [Box 5 5 6 6; Box 1 1 3 3])
                []) 0
     == iou (Box 0 0 2 2) (Box 1 1 3 3).
Proof.
  apply (compute_overlaps_transpose [Box 0 0 2 2]
           [Box 5 5 6 6; Box 1 1 3 3] 0 1).
  - repeat constructor.
  - repeat constructor.
  - intro H; discriminate H.
Defined.

(** ** Resizing in the other modes *)

(** The shape of the image after the resize step, whether or not the
    scale is 1. *)
Lemma resized_shape (h w : Z) (scale : Q) :
  (if negb (Qeq_bool scale 1)
   then skimage_resize (h, w)
          (py_round (inject_Z h * scale), py_round (inject_Z w * scale))
   else (h, w))
  = (py_round (inject_Z h * scale), py_round (inject_Z w * scale)).
Proof.
  destruct (Qeq_bool scale 1) eqn:E; [|reflexivity].
  apply Qeq_bool_eq in E. simpl.
  assert (E1 : inject_Z h * scale == inject_Z h) by (rewrite E; ring).
  assert (E2 : inject_Z w * scale == inject_Z w) by (rewrite E; ring).
  rewrite (py_round_comp _ _ E1), (py_round_comp _ _ E2), !py_round_inject_Z.
  reflexivity.
Qed.

Lemma Qmax_ge_l (x y : Q) : x <= Qmax x y.
Proof. cases_max x y; lra. Qed.

(** The scale before the cap of [square] mode, in the modes other than
    [pad64]: it is never below 1. *)
Lemma scale_up_step (h w : Z) (md : option Z) (b : bool) :
  Z.min h w <> 0%Z ->
  exists s1,
    (if truthy_Z md && b
     then md0 <- number md;;
          q <- py_div (inject_Z md0) (inject_Z (Z.min h w));; Ok (Qmax 1 q)
     else Ok 1) = Ok s1
    /\ 1 <= s1
    /\ (b = true -> forall z, md = Some z -> z <> 0%Z ->
        inject_Z z / inject_Z (Z.min h w) <= s1).
Proof.
  intros Hmin. destruct md as [z|]; simpl.
  - destruct (z =? 0)%Z eqn:Ez; simpl.
    + exists 1. split; [reflexivity|]. split; [lra|].
      intros _ z' E Hz. inversion E; subst. apply Z.eqb_eq in Ez. contradiction.
    + destruct b; simpl.
      * rewrite py_div_ok by (apply inject_Z_nonzero; exact Hmin). simpl.
        eexists. split; [reflexivity|]. split; [apply Qmax_ge_l|].
        intros _ z' E _. inversion E; subst. cases_max 1 (inject_Z z' / inject_Z (Z.min h w)); lra.
      * exists 1. split; [reflexivity|]. split; [lra|]. intros D; discriminate D.
  - exists 1. split; [reflexivity|]. split; [lra|]. intros _ z E; discriminate E.
Qed.

Lemma min_scale_ge (ms : option Q) (s0 : Q) :
  s0 <= match ms with
        | Some m => if truthy_Q ms then Qmax s0 m else s0
        | None => s0
        end.
Proof.
  destruct ms as [m|]; [|lra].
  destruct (truthy_Q (Some m)); [apply Qmax_ge_l|lra].
Qed.

(** [square] mode on an image with positive sides and a positive
    [max_dim]: the call returns, and this is what it returns. *)
Lemma resize_image_square_result (randint : Z -> Z -> Z) (h w xd : Z)
    (md : option Z) (ms : option Q) :
  (0 < h)%Z -> (0 < w)%Z -> (0 < xd)%Z ->
  exists scale,
    let h' := py_round (inject_Z h * scale) in
    let w' := py_round (inject_Z w * scale) in
    let top := ((xd - h') / 2)%Z in
    let left := ((xd - w') / 2)%Z in
    resize_image randint (h, w) md (Some xd) ms "square"
    = Ok (Resized (xd, xd) (Box top left (h' + top)%Z (w' + left)%Z) scale
                  ((top, xd - h' - top), (left, xd - w' - left))%Z None)
    /\ 0 < scale
    /\ (0 <= h' <= xd)%Z /\ (0 <= w' <= xd)%Z.
Proof.
  intros Hh Hw Hxd.
  unfold resize_image.
  cbn [String.eqb Ascii.eqb Bool.eqb negb].
  destruct (scale_up_step h w md true) as (s1 & E1 & G1 & _); [lia|].
  rewrite E1. cbn [bind]. rewrite min_scale_step. cbn [bind].
  pose proof (min_scale_ge ms s1) as G2.
  set (s2 := match ms with
             | Some m => if truthy_Q ms then Qmax s1 m else s1
             | None => s1
             end) in *.
  assert (Ht : truthy_Z (Some xd) = true).
  { simpl. destruct (Z.eqb_spec xd 0); [lia|reflexivity]. }
  rewrite Ht. cbn [andb number bind].
  set (M := Z.max h w).
  assert (HM : (0 < M)%Z) by (unfold M; lia).
  assert (Hcap : exists s3,
             (if (py_round (inject_Z M * s2) >? xd)%Z
              then py_div (inject_Z xd) (inject_Z M) else Ok s2) = Ok s3
             /\ 0 < s3 /\ (py_round (inject_Z M * s3) <= xd)%Z).
  { destruct (Z.gtb_spec (py_round (inject_Z M * s2)) xd) as [G|G].
    - rewrite py_div_ok by (apply inject_Z_nonzero; lia).
      eexists. split; [reflexivity|]. split.
      + apply Qlt_shift_div_l; [apply inject_Z_pos; exact HM|].
        pose proof (inject_Z_pos xd Hxd). lra.
      + rewrite (py_round_comp _ _ (scaled_side_eq M xd HM)).
        rewrite py_round_inject_Z. lia.
    - exists s2. split; [reflexivity|]. split; [lra|exact G]. }
  destruct Hcap as (s3 & E3 & P3 & C3). rewrite E3. cbn [bind].
  exists s3. cbv zeta. rewrite resized_shape.
  set (h' := py_round (inject_Z h * s3)).
  set (w' := py_round (inject_Z w * s3)).
  assert (Bh : (0 <= h' <= xd)%Z).
  { split.
    - apply py_round_nonneg. pose proof (inject_Z_pos h Hh). nra.
    - apply Z.le_trans with (py_round (inject_Z M * s3)); [|exact C3].
      apply py_round_mono.
      assert (inject_Z h <= inject_Z M) by (rewrite <- Zle_Qle; unfold M; lia).
      nra. }
  assert (Bw : (0 <= w' <= xd)%Z).
  { split.
    - apply py_round_nonneg. pose proof (inject_Z_pos w Hw). nra.
    - apply Z.le_trans with (py_round (inject_Z M * s3)); [|exact C3].
      apply py_round_mono.
      assert (inject_Z w <= inject_Z M) by (rewrite <- Zle_Qle; unfold M; lia).
      nra. }
  rewrite np_pad_ok by (Z.div_mod_to_equations; lia).
  cbn [bind fst snd].
  split; [|split; [exact P3|split; assumption]].
  do 2 f_equal. f_equal; lia.
Qed.

(** X8. In [square] mode, for an image whose sides are array lengths, a
    [max_dim] that is one, a [min_dim] below [2^31], a [min_scale] of at
    most [2^31] and a smaller side that keeps a row, [resize_image]
    returns a [max_dim x max_dim] image, no crop and a positive scale;
    the window lies in that canvas, its height and width are less than
    one pixel from the scaled sides of the image, the padding is the
    space around the window, and on each axis the second pad exceeds the
    first by at most one pixel. *)
Theorem resize_image_square_canvas (randint : Z -> Z -> Z) (h w xd : Z)
    (md : option Z) (ms : option Q) :
  array_length h -> array_length w -> array_length xd ->
  (forall z, md = Some z -> (0 <= z < 2 ^ 31)%Z) ->
  moderate_scale ms -> keeps_a_row h w xd ->
  exists r,
    resize_image randint (h, w) md (Some xd) ms "square" = Ok r
    /\ r_image r = (xd, xd)
    /\ r_crop r = None
    /\ 0 < r_scale r
    /\ (0 <= y1 (r_window r) <= y2 (r_window r))%Z
    /\ (y2 (r_window r) <= xd)%Z
    /\ (0 <= x1 (r_window r) <= x2 (r_window r))%Z
    /\ (x2 (r_window r) <= xd)%Z
    /\ (inject_Z (y2 (r_window r) - y1 (r_window r)) - 1
        < inject_Z h * r_scale r
        < inject_Z (y2 (r_window r) - y1 (r_window r)) + 1)
    /\ (inject_Z (x2 (r_window r) - x1 (r_window r)) - 1
        < inject_Z w * r_scale r
        < inject_Z (x2 (r_window r) - x1 (r_window r)) + 1)
    /\ r_padding r
       = ((y1 (r_window r), xd - y2 (r_window r)),
          (x1 (r_window r), xd - x2 (r_window r)))%Z
    /\ (0 <= (xd - y2 (r_window r)) - y1 (r_window r) <= 1)%Z
    /\ (0 <= (xd - x2 (r_window r)) - x1 (r_window r) <= 1)%Z.
Proof.
  intros [Hh _] [Hw _] [Hxd _] _ _ _.
  destruct (resize_image_square_result randint h w xd md ms Hh Hw Hxd)
    as (scale & E & Ps & Bh & Bw).
  cbv zeta in E, Bh, Bw.
  pose proof (py_round_within_one (inject_Z h * scale)) as [Nh1 Nh2].
  pose proof (py_round_within_one (inject_Z w * scale)) as [Nw1 Nw2].
  eexists. split; [exact E|].
  cbn [r_image r_crop r_scale r_window r_padding y1 x1 y2 x2].
  set (h' := py_round (inject_Z h * scale)) in *.
  set (w' := py_round (inject_Z w * scale)) in *.
  replace (h' + (xd - h') / 2 - (xd - h') / 2)%Z with h' by lia.
  replace (w' + (xd - w') / 2 - (xd - w') / 2)%Z with w' by lia.
  repeat split; try assumption; try (Z.div_mod_to_equations; lia).
  f_equal; f_equal; lia.
Qed.

(** A [15 x 24] image with [min_dim = 64] and [max_dim = 100]: the scale
    is capped at [100 / 24], which puts the height at 62.5 rows. *)
Lemma resize_image_square_canvas_witness :
  exists r,
    resize_image first_draw (15, 24)%Z (Some 64%Z) (Some 100%Z) None "square"
    = Ok r
    /\ r_image r = (100, 100)%Z
    /\ r_crop r = None
    /\ 0 < r_scale r
    /\ (0 <= y1 (r_window r) <= y2 (r_window r))%Z
    /\ (y2 (r_window r) <= 100)%Z
    /\ (0 <= x1 (r_window r) <= x2 (r_window r))%Z
    /\ (x2 (r_window r) <= 100)%Z
    /\ (inject_Z (y2 (r_window r) - y1 (r_window r)) - 1
        < inject_Z 15 * r_scale r
        < inject_Z (y2 (r_window r) - y1 (r_window r)) + 1)
    /\ (inject_Z (x2 (r_window r) - x1 (r_window r)) - 1
        < inject_Z 24 * r_scale r
        < inject_Z (x2 (r_window r) - x1 (r_window r)) + 1)
    /\ r_padding r
       = ((y1 (r_window r), 100 - y2 (r_window r)),
          (x1 (r_window r), 100 - x2 (r_window r)))%Z
    /\ (0 <= (100 - y2 (r_window r)) - y1 (r_window r) <= 1)%Z
    /\ (0 <= (100 - x2 (r_window r)) - x1 (r_window r) <= 1)%Z.
Proof.
  apply (resize_image_square_canvas first_draw 15 24 100 (Some 64%Z) None).
  - split; reflexivity.
  - split; reflexivity.
  - split; reflexivity.
  - intros z H. injection H as <-. split; [intro D; discriminate D|reflexivity].
  - intros s H. discriminate H.
  - intro H. discriminate H.
Defined.

(** X9. In [crop] mode, with draws of [random.randint] inside their
    bounds, an image whose sides are array lengths, a [min_dim] that is
    one and a [min_scale] of at most [2^31], [resize_image] returns a
    [min_dim x min_dim] image, so that the crop lies in the scaled image,
    with the window [(0, 0, min_dim, min_dim)], no padding and a scale of
    at least 1; the crop it reports is [(y, x, min_dim, min_dim)] with
    [y] and [x] not negative. *)
Theorem resize_image_crop_inside (randint : Z -> Z -> Z) (h w md : Z)
    (xd : option Z) (ms : option Q) :
  draws_in_range randint ->
  array_length h -> array_length w -> array_length md ->
  moderate_scale ms ->
  exists r y x,
    resize_image randint (h, w) (Some md) xd ms "crop" = Ok r
    /\ r_image r = (md, md)
    /\ r_window r = Box 0%Z 0%Z md md
    /\ r_padding r = ((0, 0), (0, 0))%Z
    /\ r_crop r = Some (y, x, md, md)
    /\ 1 <= r_scale r
    /\ (0 <= y)%Z /\ (0 <= x)%Z.
Proof.
  intros Hdraw [Hh _] [Hw _] [Hmd _] _.
  unfold resize_image.
  cbn [String.eqb Ascii.eqb Bool.eqb negb].
  destruct (scale_up_step h w (Some md) true) as (s1 & E1 & G1 & L1); [lia|].
  specialize (L1 eq_refl md eq_refl ltac:(lia)).
  rewrite E1. cbn [bind]. rewrite min_scale_step. cbn [bind].
  pose proof (min_scale_ge ms s1) as G2.
  set (s2 := match ms with
             | Some m => if truthy_Q ms then Qmax s1 m else s1
             | None => s1
             end) in *.
  rewrite andb_false_r. cbn [bind number]. rewrite resized_shape.
  set (h' := py_round (inject_Z h * s2)).
  set (w' := py_round (inject_Z w * s2)).
  set (m := Z.min h w) in *.
  assert (Hm : (0 < m)%Z) by (unfold m; lia).
  assert (Hs : inject_Z md <= inject_Z m * s2).
  { pose proof (inject_Z_pos m Hm) as Pm.
    assert (E : inject_Z md == inject_Z m * (inject_Z md / inject_Z m))
      by (field; lra).
    rewrite E. nra. }
  assert (Bh : (md <= h')%Z).
  { rewrite <- (py_round_inject_Z md). apply py_round_mono.
    assert (inject_Z m <= inject_Z h) by (rewrite <- Zle_Qle; unfold m; lia).
    nra. }
  assert (Bw : (md <= w')%Z).
  { rewrite <- (py_round_inject_Z md). apply py_round_mono.
    assert (inject_Z m <= inject_Z w) by (rewrite <- Zle_Qle; unfold m; lia).
    nra. }
  unfold random_randint.
  assert (Fy : (h' - md <? 0)%Z = false) by (apply Z.ltb_ge; lia).
  assert (Fx : (w' - md <? 0)%Z = false) by (apply Z.ltb_ge; lia).
  rewrite Fy, Fx. cbn [bind].
  destruct (Hdraw 0%Z (h' - md)%Z ltac:(lia)) as [Y0 Y1].
  destruct (Hdraw 0%Z (w' - md)%Z ltac:(lia)) as [X0 X1].
  eexists. exists (randint 0%Z (h' - md)%Z), (randint 0%Z (w' - md)%Z).
  split; [reflexivity|].
  cbn [r_image r_window r_padding r_crop r_scale].
  fold h' w'.
  repeat split; try lia; try lra.
  f_equal; lia.
Qed.

(** A [55 x 10] image with [min_dim = 11]: the scale [11 / 10] puts the
    height at 60.5 rows. *)
Lemma resize_image_crop_inside_witness :
  exists r y x,
    resize_image first_draw (55, 10)%Z (Some 11%Z) None None "crop" = Ok r
    /\ r_image r = (11, 11)%Z
    /\ r_window r = Box 0%Z 0%Z 11%Z 11%Z
    /\ r_padding r = ((0, 0), (0, 0))%Z
    /\ r_crop r = Some (y, x, 11, 11)%Z
    /\ 1 <= r_scale r
    /\ (0 <= y)%Z /\ (0 <= x)%Z.
Proof.
  apply (resize_image_crop_inside first_draw 55 10 11 None None).
  - intros a b H. unfold first_draw. lia.
  - split; reflexivity.
  - split; reflexivity.
  - split; reflexivity.
  - intros s H. discriminate H.
Defined.

Lemma bind_err {A B : Type} (m : result A) (k : A -> result B) :
  (forall a, exists e, k a = Err e) -> exists e, bind m k = Err e.
Proof.
  intros H. destruct m as [a|e]; simpl; [apply H|exists e; reflexivity].
Qed.

(** X10. With a mode other than [none], [square], [pad64] and [crop],
    [resize_image] never returns a result; for every image without a side
    of length 0 the error is the exception that reports the unsupported
    mode. *)
Theorem resize_image_unsupported_mode (randint : Z -> Z -> Z) (image : Z * Z)
    (md xd : option Z) (ms : option Q) (mode : string) :
  mode <> "none"%string -> mode <> "square"%string ->
  mode <> "pad64"%string -> mode <> "crop"%string ->
  (exists e, resize_image randint image md xd ms mode = Err e)
  /\ (Z.min (fst image) (snd image) <> 0%Z ->
      exists msg, resize_image randint image md xd ms mode
                  = Err (Exception msg)).
Proof.
  intros N1 N2 N3 N4. destruct image as [h w].
  apply String.eqb_neq in N1, N2, N3, N4.
  unfold resize_image. rewrite N1, N2, N3, N4. cbn [negb fst snd].
  split.
  - repeat (apply bind_err; intros ?).
    destruct (if negb (Qeq_bool _ 1) then _ else _).
    eexists. reflexivity.
  - intros Hmin. rewrite !andb_false_r, andb_true_r.
    destruct (scale_up_step h w md true Hmin) as (s1 & E1 & _).
    rewrite andb_true_r in E1. rewrite E1. cbn [bind].
    rewrite min_scale_step. cbn [bind].
    destruct (if negb (Qeq_bool _ 1) then _ else _).
    eexists. reflexivity.
Qed.

Lemma resize_image_unsupported_mode_witness :
  (exists e,
     resize_image first_draw (100, 50)%Z (Some 64%Z) (Some 128%Z) None "pad32"
     = Err e)
  /\ (Z.min (fst (100, 50)%Z) (snd (100, 50)%Z) <> 0%Z ->
      exists msg,
        resize_image first_draw (100, 50)%Z (Some 64%Z) (Some 128%Z) None
                     "pad32"
        = Err (Exception msg)).
Proof.
  apply (resize_image_unsupported_mode first_draw (100, 50)%Z (Some 64%Z)
           (Some 128%Z) None "pad32"); intro H; discriminate H.
Defined.

(** From [x <- m ;; k = Ok r]: [m] returned. *)
Tactic Notation "step_bind" hyp(H) "as" ident(x) ident(E) :=
  match type of H with
  | bind ?m _ = Ok _ =>
      destruct m as [x|] eqn:E; cbn [bind] in H; [|discriminate H]
  end.

(** X11. [resize_mask] follows [resize_image]: with draws of
    [random.randint] inside their bounds and a [min_dim] that is not
    negative, whenever [resize_image] returns for an image of shape
    [h x w], in whatever mode, [resize_mask] called on a mask of shape
    [h x w x n] with the scale, the padding and the crop of that result
    returns a mask with the height and the width of the resized image and
    the [n] instances. *)
Theorem resize_mask_aligned (randint : Z -> Z -> Z) (h w n : Z)
    (md xd : option Z) (ms : option Q) (mode : string) (r : resized) :
  draws_in_range randint ->
  (forall z, md = Some z -> (0 <= z)%Z) ->
  resize_image randint (h, w) md xd ms mode = Ok r ->
  resize_mask (h, w, n) (r_scale r) (r_padding r) (r_crop r)
  = Ok (fst (r_image r), snd (r_image r), n).
Proof.
  intros Hdraw Hmd H.
  assert (Rid : forall z, py_round (inject_Z z * 1) = z).
  { intros z. rewrite <- (py_round_inject_Z z) at 2.
    apply py_round_comp. ring. }
  unfold resize_image in H.
  destruct (mode =? "none")%string.
  - inversion H; subst; clear H. cbn [r_scale r_padding r_crop r_image].
    unfold resize_mask, scipy_zoom. rewrite !Rid.
    cbn. rewrite !Z.add_0_r. reflexivity.
  - step_bind H as s1 E1. step_bind H as s2 E2. step_bind H as s3 E3.
    step_bind H as scale E4. rewrite resized_shape in H.
    set (h' := py_round (inject_Z h * scale)) in *.
    set (w' := py_round (inject_Z w * scale)) in *.
    destruct (mode =? "square")%string.
    { step_bind H as x Ex. step_bind H as img Ep. inversion H; subst; clear H.
      cbn [r_scale r_padding r_crop r_image].
      unfold resize_mask, scipy_zoom. fold h' w'. rewrite Rid, Ep.
      reflexivity. }
    destruct (mode =? "pad64")%string.
    { step_bind H as m Em. step_bind H as u Eu.
      destruct (if negb (m =? h')%Z then _ else _) as [top_pad bottom_pad].
      step_bind H as lr El. destruct lr as [left_pad right_pad].
      step_bind H as img Ep. inversion H; subst; clear H.
      cbn [r_scale r_padding r_crop r_image].
      unfold resize_mask, scipy_zoom. fold h' w'. rewrite Rid, Ep.
      reflexivity. }
    destruct (mode =? "crop")%string; [|discriminate H].
    step_bind H as m Em. step_bind H as y Ey. step_bind H as x Ex.
    inversion H; subst; clear H.
    cbn [r_scale r_padding r_crop r_image fst snd].
    unfold resize_mask, scipy_zoom. fold h' w'. rewrite Rid.
    destruct md as [z|]; [|discriminate Em]. inversion Em; subst.
    specialize (Hmd m eq_refl).
    unfold random_randint in Ey, Ex.
    destruct (Z.ltb_spec (h' - m) 0) as [?|Ly]; [discriminate Ey|].
    destruct (Z.ltb_spec (w' - m) 0) as [?|Lx]; [discriminate Ex|].
    inversion Ey; subst. inversion Ex; subst.
    destruct (Hdraw 0%Z (h' - m)%Z Ly) as [Y0 Y1].
    destruct (Hdraw 0%Z (w' - m)%Z Lx) as [X0 X1].
    destruct (slice_len_inside h' (randint 0%Z (h' - m)%Z) m) as [-> ->];
      try lia.
    destruct (slice_len_inside w' (randint 0%Z (w' - m)%Z) m) as [-> ->];
      try lia.
    reflexivity.
Qed.

Lemma resize_mask_aligned_witness :
  resize_mask (100, 50, 3)%Z
    (r_scale (Resized (128, 128)%Z (Box 14 39 114 89)%Z 1
                      ((14, 14), (39, 39))%Z None))
    (r_padding (Resized (128, 128)%Z (Box 14 39 114 89)%Z 1
                        ((14, 14), (39, 39))%Z None))
    (r_crop (Resized (128, 128)%Z (Box 14 39 114 89)%Z 1
                     ((14, 14), (39, 39))%Z None))
  = Ok (fst (r_image (Resized (128, 128)%Z (Box 14 39 114 89)%Z 1
                              ((14, 14), (39, 39))%Z None)),
        snd (r_image (Resized (128, 128)%Z (Box 14 39 114 89)%Z 1
                              ((14, 14), (39, 39))%Z None)),
        3%Z).
Proof.
  apply (resize_mask_aligned first_draw 100 50 3 None (Some 128%Z) None
           "square").
  - intros a b H. unfold first_draw. lia.
  - intros z H. discriminate H.
  - reflexivity.
Defined.

(** ** Molding *)

Lemma mapM_inv {A B : Type} (f : A -> result B) (l : list A) (bs : list B) :
  mapM f l = Ok bs -> Forall2 (fun a b => f a = Ok b) l bs.
Proof.
  revert bs. induction l as [|a l IH]; intros bs H; simpl in H.
  - inversion H. constructor.
  - destruct (f a) as [b|] eqn:E; [|discriminate H]. simpl in H.
    destruct (mapM f l) as [bs'|]; [|discriminate H]. simpl in H.
    inversion H; subst. constructor; [exact E|apply IH; reflexivity].
Qed.

(** Records of valid fields stack into the array of their layouts. *)
Lemma np_stack_records {A : Type} (num_classes : nat)
    (inputs : list (A * list A * list A * list A)) :
  inputs <> [] ->
  Forall (valid_meta_input num_classes) inputs ->
  np_stack (map (@meta_record A) inputs)
  = Ok (Arr2 (8 + num_classes) (map (@flat A) inputs)).
Proof.
  intros Hne Hvalid. rewrite Forall_forall in Hvalid. unfold np_stack.
  rewrite (mapM_map_ok _ (@meta_record A) (@flat A)).
  2:{ intros [[[? ?] ?] ?] _. reflexivity. }
  cbn [bind]. destruct inputs as [|i0 inputs]; [contradiction|]. cbn [map].
  assert (Hall : forallb (fun u => (List.length u =? List.length (flat i0))%nat)
                   (flat i0 :: map (@flat A) inputs) = true).
  { apply forallb_forall. intros u Hu.
    change (flat i0 :: map (@flat A) inputs)
      with (map (@flat A) (i0 :: inputs)) in Hu.
    apply in_map_iff in Hu. destruct Hu as (i & <- & Hi).
    rewrite (flat_length A num_classes i (Hvalid i Hi)).
    rewrite (flat_length A num_classes i0 (Hvalid i0 (or_introl eq_refl))).
    apply Nat.eqb_refl. }
  rewrite Hall.
  rewrite (flat_length A num_classes i0 (Hvalid i0 (or_introl eq_refl))).
  reflexivity.
Qed.

(** The array of the layouts of valid fields parses into the fields. *)
Lemma parse_flat_rows {A : Type} (num_classes : nat)
    (inputs : list (A * list A * list A * list A)) :
  Forall (valid_meta_input num_classes) inputs ->
  parse_image_meta (Arr2 (8 + num_classes) (map (@flat A) inputs))
  = Ok (map (fun i => fst (fst (fst i))) inputs,
        map (fun i => snd (fst (fst i))) inputs,
        map (fun i => snd (fst i)) inputs,
        map (fun i => snd i) inputs).
Proof.
  intros Hvalid. rewrite Forall_forall in Hvalid.
  unfold parse_image_meta. cbn [Nat.eqb Nat.add].
  rewrite (mapM_map_ok _ (@flat A) (fun i => fst (fst (fst i)))).
  2:{ intros i Hi.
      destruct (flat_fields A num_classes i (Hvalid i Hi)) as (-> & _).
      reflexivity. }
  cbn [bind]. rewrite !map_map.
  assert (E1 : map (fun x => slice 1 4 (flat x)) inputs
               = map (fun i => snd (fst (fst i))) inputs).
  { apply map_ext_in. intros i Hi.
    apply (flat_fields A num_classes i (Hvalid i Hi)). }
  assert (E2 : map (fun x => slice 4 8 (flat x)) inputs
               = map (fun i => snd (fst i)) inputs).
  { apply map_ext_in. intros i Hi.
    apply (flat_fields A num_classes i (Hvalid i Hi)). }
  assert (E3 : map (fun x => skipn 8 (flat x)) inputs
               = map (fun i => snd i) inputs).
  { apply map_ext_in. intros i Hi.
    apply (flat_fields A num_classes i (Hvalid i Hi)). }
  rewrite E1, E2, E3. reflexivity.
Qed.

Lemma np_stack_rows {A : Type} (k : nat) (rows : list (list A)) :
  rows <> [] -> Forall (fun r => List.length r = k) rows ->
  np_stack (map (@Arr1 A) rows) = Ok (Arr2 k rows).
Proof.
  intros Hne Hk. unfold np_stack.
  rewrite (mapM_map_ok _ (@Arr1 A) (fun r => r)) by reflexivity.
  rewrite map_id. cbn [bind].
  destruct rows as [|r0 rows]; [contradiction|].
  rewrite Forall_forall in Hk.
  assert (Hall : forallb (fun u => (List.length u =? List.length r0)%nat)
                   (r0 :: rows) = true).
  { apply forallb_forall. intros u Hu.
    rewrite (Hk u Hu), (Hk r0 (or_introl eq_refl)). apply Nat.eqb_refl. }
  rewrite Hall, (Hk r0 (or_introl eq_refl)). reflexivity.
Qed.

Section MoldingProofs.
Variable randint : Z -> Z -> Z.
Variable cfg : config.

Let zeros : list Z := repeat 0%Z (Z.to_nat (NUM_CLASSES cfg)).

Let fields (p : (Z * Z * Z) * list Z) : Z * list Z * list Z * list Z :=
  (0%Z, shape_list (fst p), snd p, zeros).

Lemma mold_rows_spec (images : list (Z * Z * Z))
    (rows : list ((Z * Z * Z) * ndarray Z * list Z)) :
  Forall2 (fun image row =>
             (m <- mold_image randint image cfg ;;
              let window := box_list (r_window (snd m)) in
              zeros <- np_zeros (NUM_CLASSES cfg) ;;
              let image_meta :=
                compose_image_meta 0%Z (shape_list image) window zeros in
              Ok (fst m, image_meta, window)) = Ok row) images rows ->
  let wrows := map (fun r => snd r) rows in
  let inputs := map fields (combine images wrows) in
  map (fun r => snd (fst r)) rows = map (@meta_record Z) inputs
  /\ Forall (valid_meta_input (Z.to_nat (NUM_CLASSES cfg))) inputs
  /\ List.length wrows = List.length images
  /\ Forall (fun r => List.length r = 4%nat) wrows
  /\ map (fun i => fst (fst (fst i))) inputs = map (fun _ => 0%Z) images
  /\ map (fun i => snd (fst (fst i))) inputs = map shape_list images
  /\ map (fun i => snd (fst i)) inputs = wrows
  /\ map (fun i => snd i) inputs = map (fun _ => zeros) images.
Proof.
  induction 1 as [|image row images rows Hrow _ IH]; cbn zeta.
  - repeat split; constructor.
  - cbv zeta in IH. destruct IH as (I1 & I2 & I3 & I4 & I5 & I6 & I7 & I8).
    destruct (mold_image randint image cfg) as [m|] eqn:Em;
      [|discriminate Hrow].
    cbn [bind] in Hrow. unfold np_zeros in Hrow.
    destruct (NUM_CLASSES cfg <? 0)%Z; [discriminate Hrow|].
    cbn [bind] in Hrow. inversion Hrow; subst; clear Hrow.
    cbn [map combine fst snd List.length]. unfold fields at 1 3 5 7 9 11.
    cbn [fst snd].
    rewrite I1, I3, I5, I6, I7, I8.
    repeat split.
    + constructor; [|exact I2].
      unfold valid_meta_input, shape_list. destruct image as [[? ?] ?].
      repeat split. apply repeat_length.
    + constructor; [reflexivity|exact I4].
Qed.

(** X12. Whenever [mold_inputs] returns, the list of images was not
    empty, the stack of molded images and the windows have one entry per
    image, and [parse_image_meta] reads from the image metas, image by
    image, the id 0, the shape of the original image, the window that
    [mold_inputs] returns for it and [NUM_CLASSES] zeros. *)
Theorem mold_inputs_metas (images : list (Z * Z * Z))
    (molded : nat * (Z * Z * Z)) (metas windows : ndarray Z) :
  mold_inputs randint images cfg = Ok (molded, metas, windows) ->
  exists wrows,
    windows = Arr2 4 wrows
    /\ List.length wrows = List.length images
    /\ fst molded = List.length images
    /\ images <> []
    /\ parse_image_meta metas
       = Ok (map (fun _ => 0%Z) images,
             map shape_list images,
             wrows,
             map (fun _ => repeat 0%Z (Z.to_nat (NUM_CLASSES cfg))) images).
Proof.
  intros H. unfold mold_inputs in H.
  step_bind H as rows Er. step_bind H as mi Em. step_bind H as im Ei.
  step_bind H as ws Ew. injection H as Hm Hi Hw. subst molded metas windows.
  apply mapM_inv in Er. pose proof (Forall2_length Er) as Lr.
  destruct (mold_rows_spec images rows Er)
    as (I1 & I2 & I3 & I4 & I5 & I6 & I7 & I8).
  cbv zeta in *.
  set (wrows := map (fun r => snd r) rows) in *.
  set (inputs := map fields (combine images wrows)) in *.
  assert (Hne : rows <> []).
  { intros ->. discriminate Em. }
  assert (Hni : images <> []).
  { intros ->. apply Hne. destruct rows; [reflexivity|discriminate Lr]. }
  exists wrows.
  assert (Ew' : ws = Arr2 4 wrows).
  { rewrite <- (map_map (fun r => snd r) (@Arr1 Z)) in Ew. fold wrows in Ew.
    rewrite (np_stack_rows 4 wrows) in Ew; [congruence| |exact I4].
    unfold wrows. intros E. apply map_eq_nil in E. contradiction. }
  assert (Ei' : im = Arr2 (8 + Z.to_nat (NUM_CLASSES cfg)) (map (@flat Z) inputs)).
  { rewrite I1 in Ei.
    rewrite (np_stack_records (Z.to_nat (NUM_CLASSES cfg)) inputs) in Ei;
      [congruence| |exact I2].
    unfold inputs. intros E. apply map_eq_nil in E.
    destruct images as [|i images]; [contradiction|].
    destruct wrows; [discriminate I3|discriminate E]. }
  split; [exact Ew'|]. split; [exact I3|]. split.
  - unfold np_stack_shapes in Em.
    destruct (map (fun r => fst (fst r)) rows) as [|s l] eqn:Es;
      [discriminate Em|].
    destruct (forallb _ (s :: l)); [|discriminate Em].
    assert (Ll : List.length (s :: l) = List.length rows)
      by (rewrite <- Es; apply length_map).
    inversion Em; subst. cbn [fst]. simpl in Ll |- *. lia.
  - split; [exact Hni|].
    rewrite Ei', (parse_flat_rows _ inputs I2), I5, I6, I7, I8. reflexivity.
Qed.
End MoldingProofs.

Lemma mold_inputs_metas_witness :
  exists wrows,
    Arr2 4 [[14; 39; 114; 89]]%Z = Arr2 4 wrows
    /\ List.length wrows = List.length [(100, 50, 3)%Z]
    /\ fst (1%nat, (128, 128, 3)%Z) = List.length [(100, 50, 3)%Z]
    /\ [(100, 50, 3)%Z] <> []
    /\ parse_image_meta
         (Arr2 10 [[0; 100; 50; 3; 14; 39; 114; 89; 0; 0]]%Z)
       = Ok (map (fun _ => 0%Z) [(100, 50, 3)%Z],
             map shape_list [(100, 50, 3)%Z],
             wrows,
             map (fun _ =>
                    repeat 0%Z (Z.to_nat (NUM_CLASSES square_config)))
                 [(100, 50, 3)%Z]).
Proof.
  apply (mold_inputs_metas first_draw square_config
           [(100, 50, 3)%Z] (1%nat, (128, 128, 3)%Z)
           (Arr2 10 [[0; 100; 50; 3; 14; 39; 114; 89; 0; 0]]%Z)
           (Arr2 4 [[14; 39; 114; 89]]%Z)).
  reflexivity.
Defined.

Lemma mapM_exists {A B : Type} (f : A -> result B) (P : A -> B -> Prop)
    (l : list A) :
  (forall a, In a l -> exists b, f a = Ok b /\ P a b) ->
  exists bs, mapM f l = Ok bs /\ Forall2 P l bs.
Proof.
  induction l as [|a l IH]; intros H.
  - exists []. split; [reflexivity|constructor].
  - destruct (H a (or_introl eq_refl)) as (b & E & Pb).
    destruct IH as (bs & Es & Ps); [intros x Hx; apply H; right; exact Hx|].
    exists (b :: bs). simpl. rewrite E. simpl. rewrite Es. simpl.
    split; [reflexivity|constructor; assumption].
Qed.

(** X13. In [square] mode with an [IMAGE_MAX_DIM] that is an array
    length, an [IMAGE_MIN_DIM] below [2^31], an [IMAGE_MIN_SCALE] of at
    most [2^31], a [NUM_CLASSES] that is not negative, a [MEAN_PIXEL] of
    three entries and a non-empty list of images with three channels or
    one, whose sides are array lengths and whose smaller side keeps a
    row, [mold_inputs] returns, and the molded images form one stack of
    shape [len(images) x max_dim x max_dim x 3], whatever the sizes of
    the images are: the mean pixel spreads a single channel over
    three. *)
Theorem mold_inputs_square (randint : Z -> Z -> Z) (cfg : config)
    (images : list (Z * Z * Z)) (xd : Z) :
  IMAGE_RESIZE_MODE cfg = "square"%string ->
  IMAGE_MAX_DIM cfg = Some xd -> array_length xd ->
  (forall md, IMAGE_MIN_DIM cfg = Some md -> (0 <= md < 2 ^ 31)%Z) ->
  moderate_scale (IMAGE_MIN_SCALE cfg) ->
  (0 <= NUM_CLASSES cfg)%Z ->
  List.length (MEAN_PIXEL cfg) = 3%nat ->
  images <> [] ->
  Forall (fun image => array_length (fst (fst image))
                       /\ array_length (snd (fst image))
                       /\ keeps_a_row (fst (fst image)) (snd (fst image)) xd
                       /\ (snd image = 3 \/ snd image = 1)%Z) images ->
  exists metas windows,
    mold_inputs randint images cfg
    = Ok ((List.length images, (xd, xd, 3%Z)), metas, windows).
Proof.
  intros Hmode Hmax [Hxd _] _ _ Hn Hmean Hne Himg.
  rewrite Forall_forall in Himg.
  unfold mold_inputs.
  set (f := fun image : Z * Z * Z =>
              m <- mold_image randint image cfg;;
              (let window := box_list (r_window (snd m)) in
               zeros <- np_zeros (NUM_CLASSES cfg);;
               (let image_meta :=
                  compose_image_meta 0%Z (shape_list image) window zeros in
                Ok (fst m, image_meta, window)))).
  destruct (mapM_exists f (fun _ row => fst (fst row) = (xd, xd, 3%Z))
              images) as (rows & Er & Pr).
  { intros [[h w] c'] Hin.
    destruct (Himg _ Hin) as ([Hh _] & [Hw _] & _ & Hc).
    cbn [fst snd] in Hh, Hw, Hc.
    destruct (resize_image_square_result randint h w xd (IMAGE_MIN_DIM cfg)
                (IMAGE_MIN_SCALE cfg) Hh Hw Hxd) as (scale & E & _).
    cbv zeta in E. unfold f, mold_image. rewrite Hmode, Hmax, E.
    cbn [bind r_image r_window fst snd]. unfold subtract_mean, np_broadcast.
    rewrite Hmean.
    assert (Eb : (if (c' =? Z.of_nat 3)%Z then Ok c'
                  else if (c' =? 1)%Z then Ok (Z.of_nat 3)
                       else if (Z.of_nat 3 =? 1)%Z then Ok c'
                            else Err ValueError) = Ok 3%Z)
      by (destruct Hc as [-> | ->]; reflexivity).
    rewrite Eb. cbn [bind]. unfold np_zeros.
    assert (F : (NUM_CLASSES cfg <? 0)%Z = false) by (apply Z.ltb_ge; lia).
    rewrite F. cbn [bind]. eexists. split; reflexivity. }
  pose proof (mapM_inv f images rows Er) as Pf.
  rewrite Er. cbn [bind].
  assert (Ps : Forall (fun row => fst (fst row) = (xd, xd, 3%Z)) rows).
  { clear -Pr. induction Pr; constructor; assumption. }
  pose proof (Forall2_length Pf) as Lr.
  destruct (mold_rows_spec randint cfg images rows Pf)
    as (I1 & I2 & I3 & I4 & _).
  cbv zeta in *.
  assert (Hnr : rows <> []).
  { intros ->. destruct images; [contradiction|discriminate Lr]. }
  assert (Es : np_stack_shapes (map (fun r => fst (fst r)) rows)
               = Ok (List.length images, (xd, xd, 3%Z))).
  { rewrite (map_ext_in _ (fun _ => (xd, xd, 3%Z))).
    2:{ rewrite Forall_forall in Ps. exact Ps. }
    destruct rows as [|r0 rows]; [contradiction|].
    unfold np_stack_shapes. cbn [map].
    assert (Fa : forallb (fun '(h, w, c0) =>
                            (h =? xd)%Z && (w =? xd)%Z && (c0 =? 3)%Z)
                   ((xd, xd, 3%Z) :: map (fun _ => (xd, xd, 3%Z)) rows)
                 = true).
    { apply forallb_forall. intros x Hx.
      assert (x = (xd, xd, 3%Z)).
      { destruct Hx as [<-|Hx]; [reflexivity|].
        apply in_map_iff in Hx. destruct Hx as (? & <- & _). reflexivity. }
      subst x. rewrite !Z.eqb_refl. reflexivity. }
    rewrite Fa. simpl. rewrite length_map. simpl in Lr. rewrite Lr.
    reflexivity. }
  rewrite Es. cbn [bind]. rewrite I1.
  rewrite (np_stack_records (Z.to_nat (NUM_CLASSES cfg))); [| |exact I2].
  2:{ intros E. apply map_eq_nil in E.
      destruct images as [|i images]; [contradiction|].
      destruct rows; [discriminate Lr|discriminate E]. }
  cbn [bind].
  rewrite <- (map_map (fun r => snd r) (@Arr1 Z)).
  rewrite (np_stack_rows 4); [| |exact I4].
  2:{ intros E. apply map_eq_nil in E. contradiction. }
  cbn [bind]. eexists. eexists. reflexivity.
Qed.

(** A colour image and a grey one of another size: one stack of three
    channels. *)
Lemma mold_inputs_square_witness :
  exists metas windows,
    mold_inputs first_draw [(100, 50, 3); (30, 40, 1)]%Z square_config
    = Ok ((List.length [(100, 50, 3); (30, 40, 1)]%Z, (128, 128, 3)%Z),
          metas, windows).
Proof.
  apply (mold_inputs_square first_draw square_config
           [(100, 50, 3); (30, 40, 1)]%Z 128); try reflexivity.
  - split; reflexivity.
  - intros md H. discriminate H.
  - intros s H. discriminate H.
  - intro H; discriminate H.
  - intro H; discriminate H.
  - repeat (apply Forall_cons || apply Forall_nil); cbn [fst snd];
      (split; [split; reflexivity|]); (split; [split; reflexivity|]);
      (split; [intro H; discriminate H|]); [left|right]; reflexivity.
Defined.

(** ** The filter of [remove_zero_area] *)

Lemma existsb_nonzero (flags : list bool) :
  existsb (fun b : bool => b) flags = false ->
  List.length (nonzero flags) = 0%nat.
Proof.
  intros H. pose proof (nonzero_none flags) as N. rewrite H in N.
  apply Nat.eqb_eq in N. exact N.
Qed.

Lemma compress_In {A : Type} (f : A -> bool) (l : list A) (a : A) :
  In a (compress (map f l) l) <-> In a l /\ f a = true.
Proof. rewrite compress_map_filter. apply filter_In. Qed.

Lemma compress_nonempty {A : Type} (flags : list bool) (l : list A) :
  List.length l = List.length flags ->
  existsb (fun b : bool => b) flags = true -> compress flags l <> [].
Proof.
  revert l. induction flags as [|f flags IH]; intros [|a l] Hl He;
    simpl in *; try discriminate.
  unfold compress in *. simpl. destruct f; simpl; [discriminate|].
  apply IH; [lia|exact He].
Qed.

Section RemoveZeroArea.
Variable Mask : Type.

(** What [remove_zero_area] returns on tensors of one length. *)
Lemma remove_zero_area_result (boxes : list (box Z)) (class_ids : list Z)
    (masks : list Mask) (scores : option (list Q)) :
  List.length class_ids = List.length boxes ->
  List.length masks = List.length boxes ->
  (forall s, scores = Some s -> List.length s = List.length boxes) ->
  remove_zero_area boxes class_ids masks scores
  = let keep := map keeps boxes in
    if existsb (fun b : bool => b) keep
    then Ok (compress keep boxes, compress keep class_ids,
             compress keep masks, option_map (compress keep) scores)
    else Err NoPositiveAreaError.
Proof.
  intros Hc Hm Hs. unfold remove_zero_area.
  rewrite !zip_with_map, !map_map, !zip_with_map, !map_map.
  change (map (fun x : box Z => _) boxes) with (map keeps boxes).
  set (keep := map keeps boxes).
  assert (Hk : List.length keep = List.length boxes) by apply length_map.
  rewrite nonzero_none. cbv zeta.
  destruct (existsb (fun b : bool => b) keep) eqn:Ex; cbn [negb];
    [|reflexivity].
  destruct (Nat.eqb_spec (List.length (nonzero keep)) (List.length boxes))
    as [E|E]; cbn [negb].
  - unfold nonzero in E. rewrite nonzero_from_length, <- Hk in E.
    apply filter_all_length in E.
    rewrite !compress_all by (assumption || congruence).
    destruct scores as [s|]; cbn [option_map]; [|reflexivity].
    rewrite compress_all; [reflexivity|assumption|].
    rewrite (Hs s eq_refl). congruence.
  - rewrite !index_select_nonzero by congruence. cbn [bind].
    destruct scores as [s|]; cbn [option_map bind].
    + rewrite index_select_nonzero by (rewrite (Hs s eq_refl); congruence).
      reflexivity.
    + reflexivity.
Qed.

(** X14. On [int32] boxes with one class id, one mask and, when scores
    are given, one score per box, [remove_zero_area] raises nothing but
    [NoPositiveAreaError]; when it returns, at least one box is left,
    class ids, masks and scores are as many as the boxes, scores that
    were not given stay so, and every box left is one of the input whose
    height and width, as the [int32] differences the code computes,
    exceed 2. *)
Theorem remove_zero_area_kept (boxes : list (box Z)) (class_ids : list Z)
    (masks : list Mask) (scores : option (list Q)) :
  List.length class_ids = List.length boxes ->
  List.length masks = List.length boxes ->
  (forall s, scores = Some s -> List.length s = List.length boxes) ->
  (forall e, remove_zero_area boxes class_ids masks scores = Err e ->
             e = NoPositiveAreaError)
  /\ (forall boxes' class_ids' masks' scores',
        remove_zero_area boxes class_ids masks scores
        = Ok (boxes', class_ids', masks', scores') ->
        boxes' <> []
        /\ List.length class_ids' = List.length boxes'
        /\ List.length masks' = List.length boxes'
        /\ (scores = None -> scores' = None)
        /\ (forall s, scores = Some s ->
              exists s', scores' = Some s'
                         /\ List.length s' = List.length boxes')
        /\ Forall (fun b => In b boxes
                            /\ (2 < wrap32 (y2 b - y1 b))%Z
                            /\ (2 < wrap32 (x2 b - x1 b))%Z) boxes').
Proof.
  intros Hc Hm Hs.
  rewrite (remove_zero_area_result boxes class_ids masks scores Hc Hm Hs).
  cbv zeta. set (keep := map keeps boxes).
  assert (Hk : List.length keep = List.length boxes) by apply length_map.
  destruct (existsb (fun b : bool => b) keep) eqn:Ex.
  - split; [intros e H; discriminate H|].
    intros boxes' class_ids' masks' scores' H.
    injection H as <- <- <- <-.
    split; [apply compress_nonempty; [congruence|exact Ex]|].
    split; [apply compress_length; congruence|].
    split; [apply compress_length; congruence|].
    split; [intros ->; reflexivity|].
    split.
    + intros s ->. eexists. split; [reflexivity|].
      apply compress_length; [rewrite (Hs s eq_refl)|]; congruence.
    + apply Forall_forall. intros b Hb. unfold keep in Hb.
      apply compress_In in Hb. destruct Hb as [Hin Hb].
      split; [exact Hin|]. unfold keeps in Hb. cbv zeta in Hb.
      destruct (Z.leb_spec (wrap32 (wrap32 (y2 b - y1 b) * wrap32 (x2 b - x1 b))) 0);
        destruct (Z.leb_spec (wrap32 (y2 b - y1 b)) 2);
        destruct (Z.leb_spec (wrap32 (x2 b - x1 b)) 2);
        simpl in Hb; try discriminate Hb. lia.
  - split; [intros e H; congruence|].
    intros ? ? ? ? H. discriminate H.
Qed.
End RemoveZeroArea.

Lemma remove_zero_area_kept_witness :
  (forall e,
     remove_zero_area [Box 0 0 10 10; Box 0 0 1 5]%Z [1; 2]%Z [7; 8]%nat
                      (Some [1 # 2; 1 # 3]) = Err e ->
     e = NoPositiveAreaError)
  /\ (forall boxes' class_ids' masks' scores',
        remove_zero_area [Box 0 0 10 10; Box 0 0 1 5]%Z [1; 2]%Z [7; 8]%nat
                         (Some [1 # 2; 1 # 3])
        = Ok (boxes', class_ids', masks', scores') ->
        boxes' <> []
        /\ List.length class_ids' = List.length boxes'
        /\ List.length masks' = List.length boxes'
        /\ (Some [1 # 2; 1 # 3] = None -> scores' = None)
        /\ (forall s, Some [1 # 2; 1 # 3] = Some s ->
              exists s', scores' = Some s'
                         /\ List.length s' = List.length boxes')
        /\ Forall (fun b => In b [Box 0 0 10 10; Box 0 0 1 5]%Z
                            /\ (2 < wrap32 (y2 b - y1 b))%Z
                            /\ (2 < wrap32 (x2 b - x1 b))%Z) boxes').
Proof.
  apply (remove_zero_area_kept nat [Box 0 0 10 10; Box 0 0 1 5]%Z [1; 2]%Z
           [7; 8]%nat (Some [1 # 2; 1 # 3])).
  - reflexivity.
  - reflexivity.
  - intros s H. injection H as <-. reflexivity.
Defined.

(** ** The soft unmolder *)

Lemma existsb_map_id {A : Type} (f : A -> bool) (l : list A) :
  existsb (fun b : bool => b) (map f l) = existsb f l.
Proof.
  induction l as [|a l IH]; simpl; [reflexivity|]. rewrite IH. reflexivity.
Qed.

Section UnmolderXProofs.
Variables Mask SoftMask : Type.
Variable softened : Mask -> Z * Z -> SoftMask.

Lemma remove_zero_area_f32_result (boxes : list (box f32))
    (class_ids : list Z) (masks : list Mask) :
  List.length class_ids = List.length boxes ->
  List.length masks = List.length boxes ->
  remove_zero_area_f32 boxes class_ids masks (@None (list f32))
  = let keep := map keeps_f32 boxes in
    if existsb (fun b : bool => b) keep
    then Ok (compress keep boxes, compress keep class_ids,
             compress keep masks, None)
    else Err NoPositiveAreaError.
Proof.
  intros Hc Hm. unfold remove_zero_area_f32.
  rewrite !zip_with_map, !map_map, !zip_with_map, !map_map.
  change (map (fun x : box f32 => _) boxes) with (map keeps_f32 boxes).
  set (keep := map keeps_f32 boxes).
  assert (Hk : List.length keep = List.length boxes) by apply length_map.
  rewrite nonzero_none. cbv zeta.
  destruct (existsb (fun b : bool => b) keep) eqn:Ex; cbn [negb];
    [|reflexivity].
  destruct (Nat.eqb_spec (List.length (nonzero keep)) (List.length boxes))
    as [E|E]; cbn [negb].
  - unfold nonzero in E. rewrite nonzero_from_length, <- Hk in E.
    apply filter_all_length in E.
    rewrite !compress_all by (assumption || congruence). reflexivity.
  - rewrite !index_select_nonzero by congruence. reflexivity.
Qed.

(** The float size stops [unmold_mask_x] at the first mask. *)
Lemma unmold_masks_x_raises (masks : list Mask) (boxes : list (box f32))
    (image_shape : Z * Z) :
  masks <> [] -> List.length masks = List.length boxes ->
  unmold_masks_x softened masks boxes image_shape = Err TypeError.
Proof.
  intros Hne Hlen. destruct masks as [|m masks]; [contradiction|].
  destruct boxes as [|b boxes]; [discriminate Hlen|]. reflexivity.
Qed.

(** What [unmold_detections_x] does once the class masks are found. *)
Lemma unmold_boxes_x_raises (boxes : list (box f32)) (class_ids : list Z)
    (masks : list Mask) (image_shape : Z * Z) (window : box Z) :
  List.length class_ids = List.length boxes ->
  List.length masks = List.length boxes ->
  unmold_boxes_x softened boxes class_ids masks image_shape window
  = if existsb keeps_f32 (to_img_domain_f32 boxes window image_shape)
    then Err TypeError else Err NoPositiveAreaError.
Proof.
  intros Hc Hm. unfold unmold_boxes_x.
  set (moved := to_img_domain_f32 boxes window image_shape).
  assert (Lb : List.length moved = List.length boxes)
    by (unfold moved, to_img_domain_f32; apply length_map).
  rewrite remove_zero_area_f32_result by congruence.
  cbv zeta. rewrite existsb_map_id.
  destruct (existsb keeps_f32 moved) eqn:Ex; cbn [bind]; [|reflexivity].
  rewrite unmold_masks_x_raises; [reflexivity| |].
  - intros E.
    assert (L : List.length (compress (map keeps_f32 moved) moved) = 0%nat).
    { rewrite (compress_length (map keeps_f32 moved) moved masks),
        E; [reflexivity|rewrite length_map; reflexivity|
            rewrite length_map; congruence]. }
    rewrite compress_map_filter in L.
    apply existsb_exists in Ex. destruct Ex as (b & Hb & Kb).
    assert (Hin : In b (filter keeps_f32 moved))
      by (apply filter_In; split; assumption).
    destruct (filter keeps_f32 moved); [contradiction|discriminate L].
  - apply compress_length; rewrite length_map; congruence.
Qed.

(** X15. [unmold_detections_x] never returns a result. With a mask for
    the class of every detection it raises [NoPositiveAreaError] when no
    box of the image domain passes the filter of [remove_zero_area], and
    [TypeError] otherwise: [unmold_mask_x] hands [F.upsample] a size made
    of float tensors, which is refused for the first box kept. *)
Theorem unmold_detections_x_raises (detections : list detection)
    (mrcnn_mask : list (list Mask)) (image_shape : Z * Z) (window : box Z) :
  (exists e,
     unmold_detections_x softened detections mrcnn_mask image_shape window
     = Err e)
  /\ (forall masks,
        Forall2 (fun dm mk =>
                   py_index (snd dm) (f32_to_int64 (d_class_id (fst dm)))
                   = Ok mk)
                (combine detections mrcnn_mask) masks ->
        List.length mrcnn_mask = List.length detections ->
        unmold_detections_x softened detections mrcnn_mask image_shape window
        = if existsb keeps_f32
               (to_img_domain_f32 (map d_box detections) window image_shape)
          then Err TypeError else Err NoPositiveAreaError).
Proof.
  split.
  - unfold unmold_detections_x.
    destruct (mapM _ (seq 0 (List.length detections))) as [masks|e] eqn:Em;
      cbn [bind]; [|exists e; reflexivity].
    apply mapM_inv, Forall2_length in Em. rewrite length_seq in Em.
    rewrite unmold_boxes_x_raises by (rewrite !length_map; congruence).
    destruct (existsb keeps_f32 _); eexists; reflexivity.
  - intros masks Hmasks Hlen.
    assert (Lc : List.length (combine detections mrcnn_mask)
                 = List.length detections)
      by (rewrite length_combine; lia).
    unfold unmold_detections_x. rewrite <- Lc.
    rewrite (mapM_seq_lookup (combine detections mrcnn_mask) _
               (fun dm => py_index (snd dm)
                            (f32_to_int64 (d_class_id (fst dm))))).
    2:{ intros i [d pc] H. apply nth_error_combine in H. destruct H as [Hd Hp].
        unfold item. rewrite Hp, nth_error_map, Hd. reflexivity. }
    rewrite (mapM_Forall2 _ _ _ Hmasks). cbn [bind].
    apply unmold_boxes_x_raises; rewrite !length_map;
      [reflexivity|rewrite <- (Forall2_length Hmasks); exact Lc].
Qed.
End UnmolderXProofs.

(** Two of the three detections pass the filter: the call stops with
    [TypeError]. *)
Lemma unmold_detections_x_raises_witness :
  unmold_detections_x (fun (m : nat) (size : Z * Z) => (m, size))
    three_detections three_class_masks (100, 100)%Z (Box 0 0 10 10)%Z
  = Err TypeError.
Proof.
  apply (proj2 (unmold_detections_x_raises nat (nat * (Z * Z))
                  (fun (m : nat) (size : Z * Z) => (m, size))
                  three_detections three_class_masks (100, 100)%Z
                  (Box 0 0 10 10)%Z) [10; 21; 31]%nat).
  - repeat constructor.
  - reflexivity.
Defined.

(** ** Tensor utilities *)

Lemma insert_asc_count (x : Z) (l : list Z) (z : Z) :
  count_occ Z.eq_dec (insert_asc x l) z
  = count_occ Z.eq_dec (x :: l) z.
Proof.
  induction l as [|y l IH]; [reflexivity|].
  cbn [insert_asc]. destruct (x <=? y)%Z; [reflexivity|].
  cbn [count_occ] in *. rewrite IH.
  destruct (Z.eq_dec y z), (Z.eq_dec x z); reflexivity.
Qed.

Lemma sort_asc_count (t : list Z) (z : Z) :
  count_occ Z.eq_dec (sort_asc t) z = count_occ Z.eq_dec t z.
Proof.
  induction t as [|x t IH]; [reflexivity|].
  cbn [sort_asc fold_right]. fold (sort_asc t).
  rewrite insert_asc_count. cbn [count_occ]. rewrite IH. reflexivity.
Qed.

Lemma sort_asc_In (t : list Z) (z : Z) : In z (sort_asc t) <-> In z t.
Proof.
  rewrite !(count_occ_In Z.eq_dec), sort_asc_count. reflexivity.
Qed.

Lemma sort_asc_length (t : list Z) :
  List.length (sort_asc t) = List.length t.
Proof.
  induction t as [|x t IH]; [reflexivity|].
  cbn [sort_asc fold_right]. fold (sort_asc t). simpl. rewrite <- IH.
  generalize (sort_asc t) as l. clear.
  induction l as [|y l IH]; [reflexivity|].
  cbn [insert_asc]. destruct (x <=? y)%Z; simpl; [reflexivity|].
  rewrite IH. reflexivity.
Qed.

Lemma insert_asc_In (x : Z) (l : list Z) (z : Z) :
  In z (insert_asc x l) <-> z = x \/ In z l.
Proof.
  rewrite !(count_occ_In Z.eq_dec), insert_asc_count. cbn [count_occ].
  destruct (Z.eq_dec x z) as [E|E]; split; intros H.
  - left. congruence.
  - lia.
  - right. exact H.
  - destruct H as [H|H]; [congruence|exact H].
Qed.

Lemma insert_asc_sorted (x : Z) (l : list Z) :
  StronglySorted Z.le l -> StronglySorted Z.le (insert_asc x l).
Proof.
  induction 1 as [|y l S IH F].
  - repeat constructor.
  - cbn [insert_asc]. destruct (Z.leb_spec x y).
    + constructor; [constructor; assumption|].
      constructor; [assumption|].
      eapply Forall_impl; [|exact F]. intros a Ha. simpl in Ha. lia.
    + constructor; [exact IH|].
      apply Forall_forall. intros a Ha. apply insert_asc_In in Ha.
      destruct Ha as [->|Ha]; [lia|].
      rewrite Forall_forall in F. apply F. exact Ha.
Qed.

Lemma sort_asc_sorted (t : list Z) : StronglySorted Z.le (sort_asc t).
Proof.
  induction t as [|x t IH]; [constructor|].
  cbn [sort_asc fold_right]. apply insert_asc_sorted. exact IH.
Qed.

(** The boolean-mask expression of [unique1d] keeps the changes. *)
Lemma unique_mask_changes (a : Z) (rest : list Z) :
  compress (zip_with (fun a b => negb (a =? b)%Z) rest
                     (removelast (a :: rest))) rest
  = changes a rest.
Proof.
  revert a. induction rest as [|y r IH]; intros a; [reflexivity|].
  change (removelast (a :: y :: r)) with (a :: removelast (y :: r)).
  cbn [zip_with changes]. unfold compress in *. cbn [combine filter].
  destruct (negb (y =? a)%Z); cbn [fst filter map snd]; rewrite IH;
    reflexivity.
Qed.

Lemma changes_spec (rest : list Z) : forall a,
  StronglySorted Z.le (a :: rest) ->
  StronglySorted Z.lt (a :: changes a rest)
  /\ (forall z, In z (a :: changes a rest) <-> In z (a :: rest)).
Proof.
  induction rest as [|y r IH]; intros a S.
  - split; [repeat constructor|reflexivity].
  - inversion S as [|? ? S' F]; subst.
    inversion F as [|? ? Hay Fr]; subst.
    destruct (IH y S') as [Sy Iy].
    cbn [changes]. destruct (Z.eqb_spec y a) as [->|Hne]; cbn [negb].
    + split; [exact Sy|]. intros z. rewrite Iy. simpl. tauto.
    + split.
      * constructor; [exact Sy|].
        apply Forall_forall. intros z Hz. apply Iy in Hz.
        inversion S' as [|? ? _ Fy]; subst. rewrite Forall_forall in Fy.
        destruct Hz as [<-|Hz]; [lia|]. specialize (Fy z Hz). lia.
      * intros z. specialize (Iy z). simpl in *. tauto.
Qed.

(** The boolean-mask expression of [intersect1d] keeps the repeats. *)
Lemma intersect_mask_repeats (aux : list Z) :
  compress (zip_with Z.eqb (tl aux) (removelast aux)) (removelast aux)
  = repeats aux.
Proof.
  induction aux as [|x l IH]; [reflexivity|].
  destruct l as [|y r]; [reflexivity|].
  change (removelast (x :: y :: r)) with (x :: removelast (y :: r)).
  cbn [tl zip_with repeats]. cbn [tl] in IH.
  unfold compress in *. cbn [combine filter].
  destruct (y =? x)%Z; cbn [fst filter map snd]; rewrite IH; reflexivity.
Qed.

Lemma repeats_In (l : list Z) :
  StronglySorted Z.le l ->
  forall z, In z (repeats l) <-> (2 <= count_occ Z.eq_dec l z)%nat.
Proof.
  induction 1 as [|x l Hs IH F]; intros z.
  - simpl. split; [tauto|lia].
  - destruct l as [|y r].
    + simpl. destruct (Z.eq_dec x z); split; (tauto || lia).
    + change (repeats (x :: y :: r))
        with (if (y =? x)%Z then x :: repeats (y :: r) else repeats (y :: r)).
      specialize (IH z).
      change (count_occ Z.eq_dec (x :: y :: r) z)
        with (if Z.eq_dec x z then S (count_occ Z.eq_dec (y :: r) z)
              else count_occ Z.eq_dec (y :: r) z).
      inversion F as [|? ? Hxy Fr]; subst.
      destruct (Z.eq_dec x z) as [->|Hxz].
      * destruct (Z.eqb_spec y z) as [->|Hyz].
        -- split; intros _; [|left; reflexivity].
           cbn [count_occ]. destruct (Z.eq_dec z z); [lia|congruence].
        -- rewrite IH. split; [lia|]. intros H.
           assert (Hin : In z (y :: r))
             by (apply (count_occ_In Z.eq_dec); lia).
           exfalso. destruct Hin as [E|Hin]; [congruence|].
           inversion Hs as [|? ? _ Fy]; subst. rewrite Forall_forall in Fy.
           specialize (Fy z Hin). lia.
      * destruct (Z.eqb_spec y x) as [->|Hyx].
        -- rewrite <- IH. simpl. split; [|tauto].
           intros [E|H]; [congruence|exact H].
        -- exact IH.
Qed.

(** X16. [unique1d] returns the distinct values of the tensor in
    ascending order: the result is strictly increasing, so no value is
    repeated, it holds exactly the values of the tensor, and it is never
    longer than the tensor. *)
Theorem unique1d_spec (tensor : list Z) :
  StronglySorted Z.lt (unique1d tensor)
  /\ (forall z, In z (unique1d tensor) <-> In z tensor)
  /\ (List.length (unique1d tensor) <= List.length tensor)%nat.
Proof.
  unfold unique1d.
  destruct tensor as [|a [|b t]]; cbn [List.length Nat.eqb orb].
  - split; [constructor|]. split; [tauto|]. simpl. lia.
  - split; [repeat constructor|]. split; [tauto|]. simpl. lia.
  - cbv zeta. pose proof (sort_asc_sorted (a :: b :: t)) as S.
    pose proof (sort_asc_In (a :: b :: t)) as I.
    pose proof (sort_asc_length (a :: b :: t)) as L.
    destruct (sort_asc (a :: b :: t)) as [|s rest]; [discriminate L|].
    cbn [tl app].
    assert (E : compress (true :: zip_with (fun a0 b0 => negb (a0 =? b0)%Z)
                                   rest (removelast (s :: rest))) (s :: rest)
                = s :: changes s rest).
    { rewrite <- unique_mask_changes. reflexivity. }
    rewrite E. destruct (changes_spec rest s S) as [Ss Is].
    split; [exact Ss|]. split.
    + intros z. rewrite Is. apply I.
    + transitivity (List.length (s :: rest));
        [|simpl in L |- *; lia].
      apply NoDup_incl_length.
      * clear -Ss. induction Ss as [|x l _ IH F]; constructor; [|exact IH].
        intros Hin. rewrite Forall_forall in F. specialize (F x Hin). lia.
      * intros z Hz. apply Is. exact Hz.
Qed.

Lemma repeats_sorted (l : list Z) :
  StronglySorted Z.le l ->
  (forall z, count_occ Z.eq_dec l z <= 2)%nat ->
  StronglySorted Z.lt (repeats l).
Proof.
  induction 1 as [|x l Hs IH F]; intros C; [constructor|].
  assert (C' : forall z, (count_occ Z.eq_dec l z <= 2)%nat).
  { intros z. specialize (C z). cbn [count_occ] in C.
    destruct (Z.eq_dec x z); lia. }
  specialize (IH C').
  destruct l as [|y r]; [constructor|].
  change (repeats (x :: y :: r))
    with (if (y =? x)%Z then x :: repeats (y :: r) else repeats (y :: r)).
  destruct (Z.eqb_spec y x) as [->|Hyx]; [|exact IH].
  constructor; [exact IH|].
  apply Forall_forall. intros z Hz.
  apply (repeats_In _ Hs) in Hz.
  assert (Hin : In z (x :: r)) by (apply (count_occ_In Z.eq_dec); lia).
  rewrite Forall_forall in F. specialize (F z Hin).
  destruct (Z.eq_dec x z) as [<-|Hne]; [|lia].
  specialize (C x). cbn [count_occ] in C, Hz.
  destruct (Z.eq_dec x x); [lia|congruence].
Qed.

Lemma NoDup_count (l : list Z) (z : Z) :
  NoDup l -> count_occ Z.eq_dec l z = if in_dec Z.eq_dec z l then 1%nat else 0%nat.
Proof.
  intros N. destruct (in_dec Z.eq_dec z l) as [H|H].
  - apply (proj1 (NoDup_count_occ' Z.eq_dec l) N). exact H.
  - apply (count_occ_not_In Z.eq_dec). exact H.
Qed.

(** X17. [intersect1d] returns the values that occur at least twice in
    the two tensors taken together. For two tensors without repeated
    values this is their intersection: the result is strictly increasing
    and holds exactly the values that are in both. *)
Theorem intersect1d_spec (tensor1 tensor2 : list Z) :
  (forall z, In z (intersect1d tensor1 tensor2)
             <-> (2 <= count_occ Z.eq_dec (tensor1 ++ tensor2) z)%nat)
  /\ (NoDup tensor1 -> NoDup tensor2 ->
      StronglySorted Z.lt (intersect1d tensor1 tensor2)
      /\ forall z, In z (intersect1d tensor1 tensor2)
                   <-> In z tensor1 /\ In z tensor2).
Proof.
  assert (G : forall z, In z (intersect1d tensor1 tensor2)
             <-> (2 <= count_occ Z.eq_dec (tensor1 ++ tensor2) z)%nat).
  { intros z. unfold intersect1d. cbv zeta.
    rewrite intersect_mask_repeats.
    rewrite (repeats_In _ (sort_asc_sorted _)), sort_asc_count.
    reflexivity. }
  split; [exact G|]. intros N1 N2.
  assert (C : forall z, count_occ Z.eq_dec (tensor1 ++ tensor2) z
                        = ((if in_dec Z.eq_dec z tensor1 then 1 else 0)
                           + (if in_dec Z.eq_dec z tensor2 then 1 else 0))%nat).
  { intros z. rewrite count_occ_app, !NoDup_count by assumption.
    reflexivity. }
  split.
  - unfold intersect1d. cbv zeta. rewrite intersect_mask_repeats.
    apply repeats_sorted; [apply sort_asc_sorted|].
    intros z. rewrite sort_asc_count, C.
    destruct (in_dec Z.eq_dec z tensor1), (in_dec Z.eq_dec z tensor2); lia.
  - intros z. rewrite G, C.
    destruct (in_dec Z.eq_dec z tensor1), (in_dec Z.eq_dec z tensor2);
      split; (tauto || lia || (intros; exfalso; lia) || idtac).
    all: try (intros [? ?]; contradiction).
Qed.

(** ** Padding, configuration and mini masks *)

Lemma Qceiling_div_bounds (d s : Z) :
  (0 < s)%Z ->
  let c := Qceiling (inject_Z d / inject_Z s) in
  ((c - 1) * s < d <= c * s)%Z.
Proof.
  intros Hs c.
  pose proof (Qle_ceiling (inject_Z d / inject_Z s)) as U.
  pose proof (Qceiling_lt (inject_Z d / inject_Z s)) as L.
  fold c in U, L.
  assert (Ps : 0 < inject_Z s) by (apply inject_Z_pos; exact Hs).
  assert (E : inject_Z d / inject_Z s * inject_Z s == inject_Z d)
    by (field; lra).
  set (x := inject_Z d / inject_Z s) in *.
  assert (U' : inject_Z d <= inject_Z (c * s)).
  { rewrite inject_Z_mult.
    apply Qle_trans with (x * inject_Z s); [rewrite E; apply Qle_refl|].
    apply Qmult_le_compat_r; [exact U|apply Qlt_le_weak; exact Ps]. }
  assert (L' : inject_Z ((c - 1) * s) < inject_Z d).
  { rewrite inject_Z_mult.
    apply Qlt_le_trans with (x * inject_Z s); [|rewrite E; apply Qle_refl].
    apply Qmult_lt_compat_r; [exact Ps|exact L]. }
  rewrite <- Zle_Qle in U'. rewrite <- Zlt_Qlt in L'. lia.
Qed.

Lemma Qfloor_half (p : Z) : Qfloor (inject_Z p / 2) = (p / 2)%Z.
Proof.
  unfold Qdiv, Qmult, Qinv, inject_Z, Qfloor. simpl. rewrite Z.mul_1_r.
  reflexivity.
Qed.

(** X18. For a kernel size [k] and a stride [s] given as numbers, with
    [1 <= s <= k], [SamePad2d.forward] never fails and never crops: axis
    2 grows by the padding computed from the length of axis 3, and axis
    3 by the padding computed from the length of axis 2. On a square
    input both axes get the length [(ceil(d / s) - 1) * s + k], the one
    for which a convolution of kernel [k] and stride [s] yields
    [ceil(d / s)] outputs. *)
Theorem forward_same_size (k s n c d2 d3 : Z) :
  (1 <= s)%Z -> (s <= k)%Z -> (0 <= d2)%Z -> (0 <= d3)%Z ->
  let self := SamePad2d_init (k, k) (s, s) in
  let same d := ((Qceiling (inject_Z d / inject_Z s) - 1) * s + k)%Z in
  forward self (n, c, d2, d3)
  = Ok (n, c, d2 + (same d3 - d3), d3 + (same d2 - d2))%Z
  /\ (d2 <= same d2)%Z /\ (d3 <= same d3)%Z
  /\ (d2 = d3 -> forward self (n, c, d2, d3) = Ok (n, c, same d2, same d3))
  /\ ((same d2 - k) / s + 1 = Qceiling (inject_Z d2 / inject_Z s))%Z.
Proof.
  intros Hs Hk H2 H3 self same.
  pose proof (Qceiling_div_bounds d2 s ltac:(lia)) as B2.
  pose proof (Qceiling_div_bounds d3 s ltac:(lia)) as B3.
  cbv zeta in B2, B3.
  assert (S2 : (d2 <= same d2)%Z) by (unfold same; lia).
  assert (S3 : (d3 <= same d3)%Z) by (unfold same; lia).
  assert (E : forward self (n, c, d2, d3)
              = Ok (n, c, d2 + (same d3 - d3), d3 + (same d2 - d2))%Z).
  { unfold forward, self. cbn [stride kernel_size fst snd].
    rewrite !py_div_ok by (apply inject_Z_nonzero; lia).
    cbn [bind]. cbv zeta. unfold f_pad.
    fold (same d2). fold (same d3).
    replace (d2 + Qfloor (inject_Z (same d3 - d3) / 2)
             + (same d3 - d3 - Qfloor (inject_Z (same d3 - d3) / 2)))%Z
      with (d2 + (same d3 - d3))%Z by lia.
    replace (d3 + Qfloor (inject_Z (same d2 - d2) / 2)
             + (same d2 - d2 - Qfloor (inject_Z (same d2 - d2) / 2)))%Z
      with (d3 + (same d2 - d2))%Z by lia.
    destruct (Z.ltb_spec (d2 + (same d3 - d3)) 0); [lia|].
    destruct (Z.ltb_spec (d3 + (same d2 - d2)) 0); [lia|].
    reflexivity. }
  split; [exact E|]. split; [exact S2|]. split; [exact S3|]. split.
  - intros <-. rewrite E. do 2 f_equal; [f_equal|]; lia.
  - unfold same.
    replace ((Qceiling (inject_Z d2 / inject_Z s) - 1) * s + k - k)%Z
      with ((Qceiling (inject_Z d2 / inject_Z s) - 1) * s)%Z by lia.
    rewrite Z.div_mul by lia. lia.
Qed.

Lemma forward_same_size_witness :
  forward (SamePad2d_init (3, 3)%Z (2, 2)%Z) (1, 16, 4, 5)%Z
  = Ok (1, 16,
        4 + ((Qceiling (inject_Z 5 / inject_Z 2) - 1) * 2 + 3 - 5),
        5 + ((Qceiling (inject_Z 4 / inject_Z 2) - 1) * 2 + 3 - 4))%Z
  /\ (4 <= (Qceiling (inject_Z 4 / inject_Z 2) - 1) * 2 + 3)%Z
  /\ (5 <= (Qceiling (inject_Z 5 / inject_Z 2) - 1) * 2 + 3)%Z
  /\ (4%Z = 5%Z ->
      forward (SamePad2d_init (3, 3)%Z (2, 2)%Z) (1, 16, 4, 5)%Z
      = Ok (1, 16, (Qceiling (inject_Z 4 / inject_Z 2) - 1) * 2 + 3,
            (Qceiling (inject_Z 5 / inject_Z 2) - 1) * 2 + 3)%Z)
  /\ (((Qceiling (inject_Z 4 / inject_Z 2) - 1) * 2 + 3 - 3) / 2 + 1
      = Qceiling (inject_Z 4 / inject_Z 2))%Z.
Proof.
  apply (forward_same_size 3 2 1 16 4 5); intro H; discriminate H.
Defined.

Lemma trunc_exact (h : Z) :
  Qeq_bool (inject_Z h / inject_Z (2 ^ 6))
           (inject_Z (trunc (inject_Z h / inject_Z (2 ^ 6))))
  = (h mod 64 =? 0)%Z.
Proof.
  assert (T : trunc (inject_Z h / inject_Z (2 ^ 6)) = Z.quot h 64).
  { unfold trunc, Qdiv, Qmult, Qinv, inject_Z. simpl.
    rewrite Z.mul_1_r. reflexivity. }
  rewrite T.
  destruct (Z.eqb_spec (h mod 64) 0) as [E|E].
  - apply Qeq_bool_iff. apply Z.mod_divide in E; [|lia].
    destruct E as [q ->]. rewrite Z.quot_mul by lia.
    rewrite inject_Z_mult. change (inject_Z (2 ^ 6)) with (inject_Z 64).
    field.
  - apply not_true_is_false. intros H. apply Qeq_bool_iff in H.
    apply E. change (inject_Z (2 ^ 6)) with (inject_Z 64) in H.
    assert (H' : inject_Z h == inject_Z (Z.quot h 64 * 64)).
    { rewrite inject_Z_mult, <- H. field. }
    apply (proj1 (inject_Z_injective _ _)) in H'. rewrite H'. apply Z.mod_mul. lia.
Qed.

(** X19. For a height and a width of magnitude below [2^53], where
    the float quotients are exact, [check_config] accepts an image shape
    exactly when its height and its width are both multiples of 64; on
    any other such shape of two entries or more it raises the
    [Exception] on the image size, and on a shape of fewer than two
    entries the unpacking fails with [ValueError]. *)
Theorem check_config_multiple_of_64 (h w : Z) (rest : list Z) :
  (Z.abs h < 2 ^ 53)%Z -> (Z.abs w < 2 ^ 53)%Z ->
  (check_config (h :: w :: rest) = Ok tt
   <-> (h mod 64 = 0 /\ w mod 64 = 0)%Z)
  /\ (forall e, check_config (h :: w :: rest) = Err e ->
                exists msg, e = Exception msg)
  /\ (forall shape, (List.length shape < 2)%nat ->
                    check_config shape = Err ValueError).
Proof.
  intros _ _. unfold check_config. cbn [firstn]. rewrite !trunc_exact.
  split; [|split].
  - destruct (Z.eqb_spec (h mod 64) 0), (Z.eqb_spec (w mod 64) 0);
      cbn [negb orb]; split; intros H; try discriminate H;
      try reflexivity; try (split; assumption); destruct H; contradiction.
  - intros e. destruct (_ || _); intros H; [|discriminate H].
    injection H as <-. eexists. reflexivity.
  - intros [|a [|b l]] Hl; simpl in Hl; try lia; reflexivity.
Qed.

Lemma check_config_multiple_of_64_witness :
  (check_config [448; 512; 3]%Z = Ok tt
   <-> (448 mod 64 = 0 /\ 512 mod 64 = 0)%Z)
  /\ (forall e, check_config [448; 512; 3]%Z = Err e ->
                exists msg, e = Exception msg)
  /\ (forall shape, (List.length shape < 2)%nat ->
                    check_config shape = Err ValueError).
Proof.
  apply (check_config_multiple_of_64 448 512 [3%Z]); reflexivity.
Defined.

Lemma mapM_units (A : Type) (f : A -> result unit) (e : exn) (l : list A) :
  (forall a, In a l -> f a = Ok tt \/ f a = Err e) ->
  ((forall a, In a l -> f a = Ok tt) /\ exists us, mapM f l = Ok us)
  \/ ((exists a, In a l /\ f a = Err e) /\ mapM f l = Err e).
Proof.
  induction l as [|a l IH]; intros H.
  - left. split; [intros a []|exists []; reflexivity].
  - cbn [mapM]. destruct (H a (or_introl eq_refl)) as [Ea|Ea]; rewrite Ea;
      cbn [bind].
    + destruct IH as [[Hall [us Eu]]|[[b [Hb Eb]] Em]].
      * intros x Hx. apply H. right. exact Hx.
      * left. split.
        -- intros x [<-|Hx]; [exact Ea|apply Hall, Hx].
        -- rewrite Eu. cbn [bind]. eexists. reflexivity.
      * right. split; [exists b; split; [right; exact Hb|exact Eb]|].
        rewrite Em. reflexivity.
    + right. split; [exists a; split; [left; reflexivity|exact Ea]|].
      reflexivity.
Qed.

Lemma slice_len_same (n a : Z) : slice_len n a a = 0%Z.
Proof. unfold slice_len. lia. Qed.

Lemma slice_len_pos (n a b : Z) :
  (0 <= a)%Z -> (a < b)%Z -> (b <= n)%Z -> (0 < slice_len n a b)%Z.
Proof.
  intros Ha Hab Hb. unfold slice_len, slice_bound.
  destruct (Z.ltb_spec a 0); destruct (Z.ltb_spec b 0); lia.
Qed.

(** X20. The boxes of [extract_bboxes] fit [minimize_masks]: for a mask
    array of height and width below [2^31] and a mini shape without a
    negative side, [extract_bboxes] returns, and [minimize_masks] called
    with its boxes and the same masks returns mini masks of the shape
    [mini_shape + (num_instances,)] when every instance has a set pixel,
    and raises the [Exception] on the zero area when some instance has
    none. *)
Theorem minimize_masks_extract_bboxes (m : mask_array) (mini_shape : Z * Z) :
  (Z.of_nat (mask_height m) < 2 ^ 31)%Z ->
  (Z.of_nat (mask_width m) < 2 ^ 31)%Z ->
  (0 <= fst mini_shape)%Z -> (0 <= snd mini_shape)%Z ->
  exists boxes,
    extract_bboxes m = Ok boxes
    /\ ((forall i, (i < num_instances m)%nat -> exists y x, set_pixel m i y x)
        -> minimize_masks boxes m mini_shape
           = Ok (fst mini_shape, snd mini_shape, Z.of_nat (num_instances m)))
    /\ ((exists i, (i < num_instances m)%nat
                   /\ forall y x, ~ set_pixel m i y x)
        -> minimize_masks boxes m mini_shape
           = Err (Exception "Invalid bounding box with area of zero")).
Proof.
  intros HH HW M1 M2.
  destruct (mapM_seq_spec (extract_bbox m)
              (fun i b => ((exists y x, set_pixel m i y x) -> tight_box m i b)
                          /\ ((forall y x, ~ set_pixel m i y x)
                              -> b = Box 0 0 0 0)%Z)
              (num_instances m)
              (fun i => match extract_bbox_spec m i HH HW with
                        | ex_intro _ b (conj E P) => ex_intro _ b (conj E P)
                        end) 0%nat)
    as (boxes & Eb & Lb & Pb).
  exists boxes. split; [exact Eb|].
  set (step := fun i : nat =>
         b <- item boxes i ;;
         let m0 := (slice_len (Z.of_nat (mask_height m)) (y1 b) (y2 b),
                    slice_len (Z.of_nat (mask_width m)) (x1 b) (x2 b)) in
         if (fst m0 * snd m0 =? 0)%Z
         then Err (Exception "Invalid bounding box with area of zero")
         else let m1 := skimage_resize m0 mini_shape in Ok tt).
  assert (Em : minimize_masks boxes m mini_shape
               = (u <- mapM step (seq 0 (num_instances m)) ;;
                  Ok (fst mini_shape, snd mini_shape,
                      Z.of_nat (num_instances m)))).
  { unfold minimize_masks. cbv zeta.
    destruct (Z.ltb_spec (fst mini_shape) 0); [lia|].
    destruct (Z.ltb_spec (snd mini_shape) 0); [lia|]. reflexivity. }
  assert (Hstep : forall i, In i (seq 0 (num_instances m)) ->
            exists b, nth_error boxes i = Some b
              /\ step i
                 = if (slice_len (Z.of_nat (mask_height m)) (y1 b) (y2 b)
                       * slice_len (Z.of_nat (mask_width m)) (x1 b) (x2 b)
                       =? 0)%Z
                   then Err (Exception "Invalid bounding box with area of zero")
                   else Ok tt).
  { intros i Hi. apply in_seq in Hi.
    destruct (nth_error boxes i) as [b|] eqn:Eb';
      [|apply nth_error_None in Eb'; lia].
    exists b. split; [reflexivity|]. unfold step, item. rewrite Eb'.
    reflexivity. }
  assert (Hor : forall i, In i (seq 0 (num_instances m)) ->
            step i = Ok tt
            \/ step i = Err (Exception "Invalid bounding box with area of zero")).
  { intros i Hi. destruct (Hstep i Hi) as (b & _ & ->).
    destruct (_ =? _)%Z; [right|left]; reflexivity. }
  destruct (mapM_units nat step _ _ Hor) as [[Hall [us Eu]]|[[i [Hi Ei]] Ee]].
  - split.
    + intros _. rewrite Em, Eu. reflexivity.
    + intros (i & Hi & Hempty). exfalso.
      assert (Hin : In i (seq 0 (num_instances m))) by (apply in_seq; lia).
      destruct (Hstep i Hin) as (b & Nb & Es).
      rewrite (Hall i Hin) in Es.
      destruct (Pb i b Nb) as [_ Pz]. rewrite (Pz Hempty) in Es.
      cbn [y1 y2 x1 x2] in Es. rewrite !slice_len_same in Es.
      discriminate Es.
  - split.
    + intros Hset. exfalso.
      destruct (Hstep i Hi) as (b & Nb & Es). rewrite Ei in Es.
      apply in_seq in Hi.
      destruct (Pb i b Nb) as [Pt _].
      destruct (Pt (Hset i ltac:(lia)))
        as (Hin & (ya & xa & Sa & Ya) & (yb & xb & Sb & Yb)
            & (yc & xc & Sc & Xc) & (yd & xd & Sd & Xd)).
      destruct (Hin ya xa Sa) as [Iy Ix].
      destruct Sb as (Hb1 & _). destruct Sd as (_ & Hd2 & _).
      pose proof (slice_len_pos (Z.of_nat (mask_height m)) (y1 b) (y2 b)
                    ltac:(lia) ltac:(lia) ltac:(lia)) as Py.
      pose proof (slice_len_pos (Z.of_nat (mask_width m)) (x1 b) (x2 b)
                    ltac:(lia) ltac:(lia) ltac:(lia)) as Px.
      destruct (Z.eqb_spec
                  (slice_len (Z.of_nat (mask_height m)) (y1 b) (y2 b)
                   * slice_len (Z.of_nat (mask_width m)) (x1 b) (x2 b)) 0)
        as [Z0|Z0]; [nia|discriminate Es].
    + intros _. rewrite Em, Ee. reflexivity.
Qed.

Lemma minimize_masks_extract_bboxes_witness :
  exists boxes,
    extract_bboxes one_pixel_mask = Ok boxes
    /\ ((forall i, (i < num_instances one_pixel_mask)%nat ->
                   exists y x, set_pixel one_pixel_mask i y x)
        -> minimize_masks boxes one_pixel_mask (28, 28)%Z
           = Ok (fst (28, 28)%Z, snd (28, 28)%Z,
                 Z.of_nat (num_instances one_pixel_mask)))
    /\ ((exists i, (i < num_instances one_pixel_mask)%nat
                   /\ forall y x, ~ set_pixel one_pixel_mask i y x)
        -> minimize_masks boxes one_pixel_mask (28, 28)%Z
           = Err (Exception "Invalid bounding box with area of zero")).
Proof.
  apply (minimize_masks_extract_bboxes one_pixel_mask (28, 28)%Z);
    try reflexivity; intro H; discriminate H.
Defined.

(** ** Boxes inside the array, dimensions a mode needs *)

(** An instance has a set pixel or it has none. *)
Lemma set_pixel_dec (m : mask_array) (i : nat) :
  (exists y x, set_pixel m i y x) \/ (forall y x, ~ set_pixel m i y x).
Proof.
  destruct (existsb (fun y => existsb (fun x => pixel m y x i)
                                      (seq 0 (mask_width m)))
                    (seq 0 (mask_height m))) eqn:E.
  - left. apply existsb_exists in E. destruct E as (y & Hy & E).
    apply existsb_exists in E. destruct E as (x & Hx & E).
    apply in_seq in Hy, Hx. exists y, x. repeat split; (lia || exact E).
  - right. intros y x (Hy & Hx & Hp).
    assert (T : existsb (fun y => existsb (fun x => pixel m y x i)
                                          (seq 0 (mask_width m)))
                        (seq 0 (mask_height m)) = true).
    { apply existsb_exists. exists y. split; [apply in_seq; lia|].
      apply existsb_exists. exists x. split; [apply in_seq; lia|exact Hp]. }
    congruence.
Qed.

(** X21. For a mask array of height and width below [2^31], every box of
    [extract_bboxes] lies in the array, [0 <= y1 <= y2 <= height] and
    [0 <= x1 <= x2 <= width], and its area is positive exactly when its
    instance has a set pixel. *)
Theorem extract_bboxes_in_bounds (m : mask_array) :
  (Z.of_nat (mask_height m) < 2 ^ 31)%Z ->
  (Z.of_nat (mask_width m) < 2 ^ 31)%Z ->
  exists boxes,
    extract_bboxes m = Ok boxes
    /\ List.length boxes = num_instances m
    /\ forall i b, nth_error boxes i = Some b ->
         (0 <= y1 b <= y2 b)%Z /\ (y2 b <= Z.of_nat (mask_height m))%Z
         /\ (0 <= x1 b <= x2 b)%Z /\ (x2 b <= Z.of_nat (mask_width m))%Z
         /\ ((exists y x, set_pixel m i y x)
             <-> (0 < (y2 b - y1 b) * (x2 b - x1 b))%Z).
Proof.
  intros HH HW.
  destruct (mapM_seq_spec (extract_bbox m)
              (fun i b => ((exists y x, set_pixel m i y x) -> tight_box m i b)
                          /\ ((forall y x, ~ set_pixel m i y x)
                              -> b = Box 0 0 0 0)%Z)
              (num_instances m)
              (fun i => match extract_bbox_spec m i HH HW with
                        | ex_intro _ b (conj E P) => ex_intro _ b (conj E P)
                        end) 0%nat)
    as (boxes & Eb & Lb & Pb).
  exists boxes. split; [exact Eb|]. split; [exact Lb|].
  intros i b Nb. destruct (Pb i b Nb) as [Pt Pz]. cbn [Nat.add] in Pt, Pz.
  destruct (set_pixel_dec m i) as [Hset|Hnone].
  - destruct (Pt Hset)
      as (Hin & (ya & xa & Sa & Ya) & (yb & xb & Sb & Yb)
          & (yc & xc & Sc & Xc) & (yd & xd & Sd & Xd)).
    destruct (Hin ya xa Sa) as [Iy Ix].
    destruct Sb as (Hb1 & _). destruct Sd as (_ & Hd2 & _).
    split; [lia|]. split; [lia|]. split; [lia|]. split; [lia|].
    split; [intros _; nia|intros _; exact Hset].
  - rewrite (Pz Hnone). cbn [y1 x1 y2 x2].
    split; [lia|]. split; [lia|]. split; [lia|]. split; [lia|].
    split.
    + intros (y & x & S). exfalso. exact (Hnone y x S).
    + intros H. exfalso. lia.
Qed.

Lemma extract_bboxes_in_bounds_witness :
  exists boxes,
    extract_bboxes one_pixel_mask = Ok boxes
    /\ List.length boxes = num_instances one_pixel_mask
    /\ forall i b, nth_error boxes i = Some b ->
         (0 <= y1 b <= y2 b)%Z
         /\ (y2 b <= Z.of_nat (mask_height one_pixel_mask))%Z
         /\ (0 <= x1 b <= x2 b)%Z
         /\ (x2 b <= Z.of_nat (mask_width one_pixel_mask))%Z
         /\ ((exists y x, set_pixel one_pixel_mask i y x)
             <-> (0 < (y2 b - y1 b) * (x2 b - x1 b))%Z).
Proof.
  apply (extract_bboxes_in_bounds one_pixel_mask); reflexivity.
Defined.

(** X22. [resize_image] needs the dimension its mode pads or crops to:
    for an image with positive sides, whatever the other arguments are,
    [square] mode without [max_dim] (which includes the call with the
    default arguments), [pad64] mode without [min_dim] and [crop] mode
    without [min_dim] raise [TypeError]. *)
Theorem resize_image_required_dimension (randint : Z -> Z -> Z) (h w : Z)
    (md xd : option Z) (ms : option Q) :
  (0 < h)%Z -> (0 < w)%Z ->
  resize_image randint (h, w) md None ms "square" = Err TypeError
  /\ resize_image randint (h, w) None None None "square" = Err TypeError
  /\ resize_image randint (h, w) None xd ms "pad64" = Err TypeError
  /\ resize_image randint (h, w) None xd ms "crop" = Err TypeError.
Proof.
  intros Hh Hw.
  assert (Sq : forall md' ms',
            resize_image randint (h, w) md' None ms' "square"
            = Err TypeError).
  { intros md' ms'. unfold resize_image.
    cbn [String.eqb Ascii.eqb Bool.eqb negb andb].
    destruct (truthy_Z md') eqn:Tm; cbn [andb].
    - destruct md' as [z|]; [|discriminate Tm]. cbn [number bind].
      rewrite py_div_ok by (apply inject_Z_nonzero; lia). cbn [bind].
      rewrite min_scale_step. cbn [bind truthy_Z andb].
      destruct (negb (Qeq_bool _ 1)); reflexivity.
    - cbn [bind]. rewrite min_scale_step. cbn [bind truthy_Z andb].
      destruct (negb (Qeq_bool _ 1)); reflexivity. }
  split; [apply Sq|]. split; [apply Sq|]. split.
  - unfold resize_image.
    cbn [String.eqb Ascii.eqb Bool.eqb negb andb truthy_Z bind].
    rewrite min_scale_step. reflexivity.
  - unfold resize_image.
    cbn [String.eqb Ascii.eqb Bool.eqb negb andb truthy_Z bind].
    rewrite min_scale_step. cbn [bind andb].
    destruct (truthy_Z xd); cbn [andb bind];
      destruct (negb (Qeq_bool _ 1)); reflexivity.
Qed.

Lemma resize_image_required_dimension_witness :
  resize_image first_draw (100, 50)%Z (Some 64%Z) None (Some (2 # 1)) "square"
  = Err TypeError
  /\ resize_image first_draw (100, 50)%Z None None None "square"
     = Err TypeError
  /\ resize_image first_draw (100, 50)%Z None (Some 128%Z) (Some (2 # 1))
                  "pad64" = Err TypeError
  /\ resize_image first_draw (100, 50)%Z None (Some 128%Z) (Some (2 # 1))
                  "crop" = Err TypeError.
Proof.
  apply (resize_image_required_dimension first_draw 100 50 (Some 64%Z)
           (Some 128%Z) (Some (2 # 1))); reflexivity.
Defined.
